(** * Terrain Mapper: elevation regions

    A shallow embedding of the movement-segment adjusters of
    [scripts/regions/Region.js] and of the elevation handler of
    [scripts/regions/RegionElevationHandler.js], with the properties the
    specification states about them, and further properties of the code:
    the wrap of [segmentizeMovement], the hatching of a ramp, the axis
    projection, the ramp adjuster, and the handler's own adjuster
    [_modifySegments] and [pathFromSegments].

    Numbers.  The segment adjusters only copy and compare elevations (and
    halve and round one difference for stairs), so waypoints carry exact
    rationals [Q] and every definition of that part evaluates.  The axis
    projection and the ramp evaluation need square roots, sines and cosines:
    they are stated over the reals [R], extended with [NaN] and the two
    infinities, the values a division by zero produces.  Rounding error of
    binary floating point is not modelled: the properties of the axis
    projection say where the points the code returns lie with respect to
    the exact heading of a direction, not that two computed points are
    equal, and the properties that depend on a rounding are stated for whole
    numbers, on which the arithmetic of the code is exact.

    Objects.  Adjacent segments of a path share a waypoint by value, not by
    identity (section 3 of the specification), and the adjusters build new
    waypoints for the segments they add, so a write to
    [segment.from.elevation] is the replacement of that segment in the
    array.  The one exception is the split of a [MOVE] segment, whose two
    halves hold the same waypoint [ix]: the plateau adjuster never writes to
    it, and the scans of the ramp adjuster and of [_modifySegments] keep
    track of it.  That holds for one pass of an adjuster: a later pass, for
    another behavior of the region, starts from the values of the array, so
    the properties of what an adjuster does to an array are stated for one
    behavior.

    Loops.  The adjusters scan the array by index while they splice it;
    their loops are written as they stand, on the array and the variables
    [i], [n] and [entered], with a bound on the number of iterations.  The
    properties are proved through an equivalent scan of the array cut at
    [i]. *)

From Stdlib Require Import QArith Qround Qabs ZArith Lia Lqa Reals Lra String.
From stdpp Require Import base list.

(** ** JavaScript number primitives over [Q] *)

Module JS.

(** [a === b] on numbers. *)
Definition strictEq (a b : Q) : bool := Qeq_bool a b.

(** [a <= b], [a < b], [a > b]. *)
Definition le (a b : Q) : bool := Qle_bool a b.
Definition lt (a b : Q) : bool := negb (Qle_bool b a).
Definition gt (a b : Q) : bool := lt b a.

(** [Math.max(a, b)] and [Math.min(a, b)]. *)
Definition Math_max (a b : Q) : Q := if Qle_bool a b then b else a.
Definition Math_min (a b : Q) : Q := if Qle_bool a b then a else b.

(** [Math.round(q)]: the nearest integer, halves towards plus infinity. *)
Definition Math_round (q : Q) : Q := inject_Z (Qfloor (q + (1 # 2))).

(** Modelled from the spec: [Number.prototype.almostEqual(n)] of the host,
    equality up to its default tolerance [1e-8]. *)
Definition almostEqual (a b : Q) : bool := lt (Qabs (a - b)) (1 # 100000000).

(** [Array.prototype.splice(start, deleteCount, ...items)]: the array after
    the call. *)
Definition splice {A} (start deleteCount : nat) (items l : list A) : list A :=
  take start l ++ items ++ drop (start + deleteCount) l.

End JS.

(** ** Waypoints, segments and behaviors *)

Record Waypoint := mkWaypoint { x : Q; y : Q; elevation : Q }.

(** [Region.MOVEMENT_SEGMENT_TYPES]. *)
Inductive SegmentType := ENTER | MOVE | EXIT.

Record Segment := mkSegment { type : SegmentType; from : Waypoint; to : Waypoint }.

(** An entry of the segments array: [None] is a hole ([undefined] or
    [null]), which every adjuster skips. *)
Definition Entry := option Segment.

(** Modelled from the spec: [FLAGS.REGION.CHOICES] of [const.js], the kinds
    of elevation behavior. *)
Inductive Algorithm := NONE | PLATEAU | RAMP | STAIRS.

(** A region behavior, with the fields and the two methods of
    [behavior.system] the adjusters use. *)
Record Behavior := mkBehavior {
  behavior_type : string;
  disabled : bool;
  system_algorithm : Algorithm;
  system_elevation : Q;
  system_floor : Q;
  system_reset : bool;
  system_plateauElevation : Waypoint -> Q;
  system_plateauSegmentIntersection : Waypoint -> Waypoint -> option Waypoint
}.

(** [MODULE_ID] of [const.js]: the [id] of [module.json]. *)
Definition MODULE_ID : string := "terrainmapper".

Definition setElevation_type : string := MODULE_ID ++ ".setElevation".

(** ** Helpers of [Region.js] *)

(** Modelled from the spec: [regionWaypointsXYEqual] and
    [regionWaypointsEqual] of [util.js], which tell whether two waypoints
    share the same [(x, y)], and the same elevation too. *)
Definition regionWaypointsXYEqual (a b : Waypoint) : bool :=
  JS.strictEq (x a) (x b) && JS.strictEq (y a) (y b).

Definition regionWaypointsEqual (a b : Waypoint) : bool :=
  JS.strictEq (x a) (x b) && JS.strictEq (y a) (y b)
  && JS.strictEq (elevation a) (elevation b).

(** [{ ...w, elevation: e }], and [w.elevation = e] on a waypoint held by
    one segment only. *)
Definition withElevation (w : Waypoint) (e : Q) : Waypoint :=
  {| x := x w; y := y w; elevation := e |}.

(** [segment.from.elevation = e1; segment.to.elevation = e2]. *)
Definition setElevations (s : Segment) (e1 e2 : Q) : Segment :=
  {| type := type s; from := withElevation (from s) e1; to := withElevation (to s) e2 |}.

Definition constructVerticalMoveSegment (waypoint : Waypoint) (targetElevation : Q) : Segment :=
  {| from := {| x := x waypoint; y := y waypoint; elevation := elevation waypoint |};
     to := {| x := x waypoint; y := y waypoint; elevation := targetElevation |};
     type := MOVE |}.

(** [insertVerticalMoveToTerrainFloor(i, segments, floor)]: the array after
    the call and the number of segments added.  [segments[i - 1]] is
    [undefined] at [i = 0] and at a hole; the fallback [{ to: segment.from }]
    then reads the elevation just written, so nothing is added.  Every
    caller passes the index of a defined segment; at a hole the source
    raises a [TypeError], which no caller reaches, and the model leaves the
    array as it is. *)
Definition insertVerticalMoveToTerrainFloor
    (i : nat) (segments : list Entry) (floor : Q) : list Entry * nat :=
  match segments !! i with
  | Some (Some segment) =>
      let segment' := setElevations segment floor floor in
      let segments' := <[i := Some segment']> segments in
      let prevSegment_to :=
        match i with
        | O => from segment'
        | S j => match segments' !! j with
                 | Some (Some prevSegment) => to prevSegment
                 | _ => from segment'
                 end
        end in
      if negb (JS.strictEq (elevation prevSegment_to) floor)
      then (JS.splice i 0 [Some (constructVerticalMoveSegment prevSegment_to floor)] segments', 1%nat)
      else (segments', 0%nat)
  | _ => (segments, 0%nat)
  end.

(** ** [modifySegmentsForPlateau] *)

Module Plateau.

(** The variables of the scan: the array and [i], [n], [entered]. *)
Record Scan := mkScan { segments : list Entry; i : nat; n : nat; entered : bool }.

Section Body.
Variables (behavior : Behavior) (freefall : bool) (terrainFloor : Q).

Definition caseENTER (st : Scan) (segment : Segment) : Scan :=
  if JS.strictEq (system_elevation behavior) (elevation (to segment))
  then mkScan (segments st) (i st) (n st) true
  else
    let vSegment := constructVerticalMoveSegment (to segment) (system_elevation behavior) in
    mkScan (JS.splice (i st + 1) 0 [Some vSegment] (segments st))
           (i st + 1) (n st + 1) true.

Definition caseMOVE (st : Scan) (segment : Segment) : Scan :=
  if entered st then
    let segment' :=
      setElevations segment
        (JS.Math_max (system_elevation behavior) (elevation (from segment)))
        (JS.Math_max (system_elevation behavior) (elevation (to segment))) in
    mkScan (<[i st := Some segment']> (segments st)) (i st) (n st) (entered st)
  else if freefall
          && JS.gt (elevation (from segment)) (system_elevation behavior)
          && JS.lt (elevation (to segment)) (system_elevation behavior)
  then
    let ix :=
      if regionWaypointsXYEqual (from segment) (to segment)
      then Some (withElevation (from segment) (system_elevation behavior))
      else system_plateauSegmentIntersection behavior (from segment) (to segment) in
    match ix with
    | Some ix =>
        if regionWaypointsEqual ix (from segment) || regionWaypointsEqual ix (to segment)
        then st
        else
          let toIx := {| type := MOVE; from := from segment; to := ix |} in
          let fromIx := {| type := MOVE; from := ix; to := to segment |} in
          mkScan (JS.splice (i st) 1 [Some toIx; Some fromIx] (segments st))
                 (i st) (n st + 1) (entered st)
    | None => st
    end
  else st.

Definition caseEXIT (st : Scan) (segment : Segment) : Scan :=
  if negb (system_reset behavior)
  then mkScan (segments st) (i st) (n st) false
  else if negb (freefall
                || (entered st
                    && negb (JS.strictEq (system_elevation behavior)
                                         (elevation (from segment)))))
  then mkScan (segments st) (i st) (n st) false
  else
    let '(segments', numAdded) :=
      insertVerticalMoveToTerrainFloor (i st) (segments st) terrainFloor in
    mkScan segments' (i st + numAdded) (n st + numAdded) false.

(** The body of the [for] loop, up to its [break] or [continue]. *)
Definition body (st : Scan) : Scan :=
  match segments st !! i st with
  | Some (Some segment) =>
      match type segment with
      | ENTER => caseENTER st segment
      | MOVE => caseMOVE st segment
      | EXIT => caseEXIT st segment
      end
  | _ => st
  end.

(** One iteration: the body, then [i += 1]. *)
Definition step (st : Scan) : Scan :=
  let st' := body st in
  mkScan (segments st') (i st' + 1) (n st') (entered st').

(** The loop [for ( ...; i < n; i += 1 )].  A freefall split puts a new
    segment in front of the scan, so the number of iterations is not
    bounded by the length of the input: [fuel] bounds it, and [None]
    means the bound was reached. *)
Fixpoint loop (fuel : nat) (st : Scan) : option (list Entry) :=
  if i st <? n st then
    match fuel with
    | O => None
    | S fuel' => loop fuel' (step st)
    end
  else Some (segments st).

End Body.

End Plateau.

Definition modifySegmentsForPlateau (fuel : nat) (segments : list Entry)
    (behavior : Behavior) (freefall : bool) (terrainFloor : Q) : option (list Entry) :=
  if negb (String.eqb (behavior_type behavior) setElevation_type)
     || disabled behavior
     || negb (match system_algorithm behavior with PLATEAU => true | _ => false end)
  then Some segments
  else Plateau.loop behavior freefall terrainFloor fuel
         (Plateau.mkScan segments 0 (length segments) false).

(** ** [modifySegmentsForStairs] *)

Module Stairs.

(** The variables of the scan: the array and [i], [n], [entered], [up],
    [targetElevation]. *)
Record Scan := mkScan {
  segments : list Entry; i : nat; n : nat;
  entered : bool; up : bool; targetElevation : Q }.

Section Body.
Variables (behavior : Behavior) (terrainFloor : Q).

(** [const midE = Math.round((elevation - floor) * 0.5)]. *)
Definition midE : Q :=
  JS.Math_round ((system_elevation behavior - system_floor behavior) * (1 # 2)).

Definition caseENTER (st : Scan) (segment : Segment) : Scan :=
  let up' := JS.le (elevation (from segment)) midE in
  mkScan (segments st) (i st) (n st) true up'
         (if up' then system_elevation behavior else system_floor behavior).

Definition caseMOVE (st : Scan) (segment : Segment) : Scan :=
  if negb (entered st) then st
  else
    let cmpFn := if up st then JS.Math_max else JS.Math_min in
    let segment' :=
      setElevations segment
        (cmpFn (targetElevation st) (elevation (from segment)))
        (cmpFn (targetElevation st) (elevation (to segment))) in
    mkScan (<[i st := Some segment']> (segments st)) (i st) (n st)
           (entered st) (up st) (targetElevation st).

Definition caseEXIT (st : Scan) (segment : Segment) : Scan :=
  if negb (entered st
           || JS.strictEq (system_elevation behavior) (elevation (from segment))
           || JS.strictEq (system_floor behavior) (elevation (from segment)))
  then st
  else if negb (system_reset behavior)
  then mkScan (segments st) (i st) (n st) false (up st) (targetElevation st)
  else
    let '(segments', numAdded) :=
      insertVerticalMoveToTerrainFloor (i st) (segments st) terrainFloor in
    mkScan segments' (i st + numAdded) (n st + numAdded) false
           (up st) (targetElevation st).

Definition body (st : Scan) : Scan :=
  match segments st !! i st with
  | Some (Some segment) =>
      match type segment with
      | ENTER => caseENTER st segment
      | MOVE => caseMOVE st segment
      | EXIT => caseEXIT st segment
      end
  | _ => st
  end.

Definition step (st : Scan) : Scan :=
  let st' := body st in
  mkScan (segments st') (i st' + 1) (n st') (entered st') (up st')
         (targetElevation st').

Fixpoint loop (fuel : nat) (st : Scan) : option (list Entry) :=
  if i st <? n st then
    match fuel with
    | O => None
    | S fuel' => loop fuel' (step st)
    end
  else Some (segments st).

(** [let entered = false; let up = true; let targetElevation = elevation]. *)
Definition init (segments : list Entry) : Scan :=
  mkScan segments 0 (length segments) false true (system_elevation behavior).

End Body.

End Stairs.

Definition modifySegmentsForStairs (fuel : nat) (segments : list Entry)
    (behavior : Behavior) (terrainFloor : Q) : option (list Entry) :=
  if negb (String.eqb (behavior_type behavior) setElevation_type)
     || disabled behavior
     || negb (match system_algorithm behavior with STAIRS => true | _ => false end)
  then Some segments
  else Stairs.loop behavior terrainFloor fuel (Stairs.init behavior segments).

(** ** [modifySegmentsForRamp] *)

Module Ramp.

(** The variables of the scan.  A split stores one waypoint object [ix]
    as the [to] of the first half and as the [from] of the second half,
    and the next iteration may write the elevation of that object:
    [shared] says that [segments[i].from] and [segments[i - 1].to] are
    one object.  All other waypoints belong to one segment. *)
Record Scan := mkScan {
  segments : list Entry; i : nat; n : nat; entered : bool; shared : bool }.

Section Body.
Variables (behavior : Behavior) (freefall : bool) (terrainFloor : Q).

Definition caseENTER (st : Scan) (segment : Segment) : Scan :=
  let elevation' := system_plateauElevation behavior (to segment) in
  if JS.strictEq elevation' (elevation (to segment))
  then mkScan (segments st) (i st) (n st) true false
  else
    let vSegment := constructVerticalMoveSegment (to segment) elevation' in
    mkScan (JS.splice (i st + 1) 0 [Some vSegment] (segments st))
           (i st + 1) (n st + 1) true false.

(** [segments[i - 1].to.elevation = e], the write seen through the
    shared waypoint. *)
Definition writePrevTo (segments : list Entry) (i : nat) (e : Q) : list Entry :=
  match i with
  | O => segments
  | S j =>
      match segments !! j with
      | Some (Some prev) =>
          <[j := Some {| type := type prev; from := from prev;
                         to := withElevation (to prev) e |}]> segments
      | _ => segments
      end
  end.

Definition caseMOVE (st : Scan) (segment : Segment) : Scan :=
  let currRampElevation := system_plateauElevation behavior (from segment) in
  if entered st || JS.almostEqual (elevation (from segment)) currRampElevation then
    let from' := withElevation (from segment) currRampElevation in
    let to' := withElevation (to segment) (system_plateauElevation behavior (to segment)) in
    let segments1 :=
      if shared st then writePrevTo (segments st) (i st) currRampElevation
      else segments st in
    mkScan (<[i st := Some {| type := type segment; from := from'; to := to' |}]> segments1)
           (i st) (n st) (entered st) false
  else if negb (freefall
                || JS.strictEq (elevation (from segment)) (elevation (to segment)))
  then mkScan (segments st) (i st) (n st) (entered st) false
  else
    match system_plateauSegmentIntersection behavior (from segment) (to segment) with
    | None => mkScan (segments st) (i st) (n st) (entered st) false
    | Some ix =>
        if regionWaypointsEqual ix (from segment) || regionWaypointsEqual ix (to segment)
        then mkScan (segments st) (i st) (n st) (entered st) false
        else
          let toIx := {| type := MOVE; from := from segment; to := ix |} in
          let fromIx := {| type := MOVE; from := ix; to := to segment |} in
          mkScan (JS.splice (i st) 1 [Some toIx; Some fromIx] (segments st))
                 (i st) (n st + 1) (entered st) true
    end.

Definition caseEXIT (st : Scan) (segment : Segment) : Scan :=
  if negb (system_reset behavior)
  then mkScan (segments st) (i st) (n st) false false
  else if negb (freefall
                || (entered st
                    && negb (JS.strictEq (system_plateauElevation behavior (from segment))
                                         (elevation (from segment)))))
  then mkScan (segments st) (i st) (n st) false false
  else
    let '(segments', numAdded) :=
      insertVerticalMoveToTerrainFloor (i st) (segments st) terrainFloor in
    mkScan segments' (i st + numAdded) (n st + numAdded) false false.

Definition body (st : Scan) : Scan :=
  match segments st !! i st with
  | Some (Some segment) =>
      match type segment with
      | ENTER => caseENTER st segment
      | MOVE => caseMOVE st segment
      | EXIT => caseEXIT st segment
      end
  | _ => mkScan (segments st) (i st) (n st) (entered st) false
  end.

Definition step (st : Scan) : Scan :=
  let st' := body st in
  mkScan (segments st') (i st' + 1) (n st') (entered st') (shared st').

Fixpoint loop (fuel : nat) (st : Scan) : option (list Entry) :=
  if i st <? n st then
    match fuel with
    | O => None
    | S fuel' => loop fuel' (step st)
    end
  else Some (segments st).

End Body.

End Ramp.

Definition modifySegmentsForRamp (fuel : nat) (segments : list Entry)
    (behavior : Behavior) (freefall : bool) (terrainFloor : Q) : option (list Entry) :=
  if negb (String.eqb (behavior_type behavior) setElevation_type)
     || disabled behavior
     || negb (match system_algorithm behavior with RAMP => true | _ => false end)
  then Some segments
  else Ramp.loop behavior freefall terrainFloor fuel
         (Ramp.mkScan segments 0 (length segments) false false).

(** The body of the loop over the behaviors in [segmentizeMovement]: the
    three adjusters in turn, on one behavior. *)
Definition adjustSegments (fuel : nat) (segments : list Entry)
    (behavior : Behavior) (freefall : bool) (terrainFloor : Q) : option (list Entry) :=
  s1 ← modifySegmentsForPlateau fuel segments behavior freefall terrainFloor;
  s2 ← modifySegmentsForStairs fuel s1 behavior terrainFloor;
  modifySegmentsForRamp fuel s2 behavior freefall terrainFloor.

(** ** [RegionElevationHandler.plateauSegmentIntersection] *)

Module Handler.

(** Modelled from the spec: [Number.prototype.between(a, b)] of the host,
    "lies between [a] and [b]" with the bounds included and in either
    order. *)
Definition between (e a b : Q) : bool :=
  JS.le (JS.Math_min a b) e && JS.le e (JS.Math_max a b).

Section Intersection.
(** [Region[MODULE_ID].nearestGroundElevation], and the second half of
    the method (the intersection with the plane of the plateau or ramp,
    built by the geometry library), which a vertical move never
    reaches. *)
Variable nearestGroundElevation : Waypoint -> Q.
Variable planeSegmentIntersection : Waypoint -> Waypoint -> option Waypoint.

Definition plateauSegmentIntersection (a b : Waypoint) : option Waypoint :=
  if regionWaypointsXYEqual a b then
    let e := JS.Math_max (nearestGroundElevation a) (nearestGroundElevation b) in
    if between e (elevation a) (elevation b)
    then Some (withElevation a e)
    else None
  else planeSegmentIntersection a b.
End Intersection.

End Handler.

(** ** Axis projection and ramp elevation, over the reals *)

Module Geometry.

Local Open Scope R_scope.

(** A point [{ x, y }]; [_dist2] is the property
    [minMaxRegionPointsAlongAxis] attaches to the points it compares
    ([None] while it is absent). *)
Record Point := mkPoint { x : R; y : R; _dist2 : option R }.

Definition pt (x y : R) : Point := mkPoint x y None.

(** A [PIXI.Polygon]: its points, and the orientation flag the region
    sets. *)
Record Polygon := mkPolygon { points : list Point; _isPositive : bool }.

(** A [PIXI.Rectangle], by its edges. *)
Record Bounds := mkBounds { left : R; top : R; right : R; bottom : R }.

Record MinMax := mkMinMax { min : Point; max : Point }.

(** A region, as far as the projection reads it: [region.polygons] and
    [region.bounds.center]. *)
Record Region := mkRegion { polygons : list Polygon; bounds_center : Point }.

(** Modelled from the spec: [PIXI.Polygon.prototype.getBounds], the
    axis-aligned bounding box of the points (the empty rectangle at the
    origin when there is none); the canvas has [y] growing downwards, so
    [top] is the least [y]. *)
Definition getBounds (poly : list Point) : Bounds :=
  match poly with
  | [] => mkBounds 0 0 0 0
  | p :: ps =>
      mkBounds (foldr (fun q m => Rmin (x q) m) (x p) ps)
               (foldr (fun q m => Rmin (y q) m) (y p) ps)
               (foldr (fun q m => Rmax (x q) m) (x p) ps)
               (foldr (fun q m => Rmax (y q) m) (y p) ps)
  end.

(** Modelled from the spec: [Math.toRadians] of the host. *)
Definition toRadians (degrees : R) : R := degrees * PI / 180.

(** Modelled from the spec: the 3x3 matrices of the geometry library
   ([Matrix.rotationZ(angle, false)], [Matrix.translation(x, y)],
   [multiply3x3]) and the product of a row vector [[x, y, 1]] with one. *)
Definition Matrix : Type := (R * R * R) * (R * R * R) * (R * R * R).

Definition rotationZ (angle : R) : Matrix :=
  ((cos angle, sin angle, 0), (- sin angle, cos angle, 0), (0, 0, 1)).

Definition translation (tx ty : R) : Matrix :=
  ((1, 0, 0), (0, 1, 0), (tx, ty, 1)).

Definition multiply3x3 (A B : Matrix) : Matrix :=
  let '((a00, a01, a02), (a10, a11, a12), (a20, a21, a22)) := A in
  let '((b00, b01, b02), (b10, b11, b12), (b20, b21, b22)) := B in
  ((a00 * b00 + a01 * b10 + a02 * b20,
    a00 * b01 + a01 * b11 + a02 * b21,
    a00 * b02 + a01 * b12 + a02 * b22),
   (a10 * b00 + a11 * b10 + a12 * b20,
    a10 * b01 + a11 * b11 + a12 * b21,
    a10 * b02 + a11 * b12 + a12 * b22),
   (a20 * b00 + a21 * b10 + a22 * b20,
    a20 * b01 + a21 * b11 + a22 * b21,
    a20 * b02 + a21 * b12 + a22 * b22)).

Definition rowTimes (p : Point) (M : Matrix) : Point :=
  let '((m00, m01, _), (m10, m11, _), (m20, m21, _)) := M in
  pt (x p * m00 + y p * m10 + 1 * m20) (x p * m01 + y p * m11 + 1 * m21).

(** [rotatePolygon(poly, rotation, centroid)], on the points. *)
Definition rotatePolygon (poly : list Point) (rotation : R) (centroid : Point)
    : list Point :=
  if Req_dec_T rotation 0 then poly
  else
    let rot := rotationZ rotation in
    let trans := translation (- x centroid) (- y centroid) in
    let revTrans := translation (x centroid) (y centroid) in
    let M := multiply3x3 (multiply3x3 trans rot) revTrans in
    map (fun p => rowTimes p M) poly.

(** [minMaxPolygonPointsAlongAxis(poly, direction, centroid)], called with
    a centroid by every caller; [None] is the [undefined] the function
    falls through to.  [direction % 90] is the remainder that takes the
    sign of [direction]. *)
Definition minMaxPolygonPointsAlongAxis
    (poly : list Point) (direction : Z) (centroid : Point) : option MinMax :=
  if negb (Z.rem direction 90 =? 0)%Z then
    let rotatedPoly := rotatePolygon poly (toRadians (IZR (360 - direction))) centroid in
    let bounds := getBounds rotatedPoly in
    let minMaxRotatedPoly :=
      [pt (x centroid) (top bounds); pt (x centroid) (bottom bounds)] in
    let minMaxPoly :=
      rotatePolygon minMaxRotatedPoly (- toRadians (IZR (360 - direction))) centroid in
    match minMaxPoly with
    | [p0; p1] => Some (mkMinMax (pt (x p0) (y p0)) (pt (x p1) (y p1)))
    | _ => None
    end
  else
    let bounds := getBounds poly in
    match direction with
    | 0%Z => Some (mkMinMax (pt (x centroid) (top bounds)) (pt (x centroid) (bottom bounds)))
    | 90%Z => Some (mkMinMax (pt (right bounds) (y centroid)) (pt (left bounds) (y centroid)))
    | 180%Z => Some (mkMinMax (pt (x centroid) (bottom bounds)) (pt (x centroid) (top bounds)))
    | 270%Z => Some (mkMinMax (pt (left bounds) (y centroid)) (pt (right bounds) (y centroid)))
    | _ => None
    end.

(** Modelled from the spec: [PIXI.Point.distanceSquaredBetween] and
    [PIXI.Point.distanceBetween] of the geometry library, the squared and
    the plain Euclidean distance. *)
Definition distanceSquaredBetween (a b : Point) : R :=
  (x b - x a) * (x b - x a) + (y b - y a) * (y b - y a).

Definition distanceBetween (a b : Point) : R := sqrt (distanceSquaredBetween a b).

(** [p._dist2 = d]. *)
Definition setDist2 (p : Point) (d : R) : Point := mkPoint (x p) (y p) (Some d).

(** [a._dist2 > b._dist2]; a comparison with [undefined] is false. *)
Definition dist2_gt (a b : Point) : bool :=
  match _dist2 a, _dist2 b with
  | Some da, Some db => if Rlt_dec db da then true else false
  | _, _ => false
  end.

(** The loop of [minMaxRegionPointsAlongAxis] over [polys[1..]].  The
    outer [None] is the [TypeError] raised when a polygon has no
    projection ([res] is [undefined]). *)
Fixpoint regionLoop (polys : list Polygon) (direction : Z) (center : Point)
    (minMax : MinMax) : option MinMax :=
  match polys with
  | [] => Some minMax
  | poly :: polys' =>
      match minMaxPolygonPointsAlongAxis (points poly) direction center with
      | None => None
      | Some res =>
          let res_min := setDist2 (min res) (distanceSquaredBetween (min minMax) center) in
          let res_max := setDist2 (max res) (distanceSquaredBetween (max minMax) center) in
          let minMax1 :=
            if dist2_gt res_min (min minMax) then mkMinMax res_min (max minMax) else minMax in
          let minMax2 :=
            if dist2_gt res_max (max minMax1) then mkMinMax (min minMax1) res_max else minMax1 in
          regionLoop polys' direction center minMax2
      end
  end.

(** [minMaxRegionPointsAlongAxis(region, direction)]: [Some None] is the
    [undefined] returned when the region has no positive polygon, the
    outer [None] a [TypeError]. *)
Definition minMaxRegionPointsAlongAxis (region : Region) (direction : Z)
    : option (option MinMax) :=
  let polys := filter (fun poly => _isPositive poly = true) (polygons region) in
  match polys with
  | [] => Some None
  | poly0 :: polys' =>
      let center := bounds_center region in
      match minMaxPolygonPointsAlongAxis (points poly0) direction center with
      | None => None
      | Some minMax =>
          let minMax0 :=
            mkMinMax (setDist2 (min minMax) (distanceSquaredBetween (min minMax) center))
                     (setDist2 (max minMax) (distanceSquaredBetween (max minMax) center)) in
          Some <$> regionLoop polys' direction center minMax0
      end
  end.

(** *** [#rampElevation] *)

(** The values a quotient of two reals takes in JavaScript. *)
Inductive Num := Fin (r : R) | PlusInfinity | MinusInfinity | NaN.

(** [a / b] for a divisor that is not the negative zero (a distance). *)
Definition div (a b : R) : Num :=
  if Req_dec_T b 0 then
    if Req_dec_T a 0 then NaN
    else if Rlt_dec 0 a then PlusInfinity else MinusInfinity
  else Fin (a / b).

(** Modelled from the spec: [Math.clamp(num, lo, hi)] of the host,
    [Math.min(Math.max(num, lo), hi)]. *)
Definition clamp (num : Num) (lo hi : R) : Num :=
  match num with
  | Fin r => Fin (Rmin (Rmax r lo) hi)
  | PlusInfinity => Fin hi
  | MinusInfinity => Fin (Rmin lo hi)
  | NaN => NaN
  end.

(** Modelled from the spec: [num.almostEqual(r)] of the host, equality up
    to [1e-8]; false on [NaN]. *)
Definition almostEqual (num : Num) (r : R) : bool :=
  match num with
  | Fin t => if Rlt_dec (Rabs (t - r)) (1 / 100000000) then true else false
  | _ => false
  end.

Definition Math_round (r : R) : R := IZR (Zfloor (r + / 2)).
Definition Math_floor (r : R) : R := IZR (Zfloor r).

(** A waypoint [{ x, y, elevation }]. *)
Record Location := mkLocation { position : Point; elevation : R }.

(** The properties of [this] that [#rampElevation] reads.  [minMax] is
    [None] when the getter yields [undefined]; [rampStepHeight] is [None]
    when the object has no such property. *)
Record This := mkThis {
  minMax : option MinMax;
  rampFloor : R;
  plateauElevation : R;
  rampStepHeight : option R }.

(** The object the class builds from the flags of the region document: its
    getters are [plateauElevation], [rampFloor], [rampDirection],
    [rampStepSize] and [minMax], and it declares no [rampStepHeight]. *)
Definition handlerOfFlags (minMax : option MinMax)
    (PLATEAU_ELEVATION FLOOR STEP_SIZE : R) : This :=
  mkThis minMax FLOOR PLATEAU_ELEVATION None.

(** [!rampStepHeight]. *)
Definition noStepHeight (h : option R) : bool :=
  match h with
  | None => true
  | Some r => if Req_dec_T r 0 then true else false
  end.

Section RampElevation.
(** [foundry.utils.closestPointToSegment(c, a, b)] of the host; [None]
    when it raises an error. *)
Variable closestPointToSegment : Point -> Point -> Point -> option Point.

(** The outer [None] is an error raised by the host function. *)
Definition rampElevation (this : This) (waypoint : Location) : option Num :=
  match minMax this with
  | None => Some (Fin (elevation waypoint))
  | Some minMax =>
      closestPt ← closestPointToSegment (position waypoint) (min minMax) (max minMax);
      let t0 :=
        clamp (div (distanceBetween (min minMax) closestPt)
                   (distanceBetween (min minMax) (max minMax))) 0 1 in
      if almostEqual t0 0 then Some (Fin (rampFloor this))
      else if almostEqual t0 1 then Some (Fin (plateauElevation this))
      else
        let delta := plateauElevation this - rampFloor this in
        Some
          match t0 with
          | Fin t =>
              if noStepHeight (rampStepHeight this)
              then Fin (Math_round (rampFloor this + t * delta))
              else
                let h := default 0 (rampStepHeight this) in
                Fin (Math_round (rampFloor this + Math_floor (t * delta / h) * h))
          | _ => NaN
          end
  end.
End RampElevation.

End Geometry.

(** ** The scans seen on the array cut at [i]

    During a scan the array is [done ++ todo] with [i = length done] and
    [n = length (done ++ todo)]: an iteration reads the head of [todo] and
    the last entry of [done], appends to [done], and puts at most one new
    segment back in front of [todo].  The definitions below state each scan
    in this form; [PlateauFacts.loop_scan], [stairs_loop_scan],
    [ramp_loop_scan] and [modify_loop_scan] prove that the loops compute
    the same arrays. *)

(** What [insertVerticalMoveToTerrainFloor] leaves in place of the segment
    at [i], after the entries [done] before it. *)
Definition exitToFloor (done : list Entry) (segment : Segment) (floor : Q) : list Entry :=
  let segment' := setElevations segment floor floor in
  let prevSegment_to :=
    match last done with
    | Some (Some prevSegment) => to prevSegment
    | _ => from segment'
    end in
  if negb (JS.strictEq (elevation prevSegment_to) floor)
  then [Some (constructVerticalMoveSegment prevSegment_to floor); Some segment']
  else [Some segment'].

Module PlateauView.
Section View.
Variables (behavior : Behavior) (freefall : bool) (terrainFloor : Q).

(** One iteration on the entry [cur] after [done]: the entries appended
    to [done], the entries put back in front of the scan, and
    [entered]. *)
Definition emit (done : list Entry) (cur : Entry) (entered : bool)
    : list Entry * list Entry * bool :=
  match cur with
  | None => ([None], [], entered)
  | Some segment =>
      match type segment with
      | ENTER =>
          if JS.strictEq (system_elevation behavior) (elevation (to segment))
          then ([Some segment], [], true)
          else ([Some segment;
                 Some (constructVerticalMoveSegment (to segment) (system_elevation behavior))],
                [], true)
      | MOVE =>
          if entered then
            ([Some (setElevations segment
                      (JS.Math_max (system_elevation behavior) (elevation (from segment)))
                      (JS.Math_max (system_elevation behavior) (elevation (to segment))))],
             [], entered)
          else if freefall
                  && JS.gt (elevation (from segment)) (system_elevation behavior)
                  && JS.lt (elevation (to segment)) (system_elevation behavior)
          then
            match (if regionWaypointsXYEqual (from segment) (to segment)
                   then Some (withElevation (from segment) (system_elevation behavior))
                   else system_plateauSegmentIntersection behavior (from segment) (to segment))
            with
            | Some ix =>
                if regionWaypointsEqual ix (from segment) || regionWaypointsEqual ix (to segment)
                then ([Some segment], [], entered)
                else ([Some {| type := MOVE; from := from segment; to := ix |}],
                      [Some {| type := MOVE; from := ix; to := to segment |}], entered)
            | None => ([Some segment], [], entered)
            end
          else ([Some segment], [], entered)
      | EXIT =>
          if negb (system_reset behavior) then ([Some segment], [], false)
          else if negb (freefall
                        || (entered
                            && negb (JS.strictEq (system_elevation behavior)
                                                 (elevation (from segment)))))
          then ([Some segment], [], false)
          else (exitToFloor done segment terrainFloor, [], false)
      end
  end.

Fixpoint scan (fuel : nat) (done todo : list Entry) (entered : bool)
    : option (list Entry * bool) :=
  match todo with
  | [] => Some (done, entered)
  | cur :: rest =>
      match fuel with
      | O => None
      | S fuel' =>
          let '(out, again, entered') := emit done cur entered in
          scan fuel' (done ++ out) (again ++ rest) entered'
      end
  end.
End View.
End PlateauView.

Module StairsView.
Section View.
Variables (behavior : Behavior) (terrainFloor : Q).

(** [entered], [up] and [targetElevation]. *)
Definition Vars : Type := bool * bool * Q.

Definition emit (done : list Entry) (cur : Entry) (vars : Vars) : list Entry * Vars :=
  let '(entered, up, targetElevation) := vars in
  match cur with
  | None => ([None], vars)
  | Some segment =>
      match type segment with
      | ENTER =>
          let up' := JS.le (elevation (from segment)) (Stairs.midE behavior) in
          ([Some segment],
           (true, up', if up' then system_elevation behavior else system_floor behavior))
      | MOVE =>
          if negb entered then ([Some segment], vars)
          else
            let cmpFn := if up then JS.Math_max else JS.Math_min in
            ([Some (setElevations segment
                      (cmpFn targetElevation (elevation (from segment)))
                      (cmpFn targetElevation (elevation (to segment))))], vars)
      | EXIT =>
          if negb (entered
                   || JS.strictEq (system_elevation behavior) (elevation (from segment))
                   || JS.strictEq (system_floor behavior) (elevation (from segment)))
          then ([Some segment], vars)
          else if negb (system_reset behavior)
          then ([Some segment], (false, up, targetElevation))
          else (exitToFloor done segment terrainFloor, (false, up, targetElevation))
      end
  end.

(** No iteration puts a segment back: the scan is a recursion on the
    entries left. *)
Fixpoint scan (done todo : list Entry) (vars : Vars) : list Entry * Vars :=
  match todo with
  | [] => (done, vars)
  | cur :: rest =>
      let '(out, vars') := emit done cur vars in
      scan (done ++ out) rest vars'
  end.
End View.
End StairsView.

(** The state of a scan whose array is cut into [done] and [todo]. *)
Definition plateauCut (done todo : list Entry) (entered : bool) : Plateau.Scan :=
  Plateau.mkScan (done ++ todo) (length done) (length (done ++ todo)) entered.

Definition stairsCut (done todo : list Entry) (vars : StairsView.Vars) : Stairs.Scan :=
  let '(entered, up, targetElevation) := vars in
  Stairs.mkScan (done ++ todo) (length done) (length (done ++ todo))
                entered up targetElevation.

(** One of the guards of the adjuster of [kind] returns early. *)
Definition guardFails (behavior : Behavior) (kind : Algorithm) : Prop :=
  behavior_type behavior <> setElevation_type
  \/ disabled behavior = true
  \/ system_algorithm behavior <> kind.

(** A behavior on which the adjuster of [kind] runs: none of its guards
    returns early. *)
Definition active (behavior : Behavior) (kind : Algorithm) : Prop :=
  behavior_type behavior = setElevation_type
  /\ disabled behavior = false
  /\ system_algorithm behavior = kind.

(** The value of [entered] after a scan of [l] by the plateau adjuster:
    every [ENTER] sets it, every [EXIT] clears it. *)
Fixpoint enteredAfter (entered : bool) (l : list Entry) : bool :=
  match l with
  | [] => entered
  | None :: l' => enteredAfter entered l'
  | Some segment :: l' =>
      enteredAfter (match type segment with
                    | ENTER => true
                    | MOVE => entered
                    | EXIT => false
                    end) l'
  end.

(** ** Sample behaviors and paths *)

Definition wp (a b c : Q) : Waypoint := mkWaypoint a b c.

(** A plateau behavior at elevation [e]; its intersection method is not
    reached by the samples. *)
Definition plateauBehavior (e : Q) (reset : bool) : Behavior :=
  mkBehavior setElevation_type false PLATEAU e 0 reset (fun _ => e) (fun _ _ => None).

Definition stairsBehavior (top floor : Q) (reset : bool) : Behavior :=
  mkBehavior setElevation_type false STAIRS top floor reset (fun _ => top) (fun _ _ => None).

(** A path on the ground that crosses a region: in, across and out. *)
Definition groundEnter : Segment := mkSegment ENTER (wp 0 0 0) (wp 1 0 0).
Definition groundMove : Segment := mkSegment MOVE (wp 1 0 0) (wp 2 0 0).
Definition groundExit : Segment := mkSegment EXIT (wp 2 0 0) (wp 3 0 0).
Definition groundPath : list Entry := [Some groundEnter; Some groundMove; Some groundExit].

(** A path that enters at elevation 10 and descends to the ground inside
    the region. *)
Definition highEnter : Segment := mkSegment ENTER (wp 0 0 10) (wp 1 0 10).
Definition descendingMove : Segment := mkSegment MOVE (wp 1 0 10) (wp 2 0 0).
Definition descendingPath : list Entry :=
  [Some highEnter; Some descendingMove; Some groundExit].

(** An entry at which [modifySegmentsForPlateau] adds no vertical move: a
    hole, a segment that is not an [ENTER] segment, or an [ENTER] segment
    whose destination is at the plateau elevation. *)
Definition enterSettled (behavior : Behavior) (entry : Entry) : Prop :=
  match entry with
  | Some segment =>
      type segment = ENTER ->
      JS.strictEq (system_elevation behavior) (elevation (to segment)) = true
  | None => True
  end.

(** ** Sample regions *)

Module Samples.
Import Geometry.
Local Open Scope R_scope.

(** The rectangle with corners [(x0, y0)] and [(x1, y1)], as a positive
    polygon. *)
Definition rectangle (x0 y0 x1 y1 : R) : Polygon :=
  mkPolygon [pt x0 y0; pt x1 y0; pt x1 y1; pt x0 y1] true.

(** Two squares of side 10, one above the other on the canvas; the center
    of the bounds of the region is [(5, 15)]. *)
Definition twoSquares : Region :=
  mkRegion [rectangle 0 0 10 10; rectangle 0 20 10 30] (pt 5 15).

(** A ramp from elevation 10 to 25 along the axis from [(0, 0)] to
    [(0, 10)], with whatever [rampStepHeight] the object carries; with
    [None] it is the handler the class builds from the flags, for any step
    size. *)
Definition steppedRamp (rampStepHeight : option R) : This :=
  mkThis (Some (mkMinMax (pt 0 0) (pt 0 10))) 10 25 rampStepHeight.

(** A ramp from 0 to 10 whose two axis points coincide. *)
Definition pointRamp : This :=
  handlerOfFlags (Some (mkMinMax (pt 5 0) (pt 5 0))) 10 0 0.

End Samples.

(** The iterations the plateau scan can spend on an entry: two on a segment
    that starts above the plateau (a [MOVE] segment there may be split
    once), one otherwise. *)
Definition iterations (behavior : Behavior) (entry : Entry) : nat :=
  match entry with
  | Some segment =>
      if JS.gt (elevation (from segment)) (system_elevation behavior) then 2 else 1
  | None => 1
  end.

Fixpoint totalIterations (behavior : Behavior) (todo : list Entry) : nat :=
  match todo with
  | [] => 0
  | entry :: rest => iterations behavior entry + totalIterations behavior rest
  end.

(** ** [segmentizeMovement] *)

(** The loop [for ( const behavior of this.document.behaviors )]: the
    three adjusters on each behavior in turn, on the same array.  The two
    halves of a split are one waypoint object in the code for later
    behaviors too, and two equal values here. *)
Fixpoint adjustForBehaviors (fuel : nat) (segments : list Entry)
    (behaviors : list Behavior) (freefall : bool) (terrainFloor : Q)
    : option (list Entry) :=
  match behaviors with
  | [] => Some segments
  | behavior :: behaviors' =>
      segments' ← adjustSegments fuel segments behavior freefall terrainFloor;
      adjustForBehaviors fuel segments' behaviors' freefall terrainFloor
  end.

(** The wrap of [Region#segmentizeMovement], on the array [segments] that
    the wrapped method returned. *)
Definition segmentizeMovement (fuel : nat) (segments : list Entry)
    (behaviors : list Behavior) (freefall : bool) (terrainFloor : Q)
    : option (list Entry) :=
  if (length segments =? 0)%nat then Some segments
  else adjustForBehaviors fuel segments behaviors freefall terrainFloor.

(** A behavior on which one of the three adjusters runs. *)
Definition adjusts (behavior : Behavior) : bool :=
  String.eqb (behavior_type behavior) setElevation_type
  && negb (disabled behavior)
  && match system_algorithm behavior with NONE => false | _ => true end.

(** ** [calculateHatchXY] *)

Record Hatch := mkHatch { hatchX : Q; hatchY : Q }.

(** [None] is the [undefined] the function falls through to. *)
Definition calculateHatchXY (direction : Q) : option Hatch :=
  (if JS.le direction 90 then
     let t0 := direction / 90 in
     Some {| hatchX := - t0; hatchY := 1 - t0 |}
   else if JS.le direction 180 then
     let t0 := (direction - 90) / 90 in
     Some {| hatchX := 1 - t0; hatchY := t0 |}
   else if JS.le direction 270 then
     let t0 := (direction - 180) / 90 in
     Some {| hatchX := t0; hatchY := t0 - 1 |}
   else if JS.le direction 360 then
     let t0 := (direction - 270) / 90 in
     Some {| hatchX := t0 - 1; hatchY := - t0 |}
   else None)%Q.

(** ** [RegionElevationHandler.pathFromSegments] *)

(** The loop [for ( const segment of segments )] on the path built so
    far.  The loop reads [segment.type] without a test, so a hole raises a
    [TypeError]: [None]. *)
Fixpoint pathLoop (segments : list Entry) (path : list Waypoint)
    : option (list Waypoint) :=
  match segments with
  | [] => Some path
  | None :: _ => None
  | Some segment :: segments' =>
      pathLoop segments'
        match type segment with
        | ENTER => path ++ [to segment]
        | MOVE => path ++ [from segment; to segment]
        | EXIT => path ++ [to segment]
        end
  end.

(** [pathFromSegments(segments, { start, end })]; [start] and [stop] are
    [None] when the option is not given. *)
Definition pathFromSegments (segments : list Entry) (start stop : option Waypoint)
    : option (list Waypoint) :=
  path ← pathLoop segments (match start with Some w => [w] | None => [] end);
  Some (match stop with Some w => path ++ [w] | None => path end).

(** ** The axis of a direction *)

Module Axis.
Import Geometry.
Local Open Scope R_scope.

(** The unit vector of the compass direction [direction] on the canvas,
    where [y] grows downwards: [0] is south, [(0, 1)], and [90] is west,
    [(-1, 0)]. *)
Definition heading (direction : Z) : R * R :=
  (- sin (toRadians (IZR direction)), cos (toRadians (IZR direction))).

(** The signed distance of [p] from [centroid] along the vector [u]. *)
Definition along (u : R * R) (centroid p : Point) : R :=
  (x p - x centroid) * u.1 + (y p - y centroid) * u.2.

(** The point of the axis through [centroid] at signed distance [t]. *)
Definition onAxis (u : R * R) (centroid : Point) (t : R) : Point :=
  pt (x centroid + t * u.1) (y centroid + t * u.2).

End Axis.
(** ** The waypoints of a path *)

(** The waypoints [pathFromSegments] pushes for one segment. *)
Definition waypointsOf (segment : Segment) : list Waypoint :=
  match type segment with
  | ENTER => [to segment]
  | MOVE => [from segment; to segment]
  | EXIT => [to segment]
  end.

(** The segments of an array without holes. *)
Fixpoint defined (segments : list Entry) : option (list Segment) :=
  match segments with
  | [] => Some []
  | None :: _ => None
  | Some segment :: segments' => cons segment <$> defined segments'
  end.

(** The directions [minMaxPolygonPointsAlongAxis] has a branch for: those
    that are not a multiple of 90, and 0, 90, 180 and 270. *)
Definition hasBranch (direction : Z) : bool :=
  negb (Z.rem direction 90 =? 0)%Z
  || (direction =? 0)%Z || (direction =? 90)%Z
  || (direction =? 180)%Z || (direction =? 270)%Z.
(** ** The scan of the ramp adjuster seen on the array cut at [i] *)

Module RampView.
Section View.
Variables (behavior : Behavior) (freefall : bool) (terrainFloor : Q).

(** One iteration on the entry [cur] after [done]: the scanned part after
    the iteration (its last entry is written when its end is the shared
    waypoint), the entries put back in front of the scan, [entered] and
    [shared]. *)
Definition emit (done : list Entry) (cur : Entry) (entered shared : bool)
    : list Entry * list Entry * bool * bool :=
  match cur with
  | None => (done ++ [None], [], entered, false)
  | Some segment =>
      match type segment with
      | ENTER =>
          let elevation' := system_plateauElevation behavior (to segment) in
          if JS.strictEq elevation' (elevation (to segment))
          then (done ++ [Some segment], [], true, false)
          else (done ++ [Some segment;
                         Some (constructVerticalMoveSegment (to segment) elevation')],
                [], true, false)
      | MOVE =>
          let currRampElevation := system_plateauElevation behavior (from segment) in
          if entered || JS.almostEqual (elevation (from segment)) currRampElevation then
            let done1 :=
              if shared then Ramp.writePrevTo done (length done) currRampElevation
              else done in
            (done1 ++ [Some {| type := type segment;
                               from := withElevation (from segment) currRampElevation;
                               to := withElevation (to segment)
                                       (system_plateauElevation behavior (to segment)) |}],
             [], entered, false)
          else if negb (freefall
                        || JS.strictEq (elevation (from segment)) (elevation (to segment)))
          then (done ++ [Some segment], [], entered, false)
          else
            match system_plateauSegmentIntersection behavior (from segment) (to segment) with
            | None => (done ++ [Some segment], [], entered, false)
            | Some ix =>
                if regionWaypointsEqual ix (from segment) || regionWaypointsEqual ix (to segment)
                then (done ++ [Some segment], [], entered, false)
                else (done ++ [Some {| type := MOVE; from := from segment; to := ix |}],
                      [Some {| type := MOVE; from := ix; to := to segment |}],
                      entered, true)
            end
      | EXIT =>
          if negb (system_reset behavior) then (done ++ [Some segment], [], false, false)
          else if negb (freefall
                        || (entered
                            && negb (JS.strictEq
                                       (system_plateauElevation behavior (from segment))
                                       (elevation (from segment)))))
          then (done ++ [Some segment], [], false, false)
          else (done ++ exitToFloor done segment terrainFloor, [], false, false)
      end
  end.

Fixpoint scan (fuel : nat) (done todo : list Entry) (entered shared : bool)
    : option (list Entry * bool * bool) :=
  match todo with
  | [] => Some (done, entered, shared)
  | cur :: rest =>
      match fuel with
      | O => None
      | S fuel' =>
          let '(done', again, entered', shared') := emit done cur entered shared in
          scan fuel' done' (again ++ rest) entered' shared'
      end
  end.
End View.
End RampView.

Definition rampCut (done todo : list Entry) (entered shared : bool) : Ramp.Scan :=
  Ramp.mkScan (done ++ todo) (length done) (length (done ++ todo)) entered shared.

(** The part of the scanned entries that no later iteration writes: all
    of them, or all but the last while its end is the shared waypoint. *)
Definition settled (done : list Entry) (shared : bool) : list Entry :=
  if shared then removelast done else done.

(** The iterations the ramp scan can spend on an entry: two on a segment
    that does not start on the ramp (a [MOVE] segment there may be split
    once), one otherwise. *)
Definition rampIterations (behavior : Behavior) (entry : Entry) : nat :=
  match entry with
  | Some segment =>
      if JS.almostEqual (elevation (from segment))
           (system_plateauElevation behavior (from segment))
      then 1 else 2
  | None => 1
  end.

Fixpoint rampTotalIterations (behavior : Behavior) (todo : list Entry) : nat :=
  match todo with
  | [] => 0
  | entry :: rest => rampIterations behavior entry + rampTotalIterations behavior rest
  end.

(** A ramp behavior whose surface is [rule]; its intersection method
    yields [ix]. *)
Definition rampBehavior (rule : Waypoint -> Q) (ix : Waypoint -> Waypoint -> option Waypoint)
    (reset : bool) : Behavior :=
  mkBehavior setElevation_type false RAMP 0 0 reset rule ix.

(** ** [RegionElevationHandler._modifySegments] *)

Module Modify.

(** The variables of the scan.  The split of a [MOVE] segment stores the
    waypoint [ix] as the [to] of the segment and as the [from] of the
    segment it inserts behind it; [shared] says that [segments[i].from] and
    [segments[i - 1].to] are that one object. *)
Record Scan := mkScan {
  segments : list Entry; i : nat; n : nat; entered : bool; shared : bool }.

Section Body.
(** [this.elevationUponEntry], for a handler on which it yields numbers,
    [this.plateauSegmentIntersection] and [Region[MODULE_ID].sceneFloor].
    The file has its own copies of [constructVerticalMoveSegment] and
    [insertVerticalMoveToTerrainFloor], word for word those of
    [Region.js]. *)
Variable elevationUponEntry : Waypoint -> Q.
Variable plateauSegmentIntersection : Waypoint -> Waypoint -> option Waypoint.
Variable terrainFloor : Q.

Definition caseENTER (st : Scan) (segment : Segment) : Scan :=
  let elevation' := elevationUponEntry (to segment) in
  if JS.strictEq elevation' (elevation (to segment))
  then mkScan (segments st) (i st) (n st) true false
  else
    let vSegment := constructVerticalMoveSegment (to segment) elevation' in
    mkScan (JS.splice (i st + 1) 0 [Some vSegment] (segments st))
           (i st + 1) (n st + 1) true false.

(** [segment.from.elevation = e], seen through the shared waypoint. *)
Definition writeFrom (st : Scan) (e : Q) : list Entry :=
  if shared st then Ramp.writePrevTo (segments st) (i st) e else segments st.

(** [None] is the [TypeError] raised by [segment.to.elevation] after a
    split at an intersection that is [null]. *)
Definition caseMOVE (st : Scan) (segment : Segment) : option Scan :=
  let elevation' := elevationUponEntry (from segment) in
  if negb (entered st)
     && negb (JS.strictEq (elevation (from segment)) elevation')
     && (JS.gt (elevation (from segment)) elevation'
         && JS.lt (elevation (to segment)) elevation')
  then
    match (if regionWaypointsXYEqual (from segment) (to segment)
           then Some (withElevation (from segment) elevation')
           else plateauSegmentIntersection (from segment) (to segment))
    with
    | None => None
    | Some ix =>
        let toElevation := elevationUponEntry ix in
        let from' := JS.Math_max toElevation (elevation (from segment)) in
        let ix' := withElevation ix (JS.Math_max toElevation (elevation ix)) in
        let segment' :=
          {| type := type segment; from := withElevation (from segment) from'; to := ix' |} in
        let fromIx := {| type := MOVE; from := ix'; to := to segment |} in
        Some (mkScan (JS.splice (i st + 1) 0 [Some fromIx]
                        (<[i st := Some segment']> (writeFrom st from')))
                     (i st) (n st + 1) true true)
    end
  else
    let entered1 := entered st || JS.strictEq (elevation (from segment)) elevation' in
    let toElevation := elevationUponEntry (to segment) in
    if entered1 then
      let from' := JS.Math_max toElevation (elevation (from segment)) in
      let segment' :=
        setElevations segment from' (JS.Math_max toElevation (elevation (to segment))) in
      Some (mkScan (<[i st := Some segment']> (writeFrom st from')) (i st) (n st) true false)
    else if JS.strictEq (elevation (to segment)) toElevation
    then Some (mkScan (segments st) (i st) (n st) true false)
    else Some (mkScan (segments st) (i st) (n st) false false).

(** [nextSegment.from.elevation = terrainFloor], when there is a
    [segments[j]]. *)
Definition floorFrom (segments : list Entry) (j : nat) : list Entry :=
  match segments !! j with
  | Some (Some nextSegment) =>
      <[j := Some {| type := type nextSegment;
                     from := withElevation (from nextSegment) terrainFloor;
                     to := to nextSegment |}]> segments
  | _ => segments
  end.

Definition caseEXIT (st : Scan) (segment : Segment) : Scan :=
  let '(segments', numAdded) :=
    insertVerticalMoveToTerrainFloor (i st) (segments st) terrainFloor in
  mkScan (floorFrom segments' (i st + numAdded + 1))
         (i st + numAdded) (n st + numAdded) false false.

Definition body (st : Scan) : option Scan :=
  match segments st !! i st with
  | Some (Some segment) =>
      match type segment with
      | ENTER => Some (caseENTER st segment)
      | MOVE => caseMOVE st segment
      | EXIT => Some (caseEXIT st segment)
      end
  | _ => Some (mkScan (segments st) (i st) (n st) (entered st) false)
  end.

Definition step (st : Scan) : option Scan :=
  st' ← body st;
  Some (mkScan (segments st') (i st' + 1) (n st') (entered st') (shared st')).

(** The loop: [None] when the bound [fuel] is reached, [Some None] when
    an iteration raises the [TypeError], [Some (Some segments)] when the
    loop ends. *)
Fixpoint loop (fuel : nat) (st : Scan) : option (option (list Entry)) :=
  if i st <? n st then
    match fuel with
    | O => None
    | S fuel' =>
        match step st with
        | None => Some None
        | Some st' => loop fuel' st'
        end
    end
  else Some (Some (segments st)).

End Body.

(** [_modifySegments(segments)], with the value of [this.isElevated]. *)
Definition _modifySegments (isElevated : bool)
    (elevationUponEntry : Waypoint -> Q)
    (plateauSegmentIntersection : Waypoint -> Waypoint -> option Waypoint)
    (terrainFloor : Q) (fuel : nat) (segments : list Entry)
    : option (option (list Entry)) :=
  if negb isElevated then Some (Some segments)
  else loop elevationUponEntry plateauSegmentIntersection terrainFloor fuel
         (mkScan segments 0 (length segments) false false).

End Modify.
(** The scan of [_modifySegments] seen on the array cut at [i]. *)
Module ModifyView.
Section View.
Variable elevationUponEntry : Waypoint -> Q.
Variable plateauSegmentIntersection : Waypoint -> Waypoint -> option Waypoint.
Variable terrainFloor : Q.

(** [nextSegment.from.elevation = terrainFloor] on the entries left. *)
Definition floorHead (todo : list Entry) : list Entry :=
  match todo with
  | Some nextSegment :: rest =>
      Some {| type := type nextSegment;
              from := withElevation (from nextSegment) terrainFloor;
              to := to nextSegment |} :: rest
  | _ => todo
  end.

(** One iteration on the entry [cur] after [done]: the scanned part after
    the iteration, the entries put back in front of the scan, [entered],
    [shared], and whether the next entry is brought to the floor; [None]
    when the iteration raises. *)
Definition emit (done : list Entry) (cur : Entry) (entered shared : bool)
    : option (list Entry * list Entry * bool * bool * bool) :=
  match cur with
  | None => Some (done ++ [None], [], entered, false, false)
  | Some segment =>
      match type segment with
      | ENTER =>
          let elevation' := elevationUponEntry (to segment) in
          if JS.strictEq elevation' (elevation (to segment))
          then Some (done ++ [Some segment], [], true, false, false)
          else Some (done ++ [Some segment;
                              Some (constructVerticalMoveSegment (to segment) elevation')],
                     [], true, false, false)
      | MOVE =>
          let elevation' := elevationUponEntry (from segment) in
          let written e :=
            if shared then Ramp.writePrevTo done (length done) e else done in
          if negb entered
             && negb (JS.strictEq (elevation (from segment)) elevation')
             && (JS.gt (elevation (from segment)) elevation'
                 && JS.lt (elevation (to segment)) elevation')
          then
            match (if regionWaypointsXYEqual (from segment) (to segment)
                   then Some (withElevation (from segment) elevation')
                   else plateauSegmentIntersection (from segment) (to segment))
            with
            | None => None
            | Some ix =>
                let toElevation := elevationUponEntry ix in
                let from' := JS.Math_max toElevation (elevation (from segment)) in
                let ix' := withElevation ix (JS.Math_max toElevation (elevation ix)) in
                Some (written from'
                        ++ [Some {| type := type segment;
                                    from := withElevation (from segment) from';
                                    to := ix' |}],
                      [Some {| type := MOVE; from := ix'; to := to segment |}],
                      true, true, false)
            end
          else
            let toElevation := elevationUponEntry (to segment) in
            if entered || JS.strictEq (elevation (from segment)) elevation' then
              let from' := JS.Math_max toElevation (elevation (from segment)) in
              Some (written from'
                      ++ [Some (setElevations segment from'
                                  (JS.Math_max toElevation (elevation (to segment))))],
                    [], true, false, false)
            else
              Some (done ++ [Some segment], [],
                    JS.strictEq (elevation (to segment)) toElevation, false, false)
      | EXIT =>
          Some (done ++ exitToFloor done segment terrainFloor, [], false, false, true)
      end
  end.

Fixpoint scan (fuel : nat) (done todo : list Entry) (entered shared : bool)
    : option (option (list Entry * bool * bool)) :=
  match todo with
  | [] => Some (Some (done, entered, shared))
  | cur :: rest =>
      match fuel with
      | O => None
      | S fuel' =>
          match emit done cur entered shared with
          | None => Some None
          | Some (done', again, entered', shared', floorNext) =>
              scan fuel' done'
                (again ++ if floorNext then floorHead rest else rest) entered' shared'
          end
      end
  end.
End View.
End ModifyView.

Definition modifyCut (done todo : list Entry) (entered shared : bool) : Modify.Scan :=
  Modify.mkScan (done ++ todo) (length done) (length (done ++ todo)) entered shared.

(** A handler for a plateau at elevation [e]. *)
Definition plateauHandler (e : Q) : Waypoint -> Q := fun _ => e.

(** ** What the adjusters do to an array *)

(** Two waypoints at one place of the canvas. *)
Definition sameXY (a b : Waypoint) : Prop := x a = x b /\ y a = y b.

(** A segment of the kind of [s] between the two places of [s]; the
    elevations may differ. *)
Definition sameCourse (s s' : Segment) : Prop :=
  type s' = type s /\ sameXY (from s) (from s') /\ sameXY (to s) (to s').

(** What the adjusters of [Region.js] leave of a segment: its course, and
    all of an [ENTER] segment. *)
Definition keptByRegion (s s' : Segment) : Prop :=
  sameCourse s s' /\ (type s = ENTER -> s' = s).

(** A [MOVE] segment that stays at one place. *)
Definition vertical (v : Segment) : Prop := type v = MOVE /\ sameXY (from v) (to v).

(** The end of the last entry of [done], when that is a segment. *)
Definition lastTo (done : list Entry) : option Waypoint :=
  match last done with
  | Some (Some prevSegment) => Some (to prevSegment)
  | _ => None
  end.

(** Two ends at one place of the canvas, or no end on either side. *)
Definition samePlace (a b : option Waypoint) : Prop :=
  match a, b with
  | Some a, Some b => sameXY a b
  | None, None => True
  | _, _ => False
  end.

(** [adjusted keep prev before after]: the array [after] is the array
    [before] in which every hole is kept, every segment is kept up to
    [keep] or, for a [MOVE] segment, cut into [MOVE] segments that lead
    from its start to its end, and the only other entries are vertical
    [MOVE] segments, each at the end of the segment before it.  [prev] is
    the end of the segment before the first entry of [after], if any. *)
Inductive adjusted (keep : Segment -> Segment -> Prop)
    : option Waypoint -> list Entry -> list Entry -> Prop :=
| adjusted_nil prev : adjusted keep prev [] []
| adjusted_hole prev before after :
    adjusted keep None before after ->
    adjusted keep prev (None :: before) (None :: after)
| adjusted_keep prev s s' before after :
    keep s s' ->
    adjusted keep (Some (to s')) before after ->
    adjusted keep prev (Some s :: before) (Some s' :: after)
| adjusted_vertical w v before after :
    vertical v -> sameXY w (from v) ->
    adjusted keep (Some (to v)) before after ->
    adjusted keep (Some w) before (Some v :: after)
| adjusted_split prev s a b before after :
    type s = MOVE -> type a = MOVE -> type b = MOVE ->
    sameXY (from s) (from a) -> sameXY (to a) (from b) -> sameXY (to s) (to b) ->
    adjusted keep (Some (to a)) (Some b :: before) after ->
    adjusted keep prev (Some s :: before) (Some a :: after).

(** While [shared] holds the last entry scanned is the first half of a
    split, a [MOVE] segment. *)
Definition sharedWithMove (done : list Entry) (shared : bool) : Prop :=
  shared = true -> exists done0 a, done = done0 ++ [Some a] /\ type a = MOVE.

(** ** The axis of a ramp *)

(** The point of the segment from [min] to [max] at the fraction [s] of
    its length. *)
Definition alongAxis (axis : Geometry.MinMax) (s : R) : Geometry.Point :=
  Geometry.pt
    (Geometry.x (Geometry.min axis)
     + s * (Geometry.x (Geometry.max axis) - Geometry.x (Geometry.min axis)))%R
    (Geometry.y (Geometry.min axis)
     + s * (Geometry.y (Geometry.max axis) - Geometry.y (Geometry.min axis)))%R.

(** ** What the adjusters take of [behavior.system] *)

(** An entry at which [modifySegmentsForRamp] adds no vertical move: a
    hole, a segment that is not an [ENTER] segment, or an [ENTER] segment
    whose destination is at the elevation of the ramp there. *)
Definition rampEnterSettled (behavior : Behavior) (entry : Entry) : Prop :=
  match entry with
  | Some segment =>
      type segment = ENTER ->
      JS.strictEq (system_plateauElevation behavior (to segment)) (elevation (to segment))
      = true
  | None => True
  end.

(** Modelled from the spec: [plateauElevation(location)] of
    [behavior.system] is the elevation of the surface of the region at a
    place; it reads the [(x, y)] of the location only. *)
Definition surfaceByPlace (behavior : Behavior) : Prop :=
  forall w e,
    system_plateauElevation behavior (withElevation w e)
    = system_plateauElevation behavior w.

(** Modelled from the spec: the point [plateauSegmentIntersection] of
    [behavior.system] returns has its elevation evaluated once more
    through the elevation of the surface at its place, so it is a point of
    the surface. *)
Definition meetsSurface (behavior : Behavior) : Prop :=
  forall a b ix,
    system_plateauSegmentIntersection behavior a b = Some ix ->
    JS.almostEqual (elevation ix) (system_plateauElevation behavior ix) = true.

(** Modelled from the spec: [plateauSegmentIntersection] of
    [behavior.system] is the intersection of the segment with the surface;
    for a segment that ends on the surface it is one of the two ends, if
    any. *)
Definition meetsAtEnd (behavior : Behavior) : Prop :=
  forall a b,
    elevation b = system_plateauElevation behavior b ->
    match system_plateauSegmentIntersection behavior a b with
    | Some ix => regionWaypointsEqual ix a || regionWaypointsEqual ix b = true
    | None => True
    end.

(** ** A sample ramp *)

(** The point where the segment from [a] to [b] crosses the surface that
    rises with [x], at elevation [x]; its elevation is that of the surface
    at its place. *)
Definition crossSlope (a b : Waypoint) : option Waypoint :=
  let rise := ((elevation b - elevation a) - (x b - x a))%Q in
  if Qeq_bool rise 0 then None
  else
    let t := ((x a - elevation a) / rise)%Q in
    if Qle_bool 0 t && Qle_bool t 1 then
      let x' := (x a + t * (x b - x a))%Q in
      Some {| x := x'; y := (y a + t * (y b - y a))%Q; elevation := x' |}
    else None.

(** The ramp with that surface, without reset. *)
Definition slope : Behavior := rampBehavior (fun w => x w) crossSlope false.

(** The middle of the segment from [a] to [b], in place and in
    elevation. *)
Definition halfway (a b : Waypoint) : Waypoint :=
  {| x := ((x a + x b) / 2)%Q; y := ((y a + y b) / 2)%Q;
     elevation := ((elevation a + elevation b) / 2)%Q |}.

(** * Properties *)

(** ** The guards of the three adjusters *)

Lemma type_guard behavior :
  behavior_type behavior <> setElevation_type ->
  negb (String.eqb (behavior_type behavior) setElevation_type) = true.
Proof.
  intros Hne. destruct (String.eqb_spec (behavior_type behavior) setElevation_type);
    [contradiction | reflexivity].
Qed.

Lemma guard_decides behavior kind (isKind : Algorithm -> bool) :
  (forall a, isKind a = true <-> a = kind) ->
  guardFails behavior kind ->
  negb (String.eqb (behavior_type behavior) setElevation_type)
  || disabled behavior
  || negb (isKind (system_algorithm behavior)) = true.
Proof.
  intros Hkind [Ht | [Hd | Ha]].
  - by rewrite (type_guard _ Ht).
  - by rewrite Hd, orb_true_r.
  - destruct (isKind (system_algorithm behavior)) eqn:Hk.
    + apply Hkind in Hk. contradiction.
    + by rewrite orb_true_r.
Qed.

Lemma modifySegmentsForPlateau_guard fuel segments behavior freefall terrainFloor :
  guardFails behavior PLATEAU ->
  modifySegmentsForPlateau fuel segments behavior freefall terrainFloor = Some segments.
Proof.
  intros Hg. unfold modifySegmentsForPlateau.
  rewrite (guard_decides behavior PLATEAU
             (fun a => match a with PLATEAU => true | _ => false end)); [done| |done].
  intros []; split; congruence.
Qed.

Lemma modifySegmentsForStairs_guard fuel segments behavior terrainFloor :
  guardFails behavior STAIRS ->
  modifySegmentsForStairs fuel segments behavior terrainFloor = Some segments.
Proof.
  intros Hg. unfold modifySegmentsForStairs.
  rewrite (guard_decides behavior STAIRS
             (fun a => match a with STAIRS => true | _ => false end)); [done| |done].
  intros []; split; congruence.
Qed.

Lemma modifySegmentsForRamp_guard fuel segments behavior freefall terrainFloor :
  guardFails behavior RAMP ->
  modifySegmentsForRamp fuel segments behavior freefall terrainFloor = Some segments.
Proof.
  intros Hg. unfold modifySegmentsForRamp.
  rewrite (guard_decides behavior RAMP
             (fun a => match a with RAMP => true | _ => false end)); [done| |done].
  intros []; split; congruence.
Qed.

(** C10: a behavior that is not a setElevation behavior, or is disabled, or
    whose algorithm is not the adjuster's, makes each of the three adjusters
    return its input array as it is, whatever the bound on the iterations. *)
Theorem guard_returns_input_unchanged
    (fuel : nat) (segments : list Entry) (behavior : Behavior)
    (freefall : bool) (terrainFloor : Q) :
  (guardFails behavior PLATEAU ->
     modifySegmentsForPlateau fuel segments behavior freefall terrainFloor = Some segments)
  /\ (guardFails behavior STAIRS ->
     modifySegmentsForStairs fuel segments behavior terrainFloor = Some segments)
  /\ (guardFails behavior RAMP ->
     modifySegmentsForRamp fuel segments behavior freefall terrainFloor = Some segments).
Proof.
  split; [|split].
  - apply modifySegmentsForPlateau_guard.
  - apply modifySegmentsForStairs_guard.
  - apply modifySegmentsForRamp_guard.
Qed.

(** ** The array cut at the index of the scan *)

Section Cut.
Context {A : Type}.
Implicit Types (done rest items : list A) (cur : A).

Lemma lookup_cut done cur rest : (done ++ cur :: rest) !! length done = Some cur.
Proof. by apply list_lookup_middle. Qed.

Lemma insert_cut done cur cur' rest :
  <[length done := cur']> (done ++ cur :: rest) = done ++ cur' :: rest.
Proof.
  rewrite insert_app_r_alt by lia. by rewrite Nat.sub_diag.
Qed.

Lemma splice_cut_after done cur items rest :
  JS.splice (length done + 1) 0 items (done ++ cur :: rest)
  = done ++ cur :: items ++ rest.
Proof.
  unfold JS.splice.
  replace (done ++ cur :: rest) with ((done ++ [cur]) ++ rest)
    by (by rewrite <- app_assoc).
  rewrite Nat.add_0_r.
  rewrite take_app_length' by (rewrite length_app; simpl; lia).
  rewrite drop_app_length' by (rewrite length_app; simpl; lia).
  by rewrite <- app_assoc.
Qed.

Lemma splice_cut_replace done cur items rest :
  JS.splice (length done) 1 items (done ++ cur :: rest) = done ++ items ++ rest.
Proof.
  unfold JS.splice. rewrite take_app_length.
  replace (done ++ cur :: rest) with ((done ++ [cur]) ++ rest)
    by (by rewrite <- app_assoc).
  by rewrite drop_app_length' by (rewrite length_app; simpl; lia).
Qed.

Lemma splice_cut_before done cur items rest :
  JS.splice (length done) 0 items (done ++ cur :: rest)
  = done ++ items ++ cur :: rest.
Proof.
  unfold JS.splice. rewrite take_app_length, Nat.add_0_r.
  by rewrite drop_app_length.
Qed.
End Cut.

Lemma exitToFloor_length done segment floor :
  length (exitToFloor done segment floor) = 1 \/ length (exitToFloor done segment floor) = 2.
Proof. unfold exitToFloor. destruct (negb _); simpl; auto. Qed.

Lemma insertVerticalMoveToTerrainFloor_cut done segment rest floor :
  insertVerticalMoveToTerrainFloor (length done) (done ++ Some segment :: rest) floor
  = (done ++ exitToFloor done segment floor ++ rest,
     length (exitToFloor done segment floor) - 1).
Proof.
  unfold insertVerticalMoveToTerrainFloor, exitToFloor.
  rewrite lookup_cut, insert_cut.
  destruct done as [|d done' _] using rev_ind.
  - simpl. destruct (negb _); reflexivity.
  - rewrite last_snoc.
    replace (length (done' ++ [d])) with (S (length done'))
      by (rewrite length_app; simpl; lia).
    rewrite <- !app_assoc. simpl. rewrite lookup_cut.
    destruct (negb _); [|reflexivity].
    f_equal.
    replace (S (length done')) with (length (done' ++ [d]))
      by (rewrite length_app; simpl; lia).
    replace (done' ++ d :: Some (setElevations segment floor floor) :: rest)
      with ((done' ++ [d]) ++ Some (setElevations segment floor floor) :: rest)
      by (by rewrite <- app_assoc).
    rewrite splice_cut_before. by rewrite <- app_assoc.
Qed.
Module PlateauFacts.
Section Facts.
Variables (behavior : Behavior) (freefall : bool) (terrainFloor : Q).

Ltac cut_solve :=
  unfold plateauCut; f_equal;
  rewrite <- ?app_assoc, ?length_app; simpl; rewrite ?length_app; simpl;
  solve [reflexivity | lia].

Lemma step_cut done cur rest entered :
  Plateau.step behavior freefall terrainFloor (plateauCut done (cur :: rest) entered)
  = let '(out, again, entered') :=
      PlateauView.emit behavior freefall terrainFloor done cur entered in
    plateauCut (done ++ out) (again ++ rest) entered'.
Proof.
  unfold Plateau.step, Plateau.body, plateauCut at 1. simpl.
  rewrite lookup_cut.
  destruct cur as [segment|]; simpl; [|cut_solve].
  destruct (type segment) eqn:Htype; simpl.
  - unfold Plateau.caseENTER. simpl.
    destruct (JS.strictEq _ _); simpl; [cut_solve|].
    rewrite splice_cut_after. cut_solve.
  - unfold Plateau.caseMOVE. simpl.
    destruct entered; simpl.
    + rewrite insert_cut. cut_solve.
    + destruct (freefall && _ && _); simpl; [|cut_solve].
      destruct (if regionWaypointsXYEqual _ _ then _ else _) as [ix|]; simpl;
        [|cut_solve].
      destruct (_ || _); simpl; [cut_solve|].
      rewrite splice_cut_replace. cut_solve.
  - unfold Plateau.caseEXIT. simpl.
    destruct (negb (system_reset behavior)); simpl; [cut_solve|].
    destruct (negb (freefall || _)); simpl; [cut_solve|].
    rewrite insertVerticalMoveToTerrainFloor_cut.
    destruct (exitToFloor_length done segment terrainFloor) as [Hl | Hl];
      unfold plateauCut; f_equal; rewrite <- ?app_assoc, ?length_app, ?Hl;
      simpl; try reflexivity; lia.
Qed.

(** The loop of [modifySegmentsForPlateau] and the scan on the cut
    array compute the same array, with the same bound. *)
Lemma loop_scan fuel done todo entered :
  Plateau.loop behavior freefall terrainFloor fuel (plateauCut done todo entered)
  = fst <$> PlateauView.scan behavior freefall terrainFloor fuel done todo entered.
Proof.
  assert (Hend : forall fuel done entered,
            Plateau.loop behavior freefall terrainFloor fuel (plateauCut done [] entered)
            = Some (done ++ [])).
  { intros [|f] d e; unfold plateauCut; simpl;
      rewrite app_nil_r, Nat.ltb_irrefl; reflexivity. }
  assert (Hlt : forall (done : list Entry) cur rest,
            (length done <? length (done ++ cur :: rest)) = true).
  { intros d c r. apply Nat.ltb_lt. rewrite length_app. simpl. lia. }
  revert done todo entered. induction fuel as [|fuel IH]; intros done todo entered;
    destruct todo as [|cur rest]; try (rewrite Hend, app_nil_r; reflexivity).
  - unfold plateauCut. simpl. by rewrite Hlt.
  - change (Plateau.loop behavior freefall terrainFloor (S fuel)
              (plateauCut done (cur :: rest) entered))
      with (if length done <? length (done ++ cur :: rest)
            then Plateau.loop behavior freefall terrainFloor fuel
                   (Plateau.step behavior freefall terrainFloor
                      (plateauCut done (cur :: rest) entered))
            else Some (done ++ cur :: rest)).
    rewrite Hlt, step_cut. simpl.
    destruct (PlateauView.emit _ _ _ done cur entered) as [[out again] entered'].
    apply IH.
Qed.

End Facts.
End PlateauFacts.
Lemma active_guard behavior kind :
  active behavior kind ->
  negb (String.eqb (behavior_type behavior) setElevation_type) || disabled behavior = false
  /\ system_algorithm behavior = kind.
Proof.
  intros (Ht & Hd & Ha). split; [|exact Ha].
  rewrite Ht, String.eqb_refl, Hd. reflexivity.
Qed.

Module PlateauScan.
Section Facts.
Variables (behavior : Behavior) (freefall : bool) (terrainFloor : Q).
Abbreviation scan := (PlateauView.scan behavior freefall terrainFloor).
Abbreviation emit := (PlateauView.emit behavior freefall terrainFloor).

Lemma modifySegmentsForPlateau_scan fuel segments :
  active behavior PLATEAU ->
  modifySegmentsForPlateau fuel segments behavior freefall terrainFloor
  = fst <$> scan fuel [] segments false.
Proof.
  intros [Hg Ha]%active_guard. unfold modifySegmentsForPlateau.
  rewrite Hg, Ha. simpl.
  apply (PlateauFacts.loop_scan behavior freefall terrainFloor fuel [] segments false).
Qed.

Lemma loop_of_scan fuel done todo entered out entered' :
  scan fuel done todo entered = Some (out, entered') ->
  Plateau.loop behavior freefall terrainFloor fuel (plateauCut done todo entered)
  = Some out.
Proof.
  intros Hs. rewrite PlateauFacts.loop_scan.
  destruct (scan fuel done todo entered) as [[o e]|]; [|discriminate].
  injection Hs as -> ->. reflexivity.
Qed.

Lemma scan_fuel_mono fuel fuel' done todo entered r :
  scan fuel done todo entered = Some r -> fuel <= fuel' ->
  scan fuel' done todo entered = Some r.
Proof.
  revert fuel' done todo entered.
  induction fuel as [|fuel IH]; intros fuel' done todo entered Hs Hle;
    destruct todo as [|cur rest]; simpl in Hs; try discriminate.
  - destruct fuel'; exact Hs.
  - destruct fuel'; exact Hs.
  - destruct fuel' as [|fuel']; [lia|]. simpl.
    destruct (emit done cur entered) as [[out again] entered'].
    apply IH; [exact Hs | lia].
Qed.

(** The scanned part is never touched again. *)
Lemma scan_prefix fuel done todo entered out entered' :
  scan fuel done todo entered = Some (out, entered') ->
  exists tail, out = done ++ tail.
Proof.
  revert done todo entered.
  induction fuel as [|fuel IH]; intros done todo entered Hs;
    destruct todo as [|cur rest]; simpl in Hs; try discriminate.
  - exists []. rewrite app_nil_r. congruence.
  - exists []. rewrite app_nil_r. congruence.
  - destruct (emit done cur entered) as [[o again] e1].
    destruct (IH _ _ _ Hs) as [tail ->].
    exists (o ++ tail). by rewrite app_assoc.
Qed.

(** A scan of [todo1 ++ todo2] is a scan of [todo1] followed by a scan
    of [todo2]. *)
Lemma scan_app fuel done todo1 todo2 entered r :
  scan fuel done (todo1 ++ todo2) entered = Some r ->
  exists done1 entered1,
    scan fuel done todo1 entered = Some (done1, entered1)
    /\ scan fuel done1 todo2 entered1 = Some r.
Proof.
  revert done todo1 entered.
  induction fuel as [|fuel IH]; intros done todo1 entered Hs.
  - destruct todo1 as [|cur rest]; simpl in *.
    + exists done, entered. split; [reflexivity | exact Hs].
    + discriminate.
  - destruct todo1 as [|cur rest].
    + exists done, entered. split; [reflexivity | exact Hs].
    + simpl in Hs.
      destruct (emit done cur entered) as [[o again] e1] eqn:Hemit.
      rewrite app_assoc in Hs.
      destruct (IH _ _ _ Hs) as (done1 & entered1 & H1 & H2).
      exists done1, entered1. split.
      * simpl. rewrite Hemit. exact H1.
      * apply (scan_fuel_mono fuel); [exact H2 | lia].
Qed.
Lemma scan_total_no_freefall todo :
  freefall = false ->
  forall fuel done entered, length todo <= fuel ->
  is_Some (scan fuel done todo entered).
Proof.
  intros Hff. induction todo as [|cur rest IH]; intros fuel done entered Hle.
  - destruct fuel; simpl; eauto.
  - destruct fuel as [|fuel]; [simpl in Hle; lia|]. simpl.
    assert (Hagain : (emit done cur entered).1.2 = []).
    { unfold PlateauView.emit. rewrite Hff.
      destruct cur as [segment|]; [|reflexivity].
      destruct (type segment); simpl.
      - destruct (JS.strictEq _ _); reflexivity.
      - destruct entered; reflexivity.
      - destruct (negb (system_reset behavior)); [reflexivity|].
        destruct (negb _); reflexivity. }
    destruct (emit done cur entered) as [[out again] entered'].
    simpl in Hagain. subst again. simpl.
    apply IH. simpl in Hle. lia.
Qed.

(** The scan started at an [ENTER] segment, after any scanned part. *)
Lemma scan_enter fuel done segment rest entered r :
  type segment = ENTER ->
  scan fuel done (Some segment :: rest) entered = Some r ->
  scan fuel
    (done ++ Some segment ::
       (if JS.strictEq (system_elevation behavior) (elevation (to segment))
        then []
        else [Some (constructVerticalMoveSegment (to segment)
                      (system_elevation behavior))]))
    rest true = Some r.
Proof.
  intros Htype Hs. destruct fuel as [|fuel]; [discriminate|].
  apply (scan_fuel_mono fuel); [|lia].
  simpl in Hs. rewrite Htype in Hs.
  destruct (JS.strictEq _ _); exact Hs.
Qed.
End Facts.
End PlateauScan.

(** ** Entering a plateau *)

(** C6: in a path that enters a plateau region (an [ENTER] segment at any
    place of the array), a destination below the plateau elevation gets
    exactly one vertical [MOVE] segment right after the [ENTER] segment,
    with the coordinates of the destination, from its elevation to the
    plateau elevation; a destination at the plateau elevation gets none.
    The entries before are adjusted as they are on their own, and the scan
    goes on behind the new segment with [entered] set.  Without freefall
    the adjuster returns within as many iterations as the array is long. *)
Theorem plateau_enter_one_vertical_move
    (behavior : Behavior) (freefall : bool) (terrainFloor : Q) (fuel : nat)
    (pre post : list Entry) (segment : Segment) :
  active behavior PLATEAU ->
  type segment = ENTER ->
  let vSegment :=
    {| type := MOVE;
       from := {| x := x (to segment); y := y (to segment);
                  elevation := elevation (to segment) |};
       to := {| x := x (to segment); y := y (to segment);
                elevation := system_elevation behavior |} |} in
  let added :=
    if JS.strictEq (system_elevation behavior) (elevation (to segment))
    then [] else [Some vSegment] in
  (JS.lt (elevation (to segment)) (system_elevation behavior) = true ->
   added = [Some vSegment])
  /\ (JS.strictEq (system_elevation behavior) (elevation (to segment)) = true ->
      added = [])
  /\ (freefall = false -> length (pre ++ Some segment :: post) <= fuel ->
      is_Some (modifySegmentsForPlateau fuel (pre ++ Some segment :: post)
                 behavior freefall terrainFloor))
  /\ forall out,
       modifySegmentsForPlateau fuel (pre ++ Some segment :: post)
         behavior freefall terrainFloor = Some out ->
       exists pre' post',
         modifySegmentsForPlateau fuel pre behavior freefall terrainFloor = Some pre'
         /\ out = pre' ++ Some segment :: added ++ post'
         /\ Plateau.loop behavior freefall terrainFloor fuel
              (Plateau.mkScan (pre' ++ Some segment :: added ++ post)
                 (length pre' + 1 + length added)
                 (length (pre' ++ Some segment :: added ++ post))
                 true)
            = Some out.
Proof.
  intros Hact Htype vSegment added. repeat split.
  - unfold added, JS.lt, JS.strictEq. intros Hlt.
    destruct (Qeq_bool _ _) eqn:Heq; [|reflexivity].
    apply Qeq_bool_eq in Heq. rewrite <- Heq in Hlt.
    rewrite (proj2 (Qle_bool_iff _ _)) in Hlt by apply Qle_refl. discriminate.
  - unfold added. intros ->. reflexivity.
  - intros Hff Hle.
    rewrite PlateauScan.modifySegmentsForPlateau_scan by exact Hact.
    destruct (PlateauScan.scan_total_no_freefall behavior freefall terrainFloor
                (pre ++ Some segment :: post) Hff fuel [] false Hle) as [r ->].
    simpl. eauto.
  - intros out Hrun.
    rewrite PlateauScan.modifySegmentsForPlateau_scan in Hrun by exact Hact.
    destruct (PlateauView.scan _ _ _ fuel [] _ false) as [[out0 e0]|] eqn:Hscan;
      [|discriminate].
    simpl in Hrun. injection Hrun as ->.
    destruct (PlateauScan.scan_app _ _ _ _ _ _ _ _ _ Hscan) as (pre' & e1 & Hpre & Hrest).
    apply PlateauScan.scan_enter in Hrest; [|exact Htype].
    change (if JS.strictEq (system_elevation behavior) (elevation (to segment))
            then []
            else [Some (constructVerticalMoveSegment (to segment)
                          (system_elevation behavior))])
      with added in Hrest.
    clearbody added.
    destruct (PlateauScan.scan_prefix _ _ _ _ _ _ _ _ _ Hrest) as [post' Hout].
    exists pre', post'. repeat split.
    + rewrite PlateauScan.modifySegmentsForPlateau_scan by exact Hact.
      by rewrite Hpre.
    + rewrite Hout, <- app_assoc. reflexivity.
    + etrans; [|exact (PlateauScan.loop_of_scan _ _ _ _ _ _ _ _ _ Hrest)].
      f_equal. unfold plateauCut.
      f_equal; rewrite <- ?app_assoc, ?length_app; simpl; rewrite ?length_app;
        try done; unfold Entry in *; lia.
Qed.
Lemma plateau_enter_one_vertical_move_witness :
  active (plateauBehavior 10 false) PLATEAU
  /\ type groundEnter = ENTER
  /\ exists pre' post',
       modifySegmentsForPlateau 3 [] (plateauBehavior 10 false) false 0 = Some pre'
       /\ [Some groundEnter;
           Some (mkSegment MOVE (wp 1 0 0) (wp 1 0 10));
           Some (mkSegment MOVE (wp 1 0 10) (wp 2 0 10));
           Some groundExit]
          = pre' ++ Some groundEnter :: [Some (mkSegment MOVE (wp 1 0 0) (wp 1 0 10))] ++ post'.
Proof.
  assert (Hact : active (plateauBehavior 10 false) PLATEAU) by (repeat split).
  split; [exact Hact|]. split; [reflexivity|].
  destruct (plateau_enter_one_vertical_move (plateauBehavior 10 false) false 0 3
              [] [Some groundMove; Some groundExit] groundEnter Hact eq_refl)
    as (_ & _ & _ & Hout).
  destruct (Hout _ eq_refl) as (pre' & post' & Hpre & Heq & _).
  exists pre', post'. split; [exact Hpre | exact Heq].
Defined.
(** ** Leaving a plateau with reset *)

Section PlateauExit.
Variables (behavior : Behavior) (freefall : bool) (terrainFloor : Q).

Lemma plateau_scan_entered fuel done todo entered out entered' :
  PlateauView.scan behavior freefall terrainFloor fuel done todo entered
    = Some (out, entered') ->
  entered' = enteredAfter entered todo.
Proof.
  revert done todo entered.
  induction fuel as [|fuel IH]; intros done todo entered Hs;
    destruct todo as [|cur rest]; simpl in Hs; try discriminate;
    try (injection Hs as _ <-; reflexivity).
  destruct (PlateauView.emit behavior freefall terrainFloor done cur entered)
    as [[o again] e1] eqn:Hemit.
  apply IH in Hs. rewrite Hs. clear Hs IH.
  unfold PlateauView.emit in Hemit.
  destruct cur as [segment|]; simpl.
  2: { injection Hemit as <- <- <-. reflexivity. }
  destruct (type segment) eqn:Htype.
  - destruct (JS.strictEq _ _); injection Hemit as <- <- <-; reflexivity.
  - destruct entered.
    + injection Hemit as <- <- <-. reflexivity.
    + destruct (freefall && _ && _).
      2: { injection Hemit as <- <- <-. reflexivity. }
      destruct (if regionWaypointsXYEqual _ _ then _ else _) as [ix|].
      2: { injection Hemit as <- <- <-. reflexivity. }
      destruct (_ || _); injection Hemit as <- <- <-; reflexivity.
  - destruct (negb (system_reset behavior)).
    { injection Hemit as <- <- <-. reflexivity. }
    destruct (negb _); injection Hemit as <- <- <-; reflexivity.
Qed.

Lemma plateau_scan_exit fuel done segment rest entered r :
  type segment = EXIT ->
  system_reset behavior = true ->
  freefall = true
  \/ (entered = true
      /\ JS.strictEq (system_elevation behavior) (elevation (from segment)) = false) ->
  PlateauView.scan behavior freefall terrainFloor fuel done (Some segment :: rest) entered
    = Some r ->
  PlateauView.scan behavior freefall terrainFloor fuel
    (done ++ exitToFloor done segment terrainFloor) rest false = Some r.
Proof.
  intros Htype Hreset Hcond Hs. destruct fuel as [|fuel]; [discriminate|].
  apply (PlateauScan.scan_fuel_mono _ _ _ fuel); [|lia].
  simpl in Hs. rewrite Htype, Hreset in Hs. simpl in Hs.
  assert (Hc : negb (freefall
                     || entered
                        && negb (JS.strictEq (system_elevation behavior)
                                   (elevation (from segment)))) = false).
  { destruct Hcond as [-> | [-> ->]]; [reflexivity|]. by rewrite orb_true_r. }
  rewrite Hc in Hs. exact Hs.
Qed.
End PlateauExit.

Lemma exitToFloor_spec done segment floor :
  exitToFloor done segment floor
  = match last done with
    | Some (Some prevSegment) =>
        if JS.strictEq (elevation (to prevSegment)) floor then []
        else [Some {| type := MOVE;
                      from := {| x := x (to prevSegment); y := y (to prevSegment);
                                 elevation := elevation (to prevSegment) |};
                      to := {| x := x (to prevSegment); y := y (to prevSegment);
                               elevation := floor |} |}]
    | _ => []
    end
    ++ [Some {| type := type segment;
                from := {| x := x (from segment); y := y (from segment);
                           elevation := floor |};
                to := {| x := x (to segment); y := y (to segment);
                         elevation := floor |} |}].
Proof.
  unfold exitToFloor, setElevations, withElevation, constructVerticalMoveSegment.
  destruct (last done) as [[prevSegment|]|]; simpl.
  - destruct (JS.strictEq (elevation (to prevSegment)) floor); reflexivity.
  - unfold JS.strictEq. rewrite Qeq_bool_refl. reflexivity.
  - unfold JS.strictEq. rewrite Qeq_bool_refl. reflexivity.
Qed.

(** C3, as the code has it: with [reset] set, an [EXIT] segment reached
    while [entered] holds and whose own start is not at the plateau
    elevation (or reached under freefall) has both its elevations set to the
    terrain floor, and at most one vertical [MOVE] segment is added, right
    before it: none when the entry before it is missing or already ends at
    the floor, otherwise one, from the end of that segment down to the
    floor.  The scan goes on behind the [EXIT] segment with [entered]
    cleared. *)
Theorem plateau_exit_reset_to_floor
    (behavior : Behavior) (freefall : bool) (terrainFloor : Q) (fuel : nat)
    (pre post : list Entry) (segment : Segment) :
  active behavior PLATEAU ->
  system_reset behavior = true ->
  type segment = EXIT ->
  freefall = true
  \/ (enteredAfter false pre = true
      /\ JS.strictEq (system_elevation behavior) (elevation (from segment)) = false) ->
  (freefall = false -> length (pre ++ Some segment :: post) <= fuel ->
   is_Some (modifySegmentsForPlateau fuel (pre ++ Some segment :: post)
              behavior freefall terrainFloor))
  /\ forall out,
       modifySegmentsForPlateau fuel (pre ++ Some segment :: post)
         behavior freefall terrainFloor = Some out ->
       exists pre' post',
         let atFloor :=
           {| type := type segment;
              from := {| x := x (from segment); y := y (from segment);
                         elevation := terrainFloor |};
              to := {| x := x (to segment); y := y (to segment);
                       elevation := terrainFloor |} |} in
         let added :=
           match last pre' with
           | Some (Some prevSegment) =>
               if JS.strictEq (elevation (to prevSegment)) terrainFloor then []
               else [Some {| type := MOVE;
                             from := {| x := x (to prevSegment); y := y (to prevSegment);
                                        elevation := elevation (to prevSegment) |};
                             to := {| x := x (to prevSegment); y := y (to prevSegment);
                                      elevation := terrainFloor |} |}]
           | _ => []
           end in
         modifySegmentsForPlateau fuel pre behavior freefall terrainFloor = Some pre'
         /\ out = pre' ++ added ++ Some atFloor :: post'
         /\ Plateau.loop behavior freefall terrainFloor fuel
              (Plateau.mkScan (pre' ++ added ++ Some atFloor :: post)
                 (length pre' + length added + 1)
                 (length (pre' ++ added ++ Some atFloor :: post))
                 false)
            = Some out.
Proof.
  intros Hact Hreset Htype Hcond. split.
  - intros Hff Hle.
    rewrite PlateauScan.modifySegmentsForPlateau_scan by exact Hact.
    destruct (PlateauScan.scan_total_no_freefall behavior freefall terrainFloor
                (pre ++ Some segment :: post) Hff fuel [] false Hle) as [r ->].
    simpl. eauto.
  - intros out Hrun.
    rewrite PlateauScan.modifySegmentsForPlateau_scan in Hrun by exact Hact.
    destruct (PlateauView.scan _ _ _ fuel [] _ false) as [[out0 e0]|] eqn:Hscan;
      [|discriminate].
    simpl in Hrun. injection Hrun as ->.
    destruct (PlateauScan.scan_app _ _ _ _ _ _ _ _ _ Hscan) as (pre' & e1 & Hpre & Hrest).
    pose proof (plateau_scan_entered _ _ _ _ _ _ _ _ _ Hpre) as He1.
    apply plateau_scan_exit in Hrest; [|exact Htype|exact Hreset|].
    2: { destruct Hcond as [Hff | [Hent Hne]]; [left; exact Hff|].
         right. split; [congruence | exact Hne]. }
    destruct (PlateauScan.scan_prefix _ _ _ _ _ _ _ _ _ Hrest) as [post' Hout].
    exists pre', post'. intros atFloor added.
    assert (Hexit : exitToFloor pre' segment terrainFloor = added ++ [Some atFloor])
      by apply exitToFloor_spec.
    rewrite Hexit in Hrest, Hout. clearbody added atFloor.
    repeat split.
    + rewrite PlateauScan.modifySegmentsForPlateau_scan by exact Hact.
      by rewrite Hpre.
    + rewrite Hout, <- !app_assoc. reflexivity.
    + etrans; [|exact (PlateauScan.loop_of_scan _ _ _ _ _ _ _ _ _ Hrest)].
      f_equal. unfold plateauCut.
      f_equal; rewrite <- ?app_assoc, ?length_app; simpl; rewrite ?length_app;
        try done; unfold Entry in *; simpl; lia.
Qed.

Lemma plateau_exit_reset_to_floor_witness :
  active (plateauBehavior 10 true) PLATEAU
  /\ system_reset (plateauBehavior 10 true) = true
  /\ type groundExit = EXIT
  /\ (enteredAfter false [Some groundEnter; Some groundMove] = true
      /\ JS.strictEq (system_elevation (plateauBehavior 10 true))
           (elevation (from groundExit)) = false)
  /\ exists pre' post',
       modifySegmentsForPlateau 3 [Some groundEnter; Some groundMove]
         (plateauBehavior 10 true) false 0 = Some pre'
       /\ [Some groundEnter;
           Some (mkSegment MOVE (wp 1 0 0) (wp 1 0 10));
           Some (mkSegment MOVE (wp 1 0 10) (wp 2 0 10));
           Some (mkSegment MOVE (wp 2 0 10) (wp 2 0 0));
           Some (mkSegment EXIT (wp 2 0 0) (wp 3 0 0))]
          = pre' ++ [Some (mkSegment MOVE (wp 2 0 10) (wp 2 0 0))]
                 ++ Some (mkSegment EXIT (wp 2 0 0) (wp 3 0 0)) :: post'.
Proof.
  assert (Hact : active (plateauBehavior 10 true) PLATEAU) by (repeat split).
  assert (Hcond : enteredAfter false [Some groundEnter; Some groundMove] = true
                  /\ JS.strictEq (system_elevation (plateauBehavior 10 true))
                       (elevation (from groundExit)) = false)
    by (split; reflexivity).
  split; [exact Hact|]. split; [reflexivity|]. split; [reflexivity|].
  split; [exact Hcond|].
  destruct (plateau_exit_reset_to_floor (plateauBehavior 10 true) false 0 3
              [Some groundEnter; Some groundMove] [] groundExit
              Hact eq_refl eq_refl (or_intror Hcond))
    as [_ Hout].
  destruct (Hout [Some groundEnter;
                  Some (mkSegment MOVE (wp 1 0 0) (wp 1 0 10));
                  Some (mkSegment MOVE (wp 1 0 10) (wp 2 0 10));
                  Some (mkSegment MOVE (wp 2 0 10) (wp 2 0 0));
                  Some (mkSegment EXIT (wp 2 0 0) (wp 3 0 0))] eq_refl)
    as (pre' & post' & Hpre & Heq & _).
  exists pre', post'. split; [exact Hpre|].
  vm_compute in Hpre. injection Hpre as <-. exact Heq.
Defined.

(** C3 as it is stated fails: on a path that enters at the plateau
    elevation 10, descends inside the region (so that its [MOVE] segment is
    raised back onto the plateau) and leaves on the ground, the segment
    before [EXIT] ends at 10, not at the terrain floor 0, and the adjuster
    adds one vertical [MOVE] segment, not two: the array grows from three
    segments to four. *)
Lemma plateau_exit_adds_one_segment :
  modifySegmentsForPlateau 3 descendingPath (plateauBehavior 10 true) false 0
  = Some [Some highEnter;
          Some (mkSegment MOVE (wp 1 0 10) (wp 2 0 10));
          Some (mkSegment MOVE (wp 2 0 10) (wp 2 0 0));
          Some (mkSegment EXIT (wp 2 0 0) (wp 3 0 0))]
  /\ length descendingPath = 3
  /\ JS.strictEq (elevation (to (mkSegment MOVE (wp 1 0 10) (wp 2 0 10)))) 0 = false.
Proof. repeat split. Qed.

(** ** The guards, on a sample *)

Lemma guard_returns_input_unchanged_witness :
  guardFails (stairsBehavior 30 0 false) PLATEAU
  /\ modifySegmentsForPlateau 0 groundPath (stairsBehavior 30 0 false) true 0
     = Some groundPath
  /\ guardFails (plateauBehavior 10 true) STAIRS
  /\ modifySegmentsForStairs 0 groundPath (plateauBehavior 10 true) 0 = Some groundPath
  /\ guardFails (plateauBehavior 10 true) RAMP
  /\ modifySegmentsForRamp 0 groundPath (plateauBehavior 10 true) true 0 = Some groundPath.
Proof.
  assert (H1 : guardFails (stairsBehavior 30 0 false) PLATEAU)
    by (right; right; discriminate).
  assert (H2 : guardFails (plateauBehavior 10 true) STAIRS)
    by (right; right; discriminate).
  assert (H3 : guardFails (plateauBehavior 10 true) RAMP)
    by (right; right; discriminate).
  destruct (guard_returns_input_unchanged 0 groundPath (stairsBehavior 30 0 false) true 0)
    as (Hplateau & _ & _).
  destruct (guard_returns_input_unchanged 0 groundPath (plateauBehavior 10 true) true 0)
    as (_ & Hstairs & Hramp).
  exact (conj H1 (conj (Hplateau H1) (conj H2 (conj (Hstairs H2) (conj H3 (Hramp H3)))))).
Defined.
(** ** The stairs scan on the cut array *)

Section StairsFacts.
Variables (behavior : Behavior) (terrainFloor : Q).

Lemma stairs_step_cut done cur rest vars :
  Stairs.step behavior terrainFloor (stairsCut done (cur :: rest) vars)
  = let '(out, vars') := StairsView.emit behavior terrainFloor done cur vars in
    stairsCut (done ++ out) rest vars'.
Proof.
  destruct vars as [[entered up] targetElevation].
  unfold Stairs.step, Stairs.body, stairsCut at 1. simpl.
  rewrite lookup_cut.
  assert (Hcut : forall (out : list Entry) e u t,
            length out = 1 ->
            Stairs.mkScan (done ++ out ++ rest) (length done + 1)
              (length (done ++ cur :: rest)) e u t
            = stairsCut (done ++ out) rest (e, u, t)).
  { intros out e u t Hl. unfold stairsCut. f_equal;
      rewrite <- ?app_assoc, ?length_app; simpl; rewrite ?length_app, ?Hl;
      try reflexivity; lia. }
  destruct cur as [segment|]; simpl; [|by apply (Hcut [None])].
  destruct (type segment) eqn:Htype; simpl.
  - by apply (Hcut [Some segment]).
  - unfold Stairs.caseMOVE. simpl. destruct entered; simpl.
    + rewrite insert_cut. by apply (Hcut [_]).
    + by apply (Hcut [Some segment]).
  - unfold Stairs.caseEXIT. simpl.
    destruct (negb (entered || _ || _)); simpl; [by apply (Hcut [Some segment])|].
    destruct (negb (system_reset behavior)); simpl; [by apply (Hcut [Some segment])|].
    rewrite insertVerticalMoveToTerrainFloor_cut.
    destruct (exitToFloor_length done segment terrainFloor) as [Hl | Hl];
      unfold stairsCut; f_equal; rewrite <- ?app_assoc, ?length_app, ?Hl;
      simpl; try reflexivity; lia.
Qed.

(** The loop of [modifySegmentsForStairs] returns within as many
    iterations as there are entries left, with the array of the scan. *)
Lemma stairs_loop_scan fuel done todo vars :
  length todo <= fuel ->
  Stairs.loop behavior terrainFloor fuel (stairsCut done todo vars)
  = Some (StairsView.scan behavior terrainFloor done todo vars).1.
Proof.
  revert fuel done vars. induction todo as [|cur rest IH]; intros fuel done vars Hle.
  - destruct vars as [[e u] t]. unfold stairsCut.
    destruct fuel; simpl; rewrite app_nil_r, Nat.ltb_irrefl; reflexivity.
  - destruct fuel as [|fuel]; [simpl in Hle; lia|].
    assert (Hlt : (Stairs.i (stairsCut done (cur :: rest) vars)
                   <? Stairs.n (stairsCut done (cur :: rest) vars)) = true).
    { destruct vars as [[e u] t]. apply Nat.ltb_lt. simpl.
      rewrite length_app. simpl. lia. }
    simpl. rewrite Hlt, stairs_step_cut.
    destruct (StairsView.emit behavior terrainFloor done cur vars) as [out vars'].
    apply IH. simpl in Hle. lia.
Qed.

Lemma modifySegmentsForStairs_scan fuel segments :
  active behavior STAIRS ->
  length segments <= fuel ->
  modifySegmentsForStairs fuel segments behavior terrainFloor
  = Some (StairsView.scan behavior terrainFloor [] segments
            (false, true, system_elevation behavior)).1.
Proof.
  intros [Hg Ha]%active_guard Hle. unfold modifySegmentsForStairs.
  rewrite Hg, Ha. simpl.
  apply (stairs_loop_scan fuel [] segments (false, true, system_elevation behavior) Hle).
Qed.

Lemma stairs_scan_app done todo1 todo2 vars :
  StairsView.scan behavior terrainFloor done (todo1 ++ todo2) vars
  = let '(done1, vars1) := StairsView.scan behavior terrainFloor done todo1 vars in
    StairsView.scan behavior terrainFloor done1 todo2 vars1.
Proof.
  revert done vars. induction todo1 as [|cur rest IH]; intros done vars; simpl.
  - reflexivity.
  - destruct (StairsView.emit behavior terrainFloor done cur vars) as [out vars'].
    apply IH.
Qed.

Lemma stairs_scan_prefix done todo vars :
  exists tail, (StairsView.scan behavior terrainFloor done todo vars).1 = done ++ tail.
Proof.
  revert done vars. induction todo as [|cur rest IH]; intros done vars; simpl.
  - exists []. by rewrite app_nil_r.
  - destruct (StairsView.emit behavior terrainFloor done cur vars) as [out vars'].
    destruct (IH (done ++ out) vars') as [tail ->].
    exists (out ++ tail). by rewrite app_assoc.
Qed.
End StairsFacts.

(** ** Entering stairs *)

Lemma midE_whole behavior (top floor : Z) :
  system_elevation behavior = inject_Z top ->
  system_floor behavior = inject_Z floor ->
  Stairs.midE behavior = inject_Z ((top - floor + 1) / 2).
Proof.
  intros Ht Hf. unfold Stairs.midE, JS.Math_round. rewrite Ht, Hf. f_equal.
  transitivity (Qfloor ((top - floor + 1) # 2)).
  - apply Qfloor_comp. unfold Qeq, Qplus, Qminus, Qmult, Qopp, inject_Z. simpl. lia.
  - reflexivity.
Qed.

(** C2 does not hold of the code.  [midE = Math.round((elevation - floor) *
    0.5)] is half the height of the stairs, an offset from the floor, and
    the code compares with it the elevation the [ENTER] segment starts at,
    as it is: the target is the top when that elevation is at most
    [round((top - floor) / 2)], whatever the floor, and the floor
    otherwise.  For a whole-number top and floor the offset is [top - floor
    + 1] halved and rounded down.  The choice is held in the variables of
    the scan, and it shows on the [MOVE] segment that follows: both its
    elevations are raised to the top (by [Math.max]) or lowered to the
    floor (by [Math.min]). *)
Theorem stairs_enter_target_elevation
    (behavior : Behavior) (terrainFloor : Q) (fuel : nat)
    (pre post : list Entry) (enter move : Segment) (top floor : Z) :
  active behavior STAIRS ->
  system_elevation behavior = inject_Z top ->
  system_floor behavior = inject_Z floor ->
  type enter = ENTER ->
  type move = MOVE ->
  length (pre ++ Some enter :: Some move :: post) <= fuel ->
  let offset := inject_Z ((top - floor + 1) / 2) in
  let up := JS.le (elevation (from enter)) offset in
  let targetElevation := if up then inject_Z top else inject_Z floor in
  let cmpFn := if up then JS.Math_max else JS.Math_min in
  (forall st,
     Stairs.segments st !! Stairs.i st = Some (Some enter) ->
     Stairs.targetElevation (Stairs.step behavior terrainFloor st) = targetElevation
     /\ Stairs.up (Stairs.step behavior terrainFloor st) = up
     /\ Stairs.entered (Stairs.step behavior terrainFloor st) = true
     /\ Stairs.segments (Stairs.step behavior terrainFloor st) = Stairs.segments st)
  /\ exists pre' post',
       modifySegmentsForStairs fuel pre behavior terrainFloor = Some pre'
       /\ modifySegmentsForStairs fuel (pre ++ Some enter :: Some move :: post)
            behavior terrainFloor
          = Some (pre' ++ Some enter
                       :: Some (setElevations move
                                  (cmpFn targetElevation (elevation (from move)))
                                  (cmpFn targetElevation (elevation (to move))))
                       :: post').
Proof.
  intros Hact Htop Hfloor Henter Hmove Hle offset up targetElevation cmpFn.
  pose proof (midE_whole behavior top floor Htop Hfloor) as Hmid.
  fold offset in Hmid. split.
  - intros st Hst. unfold Stairs.step, Stairs.body. rewrite Hst, Henter. simpl.
    rewrite Hmid, Htop, Hfloor. repeat split.
  - rewrite !modifySegmentsForStairs_scan; try exact Hact; try exact Hle.
    2: { rewrite length_app in Hle. lia. }
    rewrite stairs_scan_app.
    destruct (StairsView.scan behavior terrainFloor [] pre _) as [pre' [[e u] t]].
    simpl. rewrite Henter. simpl. rewrite Hmove. simpl.
    rewrite Hmid, Htop, Hfloor. fold up. fold targetElevation. fold cmpFn.
    match goal with
    | |- context [StairsView.scan behavior terrainFloor ?d ?t ?v] =>
        destruct (stairs_scan_prefix behavior terrainFloor d t v) as [post' Hpost]
    end.
    exists pre', post'. split; [reflexivity|].
    rewrite Hpost, <- !app_assoc. reflexivity.
Qed.

Lemma stairs_enter_target_elevation_witness :
  (JS.le (15 - 10) (JS.Math_round ((30 - 10) * (1 # 2))) = true
   /\ exists pre' post',
        modifySegmentsForStairs 2 [] (stairsBehavior 30 10 false) 0 = Some pre'
        /\ modifySegmentsForStairs 2
             ([] ++ [Some (mkSegment ENTER (wp 0 0 15) (wp 1 0 15));
                     Some (mkSegment MOVE (wp 1 0 15) (wp 2 0 15))])
             (stairsBehavior 30 10 false) 0
           = Some (pre' ++ Some (mkSegment ENTER (wp 0 0 15) (wp 1 0 15))
                        :: Some (mkSegment MOVE (wp 1 0 10) (wp 2 0 10)) :: post'))
  /\ (exists pre' post',
        modifySegmentsForStairs 2 [] (stairsBehavior 31 0 false) 0 = Some pre'
        /\ modifySegmentsForStairs 2
             ([] ++ [Some (mkSegment ENTER (wp 0 0 16) (wp 1 0 16));
                     Some (mkSegment MOVE (wp 1 0 16) (wp 2 0 16))])
             (stairsBehavior 31 0 false) 0
           = Some (pre' ++ Some (mkSegment ENTER (wp 0 0 16) (wp 1 0 16))
                        :: Some (mkSegment MOVE (wp 1 0 31) (wp 2 0 31)) :: post')).
Proof.
  split; [split; [reflexivity|]|].
  - exact (proj2 (stairs_enter_target_elevation (stairsBehavior 30 10 false) 0 2 [] []
                    (mkSegment ENTER (wp 0 0 15) (wp 1 0 15))
                    (mkSegment MOVE (wp 1 0 15) (wp 2 0 15)) 30 10
                    ltac:(repeat split) eq_refl eq_refl eq_refl eq_refl (le_n 2))).
  - exact (proj2 (stairs_enter_target_elevation (stairsBehavior 31 0 false) 0 2 [] []
                    (mkSegment ENTER (wp 0 0 16) (wp 1 0 16))
                    (mkSegment MOVE (wp 1 0 16) (wp 2 0 16)) 31 0
                    ltac:(repeat split) eq_refl eq_refl eq_refl eq_refl (le_n 2))).
Defined.
(** ** Writing an elevation twice *)

Lemma Math_max_idem a b : JS.Math_max a (JS.Math_max a b) = JS.Math_max a b.
Proof.
  unfold JS.Math_max. destruct (Qle_bool a b) eqn:Hab.
  - by rewrite Hab.
  - by destruct (Qle_bool a a).
Qed.

Lemma Math_min_idem a b : JS.Math_min a (JS.Math_min a b) = JS.Math_min a b.
Proof.
  unfold JS.Math_min. destruct (Qle_bool a b) eqn:Hab.
  - by destruct (Qle_bool a a).
  - by rewrite Hab.
Qed.

Section StairsTwice.
Variables (behavior : Behavior) (terrainFloor : Q).
Hypothesis Hreset : system_reset behavior = false.

(** Without reset the stairs scan only moves the elevations of the [MOVE]
    segments met while [entered] holds to the target, and a second scan of
    its output changes nothing. *)
Lemma stairs_scan_twice todo :
  forall vars, exists out vars',
    length out = length todo
    /\ forall done,
         StairsView.scan behavior terrainFloor done todo vars = (done ++ out, vars')
         /\ StairsView.scan behavior terrainFloor done out vars = (done ++ out, vars').
Proof.
  induction todo as [|cur rest IH]; intros vars.
  - exists [], vars. split; [reflexivity|]. intros done. simpl. by rewrite app_nil_r.
  - assert (Hstep : exists cur' vars1,
              (forall done, StairsView.emit behavior terrainFloor done cur vars
                            = ([cur'], vars1))
              /\ (forall done, StairsView.emit behavior terrainFloor done cur' vars
                               = ([cur'], vars1))).
    { destruct vars as [[entered up] targetElevation].
      destruct cur as [segment|]; [|exists None, (entered, up, targetElevation); done].
      unfold StairsView.emit. simpl.
      destruct (type segment) eqn:Htype.
      - eexists (Some segment), _. rewrite Htype. split; reflexivity.
      - destruct entered; simpl.
        + eexists (Some (setElevations segment _ _)), _. simpl. rewrite Htype.
          split; [reflexivity|]. intros done.
          destruct up; by rewrite ?Math_max_idem, ?Math_min_idem.
        + eexists (Some segment), _. rewrite Htype. split; reflexivity.
      - rewrite Hreset. simpl.
        destruct (negb (entered || _ || _)) eqn:Hc.
        + eexists (Some segment), _. rewrite Htype, Hc. split; reflexivity.
        + eexists (Some segment), _. rewrite Htype, Hc. split; reflexivity. }
    destruct Hstep as (cur' & vars1 & Hemit & Hemit').
    destruct (IH vars1) as (out & vars' & Hlen & Hscan).
    exists (cur' :: out), vars'. split; [simpl; lia|].
    intros done. simpl. rewrite Hemit, Hemit'.
    destruct (Hscan (done ++ [cur'])) as [H1 H2].
    rewrite H1, H2, <- app_assoc. split; reflexivity.
Qed.
End StairsTwice.

Lemma active_or_guarded behavior :
  active behavior (system_algorithm behavior) \/ forall kind, guardFails behavior kind.
Proof.
  unfold active, guardFails.
  destruct (String.eqb_spec (behavior_type behavior) setElevation_type) as [Ht | Ht];
    [|right; intros; by left].
  destruct (disabled behavior); [right; intros; right; by left|].
  left. repeat split. exact Ht.
Qed.

Lemma active_other_guard behavior kind kind' :
  active behavior kind -> kind <> kind' -> guardFails behavior kind'.
Proof. intros (_ & _ & Ha) Hne. right; right. congruence. Qed.

(** ** The intersection of a vertical move *)

Lemma Math_max_spec a b :
  (a <= JS.Math_max a b)%Q /\ (b <= JS.Math_max a b)%Q
  /\ (JS.Math_max a b = a \/ JS.Math_max a b = b).
Proof.
  unfold JS.Math_max. destruct (Qle_bool a b) eqn:Hab.
  - apply Qle_bool_iff in Hab. repeat split; [exact Hab | apply Qle_refl | by right].
  - assert (Hba : (b <= a)%Q).
    { destruct (Qlt_le_dec a b) as [Hlt | Hle]; [|exact Hle].
      apply Qlt_le_weak, Qle_bool_iff in Hlt. congruence. }
    repeat split; [apply Qle_refl | exact Hba | by left].
Qed.

Lemma between_spec e a b :
  Handler.between e a b = true
  <-> ((a <= e)%Q /\ (e <= b)%Q) \/ ((b <= e)%Q /\ (e <= a)%Q).
Proof.
  unfold Handler.between, JS.le, JS.Math_min, JS.Math_max.
  rewrite andb_true_iff.
  destruct (Qle_bool a b) eqn:Hab; rewrite !Qle_bool_iff.
  - apply Qle_bool_iff in Hab. split; [by left|].
    intros [H | [H1 H2]]; [exact H|]. split.
    + apply Qle_trans with b; assumption.
    + apply Qle_trans with a; assumption.
  - assert (Hba : (b <= a)%Q).
    { destruct (Qlt_le_dec a b) as [Hlt | Hle]; [|exact Hle].
      apply Qlt_le_weak, Qle_bool_iff in Hlt. congruence. }
    split; [by right|].
    intros [[H1 H2] | H]; [|exact H]. split.
    + apply Qle_trans with a; assumption.
    + apply Qle_trans with b; assumption.
Qed.

(** C9: for two waypoints with the same [x] and [y], the intersection is
    the first waypoint moved to the elevation [e], the higher of the
    nearest ground elevations of the two waypoints, when [e] lies between
    the elevations of the two waypoints (in either order, bounds included),
    and [null] otherwise. *)
Theorem vertical_move_intersection
    (nearestGroundElevation : Waypoint -> Q)
    (planeSegmentIntersection : Waypoint -> Waypoint -> option Waypoint)
    (a b : Waypoint) :
  regionWaypointsXYEqual a b = true ->
  let e := JS.Math_max (nearestGroundElevation a) (nearestGroundElevation b) in
  ((nearestGroundElevation a <= e)%Q /\ (nearestGroundElevation b <= e)%Q
   /\ (e = nearestGroundElevation a \/ e = nearestGroundElevation b))
  /\ ((((elevation a <= e)%Q /\ (e <= elevation b)%Q)
       \/ ((elevation b <= e)%Q /\ (e <= elevation a)%Q)) ->
      Handler.plateauSegmentIntersection nearestGroundElevation planeSegmentIntersection a b
      = Some {| x := x a; y := y a; elevation := e |})
  /\ (~ (((elevation a <= e)%Q /\ (e <= elevation b)%Q)
         \/ ((elevation b <= e)%Q /\ (e <= elevation a)%Q)) ->
      Handler.plateauSegmentIntersection nearestGroundElevation planeSegmentIntersection a b
      = None).
Proof.
  intros Hxy e. split; [apply Math_max_spec|].
  unfold Handler.plateauSegmentIntersection. rewrite Hxy. fold e.
  split; intros Hb.
  - apply between_spec in Hb. rewrite Hb. reflexivity.
  - destruct (Handler.between e (elevation a) (elevation b)) eqn:Hbet; [|reflexivity].
    apply between_spec in Hbet. contradiction.
Qed.

Lemma vertical_move_intersection_witness :
  regionWaypointsXYEqual (wp 5 5 20) (wp 5 5 0) = true
  /\ Handler.plateauSegmentIntersection (fun _ => 10%Q) (fun _ _ => None)
       (wp 5 5 20) (wp 5 5 0)
     = Some (wp 5 5 10)
  /\ Handler.plateauSegmentIntersection (fun _ => 30%Q) (fun _ _ => None)
       (wp 5 5 20) (wp 5 5 0)
     = None.
Proof.
  split; [reflexivity|]. split.
  - apply (vertical_move_intersection (fun _ => 10%Q) (fun _ _ => None)
             (wp 5 5 20) (wp 5 5 0) eq_refl).
    right. split; discriminate.
  - apply (vertical_move_intersection (fun _ => 30%Q) (fun _ _ => None)
             (wp 5 5 20) (wp 5 5 0) eq_refl).
    intros [[_ H] | [_ H]]; apply H; reflexivity.
Defined.
(** ** The extremes of a region along an axis *)

Section RegionExtremes.
Import Geometry.
Local Open Scope R_scope.

Lemma dist2_gt_same p q d :
  _dist2 p = Some d -> _dist2 q = Some d -> dist2_gt p q = false.
Proof.
  intros Hp Hq. unfold dist2_gt. rewrite Hp, Hq.
  destruct (Rlt_dec d d) as [H | H]; [exfalso; lra | reflexivity].
Qed.

(** The comparison in the loop reads the distance of the current extreme on
    both sides, so no later polygon ever replaces it. *)
Lemma regionLoop_keeps polys direction center minMax out :
  _dist2 (min minMax) = Some (distanceSquaredBetween (min minMax) center) ->
  _dist2 (max minMax) = Some (distanceSquaredBetween (max minMax) center) ->
  regionLoop polys direction center minMax = Some out ->
  out = minMax.
Proof.
  intros Hmin Hmax. induction polys as [|poly polys IH]; simpl.
  - congruence.
  - destruct (minMaxPolygonPointsAlongAxis (points poly) direction center) as [res|];
      [|discriminate].
    rewrite (dist2_gt_same _ (min minMax) (distanceSquaredBetween (min minMax) center));
      [|reflexivity|exact Hmin].
    rewrite (dist2_gt_same _ (max minMax) (distanceSquaredBetween (max minMax) center));
      [|reflexivity|exact Hmax].
    exact IH.
Qed.

Lemma getBounds_rectangle x0 y0 x1 y1 :
  x0 <= x1 -> y0 <= y1 ->
  getBounds (points (Samples.rectangle x0 y0 x1 y1)) = mkBounds x0 y0 x1 y1.
Proof.
  intros Hx Hy. unfold getBounds, Samples.rectangle. simpl.
  f_equal; unfold Rmin, Rmax; repeat destruct (Rle_dec _ _); lra.
Qed.

Lemma regionLoop_total polys direction center minMax :
  _dist2 (min minMax) = Some (distanceSquaredBetween (min minMax) center) ->
  _dist2 (max minMax) = Some (distanceSquaredBetween (max minMax) center) ->
  Forall (fun poly => is_Some (minMaxPolygonPointsAlongAxis (points poly) direction center))
         polys ->
  regionLoop polys direction center minMax = Some minMax.
Proof.
  intros Hmin Hmax Hall. induction Hall as [|poly polys [res Hres] _ IH]; simpl.
  - reflexivity.
  - rewrite Hres.
    rewrite (dist2_gt_same _ (min minMax) (distanceSquaredBetween (min minMax) center));
      [|reflexivity|exact Hmin].
    rewrite (dist2_gt_same _ (max minMax) (distanceSquaredBetween (max minMax) center));
      [|reflexivity|exact Hmax].
    exact IH.
Qed.

(** C1 fails on the code.  Whatever the region and the direction, the pair
    returned is the projection of the first positive polygon (with the
    squared distances attached): [res.min._dist2] and [res.max._dist2] are
    computed from the current extremes, not from the candidates, so the
    strict comparison never holds.  On the two squares, in direction 0, the
    second square projects to the maximum [(5, 30)], at squared distance
    225 from the center, farther than the first square's [(5, 10)] at 25,
    and the function still returns [(5, 10)]. *)
Theorem region_extremes_ignore_later_polygons :
  (forall region direction minMax,
     minMaxRegionPointsAlongAxis region direction = Some (Some minMax) ->
     exists poly0 polys first,
       filter (fun poly => _isPositive poly = true) (polygons region) = poly0 :: polys
       /\ minMaxPolygonPointsAlongAxis (points poly0) direction (bounds_center region)
          = Some first
       /\ minMax
          = mkMinMax
              (setDist2 (min first)
                 (distanceSquaredBetween (min first) (bounds_center region)))
              (setDist2 (max first)
                 (distanceSquaredBetween (max first) (bounds_center region))))
  /\ minMaxRegionPointsAlongAxis Samples.twoSquares 0
     = Some (Some (mkMinMax (mkPoint 5 0 (Some 225)) (mkPoint 5 10 (Some 25))))
  /\ minMaxPolygonPointsAlongAxis (points (Samples.rectangle 0 20 10 30)) 0 (pt 5 15)
     = Some (mkMinMax (pt 5 20) (pt 5 30))
  /\ distanceSquaredBetween (pt 5 30) (pt 5 15) = 225
  /\ distanceSquaredBetween (pt 5 10) (pt 5 15) = 25.
Proof.
  split.
  { intros region direction minMax. unfold minMaxRegionPointsAlongAxis.
    destruct (filter _ (polygons region)) as [|poly0 polys]; [discriminate|].
    destruct (minMaxPolygonPointsAlongAxis (points poly0) direction
                (bounds_center region)) as [first|] eqn:Hfirst; [|discriminate].
    destruct (regionLoop polys direction (bounds_center region) _) as [out|] eqn:Hloop;
      [|discriminate].
    simpl. intros [= <-]. apply regionLoop_keeps in Hloop; [|reflexivity|reflexivity].
    exists poly0, polys, first. split; [reflexivity|]. split; [exact Hfirst|].
    exact Hloop. }
  assert (H0 : minMaxPolygonPointsAlongAxis (points (Samples.rectangle 0 0 10 10)) 0 (pt 5 15)
               = Some (mkMinMax (pt 5 0) (pt 5 10))).
  { unfold minMaxPolygonPointsAlongAxis.
    rewrite getBounds_rectangle by lra. reflexivity. }
  assert (H1 : minMaxPolygonPointsAlongAxis (points (Samples.rectangle 0 20 10 30)) 0 (pt 5 15)
               = Some (mkMinMax (pt 5 20) (pt 5 30))).
  { unfold minMaxPolygonPointsAlongAxis.
    rewrite getBounds_rectangle by lra. reflexivity. }
  assert (Hd1 : distanceSquaredBetween (pt 5 30) (pt 5 15) = 225)
    by (unfold distanceSquaredBetween; simpl; lra).
  assert (Hd0 : distanceSquaredBetween (pt 5 10) (pt 5 15) = 25)
    by (unfold distanceSquaredBetween; simpl; lra).
  assert (Hd2 : distanceSquaredBetween (pt 5 0) (pt 5 15) = 225)
    by (unfold distanceSquaredBetween; simpl; lra).
  repeat split; try assumption.
  unfold minMaxRegionPointsAlongAxis, Samples.twoSquares.
  change (filter _ _) with [Samples.rectangle 0 0 10 10; Samples.rectangle 0 20 10 30].
  cbv beta iota zeta.
  change (bounds_center _) with (pt 5 15).
  rewrite H0. cbv beta iota zeta.
  rewrite regionLoop_total.
  - simpl. unfold setDist2. simpl. rewrite Hd2, Hd0. reflexivity.
  - reflexivity.
  - reflexivity.
  - repeat constructor. rewrite H1. eauto.
Qed.
End RegionExtremes.
(** ** Directions a whole turn apart *)

Section Periodicity.
Import Geometry.
Local Open Scope R_scope.

Lemma cos_period_Z a (k : Z) : cos (a + 2 * IZR k * PI) = cos a.
Proof.
  destruct k as [|p|p].
  - f_equal. lra.
  - rewrite <- (cos_period a (Pos.to_nat p)), INR_IZR_INZ, positive_nat_Z. reflexivity.
  - rewrite <- (cos_period (a + 2 * IZR (Z.neg p) * PI) (Pos.to_nat p)).
    rewrite INR_IZR_INZ, positive_nat_Z. f_equal.
    change (Z.neg p) with (- Z.pos p)%Z. rewrite opp_IZR. lra.
Qed.

Lemma sin_period_Z a (k : Z) : sin (a + 2 * IZR k * PI) = sin a.
Proof.
  destruct k as [|p|p].
  - f_equal. lra.
  - rewrite <- (sin_period a (Pos.to_nat p)), INR_IZR_INZ, positive_nat_Z. reflexivity.
  - rewrite <- (sin_period (a + 2 * IZR (Z.neg p) * PI) (Pos.to_nat p)).
    rewrite INR_IZR_INZ, positive_nat_Z. f_equal.
    change (Z.neg p) with (- Z.pos p)%Z. rewrite opp_IZR. lra.
Qed.

Lemma toRadians_zero (m : Z) : toRadians (IZR m) = 0 -> m = 0%Z.
Proof.
  unfold toRadians. intros H. apply eq_IZR.
  pose proof PI_RGT_0. nra.
Qed.

Lemma rem_90_turns (d k : Z) : Z.rem (d + 360 * k) 90 = 0%Z <-> Z.rem d 90 = 0%Z.
Proof.
  rewrite !Z.rem_divide by lia. split; intros [q Hq].
  - exists (q - 4 * k)%Z. lia.
  - exists (q + 4 * k)%Z. lia.
Qed.

End Periodicity.
(** ** The elevation of a ramp *)

Section RampFacts.
Import Geometry.
Local Open Scope R_scope.
Variable closestPointToSegment : Point -> Point -> Point -> option Point.

Lemma distanceBetween_nonneg a b : 0 <= distanceBetween a b.
Proof. apply sqrt_pos. Qed.

Lemma distanceBetween_same a b :
  x a = x b -> y a = y b -> distanceBetween a b = 0.
Proof.
  intros Hx Hy. unfold distanceBetween, distanceSquaredBetween.
  rewrite Hx, Hy. replace ((x b - x b) * (x b - x b) + (y b - y b) * (y b - y b)) with 0
    by lra.
  apply sqrt_0.
Qed.

Lemma almostEqual_far t r :
  1 / 100000000 <= Rabs (t - r) -> almostEqual (Fin t) r = false.
Proof.
  intros H. unfold almostEqual. destruct (Rlt_dec _ _); [lra | reflexivity].
Qed.

Lemma almostEqual_same r : almostEqual (Fin r) r = true.
Proof.
  unfold almostEqual. replace (r - r) with 0 by lra. rewrite Rabs_R0.
  destruct (Rlt_dec _ _); [reflexivity | lra].
Qed.

Lemma rampElevation_point_axis (this : This) (waypoint : Location) (axis : MinMax) :
  minMax this = Some axis ->
  distanceBetween (min axis) (max axis) = 0 ->
  rampElevation closestPointToSegment this waypoint
  = match closestPointToSegment (position waypoint) (min axis) (max axis) with
    | None => None
    | Some closestPt =>
        if Req_dec_T (distanceBetween (min axis) closestPt) 0
        then Some NaN
        else Some (Fin (plateauElevation this))
    end.
Proof.
  intros Haxis Hzero.
  unfold rampElevation. rewrite Haxis.
  destruct (closestPointToSegment _ _ _) as [closestPt|]; [|reflexivity].
  simpl. rewrite Hzero. unfold div.
  destruct (Req_dec_T 0 0) as [_|Hne]; [|contradiction].
  destruct (Req_dec_T (distanceBetween (min axis) closestPt) 0) as [Hd|Hd].
  - reflexivity.
  - pose proof (distanceBetween_nonneg (min axis) closestPt).
    destruct (Rlt_dec 0 _) as [_|Hn]; [|lra].
    change (clamp PlusInfinity 0 1) with (Fin 1).
    rewrite almostEqual_far, almostEqual_same; [reflexivity|].
    rewrite Rabs_pos_eq; lra.
Qed.

(** C7, as the code has it: when the two axis points coincide the quotient
    is taken with the divisor 0 all the same.  Its value is [NaN] when the
    projected point is [min] itself (0 / 0), and the result is then [NaN];
    it is plus infinity otherwise, which clamps to 1, and the result is then
    the top of the ramp.  The floor is not singled out. *)
Theorem ramp_elevation_on_point_axis
    (this : This) (waypoint : Location) (axis : MinMax) :
  minMax this = Some axis ->
  x (min axis) = x (max axis) ->
  y (min axis) = y (max axis) ->
  distanceBetween (min axis) (max axis) = 0
  /\ rampElevation closestPointToSegment this waypoint
     = match closestPointToSegment (position waypoint) (min axis) (max axis) with
       | None => None
       | Some closestPt =>
           if Req_dec_T (distanceBetween (min axis) closestPt) 0
           then Some NaN
           else Some (Fin (plateauElevation this))
       end.
Proof.
  intros Haxis Hx Hy.
  pose proof (distanceBetween_same _ _ Hx Hy) as Hzero.
  split; [exact Hzero|]. by apply rampElevation_point_axis.
Qed.
End RampFacts.

Lemma ramp_elevation_on_point_axis_witness :
  Geometry.minMax Samples.pointRamp
  = Some (Geometry.mkMinMax (Geometry.pt 5 0) (Geometry.pt 5 0))
  /\ Geometry.rampElevation (fun _ a _ => Some a) Samples.pointRamp
       (Geometry.mkLocation (Geometry.pt 7 3) 0)
     = Some Geometry.NaN
  /\ Geometry.rampElevation (fun c _ _ => Some c) Samples.pointRamp
       (Geometry.mkLocation (Geometry.pt 5 3) 0)
     = Some (Geometry.Fin 10).
Proof.
  split; [reflexivity|]. split.
  - destruct (ramp_elevation_on_point_axis (fun _ a _ => Some a) Samples.pointRamp
                (Geometry.mkLocation (Geometry.pt 7 3) 0)
                (Geometry.mkMinMax (Geometry.pt 5 0) (Geometry.pt 5 0))
                eq_refl eq_refl eq_refl) as [Hzero ->].
    simpl in *. destruct (Req_dec_T _ 0); [reflexivity | contradiction].
  - destruct (ramp_elevation_on_point_axis (fun c _ _ => Some c) Samples.pointRamp
                (Geometry.mkLocation (Geometry.pt 5 3) 0)
                (Geometry.mkMinMax (Geometry.pt 5 0) (Geometry.pt 5 0))
                eq_refl eq_refl eq_refl) as [_ ->].
    simpl. destruct (Req_dec_T _ 0) as [Hd|_]; [|reflexivity].
    exfalso. revert Hd. unfold Geometry.distanceBetween, Geometry.distanceSquaredBetween.
    simpl. replace ((5 - 5) * (5 - 5) + (3 - 0) * (3 - 0))%R with (3 * 3)%R by lra.
    rewrite sqrt_square by lra. lra.
Defined.

(** C7 as it is stated fails: on the ramp from 0 to 10 whose axis points
    coincide, no behavior of the host's projection makes the evaluation
    return the floor 0; with a projection onto [min] it returns [NaN]. *)
Lemma ramp_on_point_axis_never_floor :
  (forall closestPointToSegment waypoint,
     Geometry.rampElevation closestPointToSegment Samples.pointRamp waypoint
     <> Some (Geometry.Fin (Geometry.rampFloor Samples.pointRamp)))
  /\ Geometry.rampElevation (fun _ a _ => Some a) Samples.pointRamp
       (Geometry.mkLocation (Geometry.pt 7 3) 0)
     = Some Geometry.NaN.
Proof.
  assert (Hzero : Geometry.distanceBetween (Geometry.pt 5 0) (Geometry.pt 5 0) = 0%R)
    by (by apply distanceBetween_same).
  split.
  - intros cps waypoint.
    rewrite (rampElevation_point_axis cps Samples.pointRamp waypoint
               (Geometry.mkMinMax (Geometry.pt 5 0) (Geometry.pt 5 0)) eq_refl Hzero).
    destruct (cps _ _ _) as [closestPt|]; [|discriminate].
    destruct (Req_dec_T _ 0); [discriminate|].
    simpl. intros [= H]. lra.
  - rewrite (rampElevation_point_axis _ Samples.pointRamp _
               (Geometry.mkMinMax (Geometry.pt 5 0) (Geometry.pt 5 0)) eq_refl Hzero).
    simpl. destruct (Req_dec_T _ 0); [reflexivity | contradiction].
Qed.
(** ** The steps of a ramp *)

Section RampSteps.
Import Geometry.
Local Open Scope R_scope.
Variable closestPointToSegment : Point -> Point -> Point -> option Point.

Lemma Math_round_IZR (z : Z) : Math_round (IZR z) = IZR z.
Proof.
  unfold Math_round. f_equal. apply Zfloor_eq. lra.
Qed.

Lemma clamp_unit a b :
  b <> 0 -> exists t, clamp (div a b) 0 1 = Fin t /\ 0 <= t <= 1.
Proof.
  intros Hb. unfold div. destruct (Req_dec_T b 0); [contradiction|].
  simpl. eexists. split; [reflexivity|].
  unfold Rmin, Rmax. repeat destruct (Rle_dec _ _); lra.
Qed.

(** The value of the stepped formula: the floor plus a whole number of
    steps that does not pass the top (from the floor division), rounded. *)
Lemma stepped_value floor top h t :
  0 < h -> floor <= top -> 0 <= t <= 1 ->
  exists k : Z,
    (0 <= k)%Z /\ IZR k * h <= top - floor
    /\ Math_round (floor + Math_floor (t * (top - floor) / h) * h)
       = Math_round (floor + IZR k * h).
Proof.
  intros Hh Hle Ht. exists (Zfloor (t * (top - floor) / h)).
  assert (Hq : 0 <= t * (top - floor) / h).
  { apply Rmult_le_pos; [nra | apply Rlt_le, Rinv_0_lt_compat, Hh]. }
  split; [by apply (Zfloor_lub 0)|]. split; [|reflexivity].
  pose proof (Zfloor_bound (t * (top - floor) / h)) as [Hlow _].
  apply Rle_trans with (t * (top - floor) / h * h).
  - apply Rmult_le_compat_r; lra.
  - replace (t * (top - floor) / h * h) with (t * (top - floor)) by (field; lra).
    nra.
Qed.

Lemma rampElevation_steps (this : This) (waypoint : Location) (axis : MinMax) (h : R) v :
  minMax this = Some axis ->
  rampStepHeight this = Some h ->
  0 < h ->
  rampFloor this <= plateauElevation this ->
  distanceBetween (min axis) (max axis) <> 0 ->
  rampElevation closestPointToSegment this waypoint = Some v ->
  v = Fin (rampFloor this)
  \/ v = Fin (plateauElevation this)
  \/ exists k : Z,
       (0 <= k)%Z /\ IZR k * h <= plateauElevation this - rampFloor this
       /\ v = Fin (Math_round (rampFloor this + IZR k * h)).
Proof.
  intros Haxis Hstep Hh Hle Hd. unfold rampElevation. rewrite Haxis, Hstep.
  destruct (closestPointToSegment _ _ _) as [closestPt|]; [|discriminate].
  simpl.
  destruct (clamp_unit (distanceBetween (min axis) closestPt) _ Hd) as (t & -> & Ht).
  destruct (almostEqual (Fin t) 0); [intros [= <-]; by left|].
  destruct (almostEqual (Fin t) 1); [intros [= <-]; right; by left|].
  destruct (Req_dec_T h 0); [lra|].
  intros [= <-]. right; right.
  destruct (stepped_value (rampFloor this) (plateauElevation this) h t Hh Hle Ht)
    as (k & Hk & Hkh & ->).
  exists k. repeat split; assumption.
Qed.

Lemma rampElevation_at_max (this : This) (waypoint : Location) (axis : MinMax) :
  minMax this = Some axis ->
  distanceBetween (min axis) (max axis) <> 0 ->
  closestPointToSegment (position waypoint) (min axis) (max axis) = Some (max axis) ->
  rampElevation closestPointToSegment this waypoint = Some (Fin (plateauElevation this)).
Proof.
  intros Haxis Hd Hclosest. unfold rampElevation. rewrite Haxis, Hclosest. simpl.
  unfold div. destruct (Req_dec_T _ 0); [contradiction|].
  replace (distanceBetween (min axis) (max axis) / distanceBetween (min axis) (max axis))
    with 1 by (field; assumption).
  replace (clamp (Fin 1) 0 1) with (Fin 1).
  2: { simpl. f_equal. unfold Rmin, Rmax. repeat destruct (Rle_dec _ _); lra. }
  rewrite almostEqual_far, almostEqual_same; [reflexivity|].
  rewrite Rabs_pos_eq; lra.
Qed.

Lemma rampElevation_at_min (this : This) (waypoint : Location) (axis : MinMax) :
  minMax this = Some axis ->
  distanceBetween (min axis) (max axis) <> 0 ->
  closestPointToSegment (position waypoint) (min axis) (max axis) = Some (min axis) ->
  rampElevation closestPointToSegment this waypoint = Some (Fin (rampFloor this)).
Proof.
  intros Haxis Hd Hclosest. unfold rampElevation. rewrite Haxis, Hclosest. simpl.
  rewrite (distanceBetween_same (min axis) (min axis)) by reflexivity.
  unfold div. destruct (Req_dec_T _ 0); [contradiction|].
  replace (0 / distanceBetween (min axis) (max axis)) with 0 by (field; assumption).
  replace (clamp (Fin 0) 0 1) with (Fin 0).
  2: { simpl. f_equal. unfold Rmin, Rmax. repeat destruct (Rle_dec _ _); lra. }
  by rewrite almostEqual_same.
Qed.

Lemma distanceBetween_alongAxis (axis : MinMax) s :
  0 <= s ->
  distanceBetween (min axis) (alongAxis axis s)
  = s * distanceBetween (min axis) (max axis).
Proof.
  intros Hs. unfold distanceBetween, distanceSquaredBetween, alongAxis. simpl.
  set (dx := x (max axis) - x (min axis)). set (dy := y (max axis) - y (min axis)).
  replace ((x (min axis) + s * dx - x (min axis)) * (x (min axis) + s * dx - x (min axis))
           + (y (min axis) + s * dy - y (min axis)) * (y (min axis) + s * dy - y (min axis)))
    with (s * s * (dx * dx + dy * dy)) by ring.
  rewrite sqrt_mult; [|nra|nra]. by rewrite sqrt_square.
Qed.

(** At the fraction [s] of the axis, a point that is its own closest
    point, [t0] is [s]. *)
Lemma rampElevation_alongAxis (this : This) (axis : MinMax) (s e : R) :
  minMax this = Some axis ->
  distanceBetween (min axis) (max axis) <> 0 ->
  closestPointToSegment (alongAxis axis s) (min axis) (max axis)
  = Some (alongAxis axis s) ->
  0 <= s <= 1 ->
  rampElevation closestPointToSegment this (mkLocation (alongAxis axis s) e)
  = if almostEqual (Fin s) 0 then Some (Fin (rampFloor this))
    else if almostEqual (Fin s) 1 then Some (Fin (plateauElevation this))
    else Some (if noStepHeight (rampStepHeight this)
               then Fin (Math_round
                           (rampFloor this
                            + s * (plateauElevation this - rampFloor this)))
               else Fin (Math_round
                           (rampFloor this
                            + Math_floor (s * (plateauElevation this - rampFloor this)
                                          / default 0 (rampStepHeight this))
                              * default 0 (rampStepHeight this)))).
Proof.
  intros Haxis Hd Hcps Hs. unfold rampElevation. rewrite Haxis. simpl.
  rewrite Hcps. simpl. rewrite distanceBetween_alongAxis by lra.
  unfold div. destruct (Req_dec_T _ 0); [contradiction|].
  replace (s * distanceBetween (min axis) (max axis) / distanceBetween (min axis) (max axis))
    with s by (field; assumption).
  assert (Hclamp : clamp (Fin s) 0 1 = Fin s).
  { simpl. f_equal. unfold Rmin, Rmax. repeat destruct (Rle_dec _ _); lra. }
  rewrite Hclamp. reflexivity.
Qed.

(** C5, as the code has it: for a ramp whose floor and step height are
    whole numbers, with a step height [h > 0] read from [this], a floor not
    above the top and two distinct axis points, every elevation returned is
    either the top of the ramp or a step elevation [floor + k * h] with
    [k >= 0] that does not pass the top.  The top is returned at the far end
    of the axis whether or not it is a step elevation, and the floor at the
    near end.  Every step elevation is returned: when the top is a whole
    number at most 50000000 above the floor and the host function finds
    each point of the axis to be its own closest point, each [floor + k *
    h] up to the top is the elevation at some point of the axis. *)
Theorem ramp_step_elevations
    (this : This) (waypoint : Location) (axis : MinMax) (floor h : Z) :
  minMax this = Some axis ->
  rampStepHeight this = Some (IZR h) ->
  (0 < h)%Z ->
  rampFloor this = IZR floor ->
  rampFloor this <= plateauElevation this ->
  distanceBetween (min axis) (max axis) <> 0 ->
  (forall v,
     rampElevation closestPointToSegment this waypoint = Some v ->
     v = Fin (plateauElevation this)
     \/ exists k : Z,
          (0 <= k)%Z /\ IZR (floor + k * h) <= plateauElevation this
          /\ v = Fin (IZR (floor + k * h)))
  /\ (closestPointToSegment (position waypoint) (min axis) (max axis) = Some (max axis) ->
      rampElevation closestPointToSegment this waypoint
      = Some (Fin (plateauElevation this)))
  /\ (closestPointToSegment (position waypoint) (min axis) (max axis) = Some (min axis) ->
      rampElevation closestPointToSegment this waypoint = Some (Fin (IZR floor)))
  /\ (forall top k : Z,
        plateauElevation this = IZR top ->
        (top - floor <= 50000000)%Z ->
        (forall s, 0 <= s <= 1 ->
           closestPointToSegment (alongAxis axis s) (min axis) (max axis)
           = Some (alongAxis axis s)) ->
        (0 <= k)%Z -> (floor + k * h <= top)%Z ->
        exists s,
          0 <= s <= 1
          /\ rampElevation closestPointToSegment this
               (mkLocation (alongAxis axis s) (elevation waypoint))
             = Some (Fin (IZR (floor + k * h)))).
Proof.
  intros Haxis Hstep Hh Hfloor Hle Hd. split; [|split; [|split]].
  - intros v Hv.
    destruct (rampElevation_steps this waypoint axis (IZR h) v
                Haxis Hstep (IZR_lt 0 h Hh) Hle Hd Hv)
      as [-> | [-> | (k & Hk & Hkh & ->)]].
    + right. exists 0%Z. rewrite Z.mul_0_l, Z.add_0_r, <- Hfloor.
      repeat split; [lia | exact Hle].
    + by left.
    + right. exists k. rewrite Hfloor, <- mult_IZR, <- plus_IZR, Math_round_IZR.
      repeat split; [exact Hk|]. rewrite plus_IZR, mult_IZR, <- Hfloor. lra.
  - by apply rampElevation_at_max.
  - rewrite <- Hfloor. by apply rampElevation_at_min.
  - intros top k Htop Hbound Hcps Hk Hkh.
    assert (Hrun : forall s, 0 <= s <= 1 -> _) by
      (intros s Hs;
       exact (rampElevation_alongAxis this axis s (elevation waypoint) Haxis Hd
                (Hcps s Hs) Hs)).
    destruct (Z.eq_dec k 0%Z) as [-> | Hk0].
    { exists 0. split; [lra|]. rewrite Hrun by lra.
      rewrite almostEqual_same, Hfloor. do 3 f_equal. lia. }
    destruct (Z.eq_dec (floor + k * h)%Z top) as [Hat | Hbelow].
    { exists 1. split; [lra|]. rewrite Hrun by lra.
      rewrite almostEqual_far, almostEqual_same, Htop, Hat; [reflexivity|].
      rewrite Rabs_pos_eq; lra. }
    set (delta := (top - floor)%Z).
    assert (Hkh1 : (1 <= k * h)%Z) by nia.
    assert (Hkh2 : (k * h + 1 <= delta)%Z) by (unfold delta; lia).
    assert (Hdelta : 2 <= IZR delta <= 50000000).
    { split; [apply IZR_le; lia | apply IZR_le; unfold delta; lia]. }
    assert (Hkh1R : 1 <= IZR (k * h)) by (apply IZR_le; lia).
    assert (Hkh2R : IZR (k * h) + 1 <= IZR delta)
      by (rewrite <- (plus_IZR _ 1); apply IZR_le; lia).
    assert (HhR : 1 <= IZR h) by (apply IZR_le; lia).
    set (s := (IZR (k * h) + / 2) / IZR delta).
    assert (Hsd : s * IZR delta = IZR (k * h) + / 2) by (unfold s; field; lra).
    assert (Hs : 1 / 100000000 <= s <= 1 - 1 / 100000000).
    { split.
      - apply Rmult_le_reg_r with (IZR delta); [lra|]. rewrite Hsd. lra.
      - apply Rmult_le_reg_r with (IZR delta); [lra|]. rewrite Hsd. lra. }
    exists s. split; [lra|]. rewrite Hrun by lra.
    rewrite !almostEqual_far.
    2: { rewrite Rabs_left1; lra. }
    2: { rewrite Rabs_pos_eq; lra. }
    rewrite Hstep. simpl. destruct (Req_dec_T (IZR h) 0); [lra|].
    do 2 f_equal.
    replace (plateauElevation this - rampFloor this) with (IZR delta)
      by (unfold delta; rewrite minus_IZR, Htop, Hfloor; reflexivity).
    rewrite Hsd.
    assert (Hfl : Math_floor ((IZR (k * h) + / 2) / IZR h) = IZR k).
    { unfold Math_floor. f_equal. apply Zfloor_eq.
      rewrite mult_IZR.
      assert (Hinv : 0 < / IZR h <= 1).
      { split; [apply Rinv_0_lt_compat; lra|].
        rewrite <- Rinv_1. apply Rinv_le_contravar; lra. }
      replace ((IZR k * IZR h + / 2) / IZR h) with (IZR k + / 2 * / IZR h)
        by (field; lra).
      lra. }
    rewrite Hfl, Hfloor, <- mult_IZR, <- plus_IZR. apply Math_round_IZR.
Qed.
End RampSteps.

Lemma steppedRamp_axis_length :
  Geometry.distanceBetween (Geometry.pt 0 0) (Geometry.pt 0 10) = 10%R.
Proof.
  unfold Geometry.distanceBetween, Geometry.distanceSquaredBetween. simpl.
  replace ((0 - 0) * (0 - 0) + (10 - 0) * (10 - 0))%R with (10 * 10)%R by lra.
  apply sqrt_square. lra.
Qed.

Lemma ramp_step_elevations_witness :
  Geometry.rampStepHeight (Samples.steppedRamp (Some (IZR 4))) = Some (IZR 4)
  /\ Geometry.rampFloor (Samples.steppedRamp (Some (IZR 4))) = IZR 10
  /\ Geometry.distanceBetween (Geometry.pt 0 0) (Geometry.pt 0 10) <> 0%R
  /\ exists s,
       (0 <= s <= 1)%R
       /\ Geometry.rampElevation (fun p _ _ => Some p) (Samples.steppedRamp (Some (IZR 4)))
            (Geometry.mkLocation
               (alongAxis (Geometry.mkMinMax (Geometry.pt 0 0) (Geometry.pt 0 10)) s) 0)
          = Some (Geometry.Fin (IZR (10 + 1 * 4))).
Proof.
  assert (Hd : Geometry.distanceBetween (Geometry.pt 0 0) (Geometry.pt 0 10) <> 0%R)
    by (rewrite steppedRamp_axis_length; lra).
  split; [reflexivity|]. split; [reflexivity|]. split; [exact Hd|].
  destruct (ramp_step_elevations (fun p _ _ => Some p) (Samples.steppedRamp (Some (IZR 4)))
              (Geometry.mkLocation (Geometry.pt 3 0) 0)
              (Geometry.mkMinMax (Geometry.pt 0 0) (Geometry.pt 0 10)) 10 4
              eq_refl eq_refl eq_refl eq_refl ltac:(simpl; lra) Hd)
    as (_ & _ & _ & Hall).
  apply (Hall 25%Z 1%Z); [reflexivity | lia | reflexivity | lia | lia].
Defined.

(** C5 as it is stated fails, in both directions.  On the ramp from 10 to
    25 with step size 4, a location that projects onto the far end of the
    axis gets the top, 25, which is none of the step elevations 10, 14, 18,
    22, ...; this holds whether or not the object carries a
    [rampStepHeight], so also for the handler the class builds from the
    flags.  On the ramp from 0 to 1000000000 with step size 1, the step
    elevation 1 is returned nowhere: within [1e-8] of the near end of the
    axis the guard returns the floor, and from there on the floor division
    yields 10 steps or more. *)
Lemma ramp_top_is_not_a_step :
  (forall rampStepHeight closestPointToSegment,
     closestPointToSegment (Geometry.pt 0 10) (Geometry.pt 0 0) (Geometry.pt 0 10)
     = Some (Geometry.pt 0 10) ->
     Geometry.rampElevation closestPointToSegment (Samples.steppedRamp rampStepHeight)
       (Geometry.mkLocation (Geometry.pt 0 10) 0)
     = Some (Geometry.Fin 25))
  /\ Samples.steppedRamp None
     = Geometry.handlerOfFlags
         (Some (Geometry.mkMinMax (Geometry.pt 0 0) (Geometry.pt 0 10))) 25 10 4
  /\ (forall k : Z, (10 + IZR k * 4)%R <> 25%R)
  /\ (forall closestPointToSegment waypoint,
        Geometry.rampElevation closestPointToSegment
          (Geometry.mkThis (Some (Geometry.mkMinMax (Geometry.pt 0 0) (Geometry.pt 0 10)))
             0 1000000000 (Some 1%R))
          waypoint
        <> Some (Geometry.Fin 1)).
Proof.
  split; [|split; [|split]].
  - intros stepHeight cps Hcps.
    apply (rampElevation_at_max cps (Samples.steppedRamp stepHeight) _
             (Geometry.mkMinMax (Geometry.pt 0 0) (Geometry.pt 0 10)));
      [reflexivity | | exact Hcps].
    simpl. rewrite steppedRamp_axis_length. lra.
  - reflexivity.
  - intros k Hk.
    assert (Hz : IZR (10 + k * 4) = IZR 25) by (rewrite plus_IZR, mult_IZR; exact Hk).
    apply eq_IZR in Hz. lia.
  - intros cps waypoint. unfold Geometry.rampElevation. simpl.
    destruct (cps _ _ _) as [closestPt|]; [|discriminate]. simpl.
    destruct (clamp_unit (Geometry.distanceBetween (Geometry.pt 0 0) closestPt)
                (Geometry.distanceBetween (Geometry.pt 0 0) (Geometry.pt 0 10)))
      as (t & -> & Ht); [rewrite steppedRamp_axis_length; lra|].
    unfold Geometry.almostEqual at 1.
    destruct (Rlt_dec _ _) as [|Hfar0]; [intros [= H]; lra|].
    destruct (Geometry.almostEqual (Geometry.Fin t) 1); [intros [= H]; lra|].
    destruct (Req_dec_T 1 0); [lra|].
    intros [= H].
    assert (Ht8 : (1 / 100000000 <= t)%R).
    { rewrite Rminus_0_r, Rabs_pos_eq in Hfar0; lra. }
    assert (Hn : (10 <= Zfloor (t * (1000000000 - 0) / 1))%Z).
    { apply Zfloor_lub. simpl. lra. }
    unfold Geometry.Math_floor in H.
    replace (0 + IZR (Zfloor (t * (1000000000 - 0) / 1)) * 1)%R
      with (IZR (Zfloor (t * (1000000000 - 0) / 1))) in H by ring.
    rewrite Math_round_IZR in H. apply eq_IZR in H. lia.
Qed.
(** ** Returning *)

(** The stairs adjuster returns within as many iterations as the array is
    long: it never puts a segment back in front of the scan. *)
Theorem stairs_adjuster_returns
    (behavior : Behavior) (terrainFloor : Q) (fuel : nat) (segments : list Entry) :
  length segments <= fuel ->
  is_Some (modifySegmentsForStairs fuel segments behavior terrainFloor).
Proof.
  intros Hle. destruct (active_or_guarded behavior) as [Hact | Hguard].
  - destruct (system_algorithm behavior) eqn:Halg;
      try (rewrite modifySegmentsForStairs_guard;
           [eauto | apply (active_other_guard _ _ _ Hact); discriminate]).
    rewrite (modifySegmentsForStairs_scan _ _ _ _ Hact Hle). eauto.
  - rewrite modifySegmentsForStairs_guard by apply Hguard. eauto.
Qed.

Lemma stairs_adjuster_returns_witness :
  is_Some (modifySegmentsForStairs 3 groundPath (stairsBehavior 30 0 true) 0).
Proof.
  apply (stairs_adjuster_returns (stairsBehavior 30 0 true) 0 3 groundPath).
  simpl. lia.
Defined.

Section PlateauReturns.
Variables (behavior : Behavior) (terrainFloor : Q).

Hypothesis intersection_on_surface :
  forall a b ix,
    system_plateauSegmentIntersection behavior a b = Some ix ->
    JS.gt (elevation ix) (system_elevation behavior) = false.

Lemma gt_irrefl a : JS.gt a a = false.
Proof.
  unfold JS.gt, JS.lt. rewrite (proj2 (Qle_bool_iff a a)) by apply Qle_refl. reflexivity.
Qed.

Lemma plateau_scan_returns freefall fuel :
  forall done todo entered,
    totalIterations behavior todo <= fuel ->
    is_Some (PlateauView.scan behavior freefall terrainFloor fuel done todo entered).
Proof.
  induction fuel as [|fuel IH]; intros done todo entered Hle;
    destruct todo as [|cur rest]; simpl; eauto.
  - exfalso. simpl in Hle. destruct cur as [segment|]; simpl in Hle;
      [destruct (JS.gt _ _)|]; lia.
  - assert (Hstep : totalIterations behavior
                      ((PlateauView.emit behavior freefall terrainFloor done cur entered).1.2
                       ++ rest)
                    < totalIterations behavior (cur :: rest)).
    { unfold PlateauView.emit. destruct cur as [segment|]; [|simpl; lia].
      assert (H1 : 1 <= iterations behavior (Some segment))
        by (simpl; destruct (JS.gt _ _); lia).
      destruct (type segment).
      - destruct (JS.strictEq _ _); simpl in *; lia.
      - destruct entered; [simpl in *; lia|].
        destruct (freefall && JS.gt (elevation (from segment)) (system_elevation behavior)
                  && JS.lt (elevation (to segment)) (system_elevation behavior)) eqn:Hc;
          [|simpl in *; lia].
        apply andb_true_iff in Hc as [[_ Hgt]%andb_true_iff _].
        destruct (regionWaypointsXYEqual (from segment) (to segment)).
        + destruct (_ || _); simpl in *; [lia|].
          rewrite Hgt, gt_irrefl. lia.
        + destruct (system_plateauSegmentIntersection behavior _ _) as [ix|] eqn:Hix;
            [|simpl in *; lia].
          destruct (_ || _); simpl in *; [lia|].
          rewrite Hgt, (intersection_on_surface _ _ _ Hix). lia.
      - destruct (negb (system_reset behavior)); [simpl in *; lia|].
        destruct (negb _); simpl in *; lia. }
    destruct (PlateauView.emit behavior freefall terrainFloor done cur entered)
      as [[out again] entered'].
    apply IH. simpl in Hstep, Hle. lia.
Qed.

Lemma iterations_bound (todo : list Entry) :
  totalIterations behavior todo <= 2 * length todo.
Proof.
  induction todo as [|cur rest IH]; simpl; [lia|].
  destruct cur as [segment|]; simpl; [destruct (JS.gt _ _)|]; lia.
Qed.
End PlateauReturns.

(** The plateau adjuster returns within twice as many iterations as the
    array is long, with or without freefall, when the intersection method of
    the behavior yields points that are not above the plateau (as a point of
    its surface is): each segment is split at most once. *)
Theorem plateau_adjuster_returns
    (behavior : Behavior) (freefall : bool) (terrainFloor : Q)
    (fuel : nat) (segments : list Entry) :
  (forall a b ix,
     system_plateauSegmentIntersection behavior a b = Some ix ->
     JS.gt (elevation ix) (system_elevation behavior) = false) ->
  2 * length segments <= fuel ->
  is_Some (modifySegmentsForPlateau fuel segments behavior freefall terrainFloor).
Proof.
  intros Hix Hle. destruct (active_or_guarded behavior) as [Hact | Hguard].
  - destruct (system_algorithm behavior) eqn:Halg;
      try (rewrite modifySegmentsForPlateau_guard;
           [eauto | apply (active_other_guard _ _ _ Hact); discriminate]).
    rewrite PlateauScan.modifySegmentsForPlateau_scan by exact Hact.
    destruct (plateau_scan_returns behavior terrainFloor Hix freefall fuel [] segments false)
      as [r ->]; [|simpl; eauto].
    pose proof (iterations_bound behavior segments). lia.
  - rewrite modifySegmentsForPlateau_guard by apply Hguard. eauto.
Qed.

Lemma plateau_adjuster_returns_witness :
  is_Some (modifySegmentsForPlateau 2 [Some (mkSegment MOVE (wp 0 0 20) (wp 0 0 0))]
             (plateauBehavior 10 true) true 0).
Proof.
  apply (plateau_adjuster_returns (plateauBehavior 10 true) true 0 2
           [Some (mkSegment MOVE (wp 0 0 20) (wp 0 0 0))]).
  - intros a b ix Hix. discriminate.
  - simpl. lia.
Defined.

(** ** Falling through a plateau *)

(** Under freefall, a vertical [MOVE] segment that is met while [entered]
    does not hold, starts above the plateau and ends below it is replaced by
    exactly two [MOVE] segments that meet at the plateau elevation.  The
    entries before are adjusted as they are on their own, and the scan goes
    on behind the second of the two, on the entries that followed the
    segment: neither half is changed or split again. *)
Theorem plateau_freefall_splits_in_two
    (behavior : Behavior) (terrainFloor : Q) (fuel : nat)
    (pre post out : list Entry) (move : Segment) :
  active behavior PLATEAU ->
  type move = MOVE ->
  enteredAfter false pre = false ->
  regionWaypointsXYEqual (from move) (to move) = true ->
  JS.gt (elevation (from move)) (system_elevation behavior) = true ->
  JS.lt (elevation (to move)) (system_elevation behavior) = true ->
  modifySegmentsForPlateau fuel (pre ++ Some move :: post) behavior true terrainFloor
    = Some out ->
  let ix := {| x := x (from move); y := y (from move);
               elevation := system_elevation behavior |} in
  let toIx := {| type := MOVE; from := from move; to := ix |} in
  let fromIx := {| type := MOVE; from := ix; to := to move |} in
  exists pre' post',
    modifySegmentsForPlateau fuel pre behavior true terrainFloor = Some pre'
    /\ out = pre' ++ Some toIx :: Some fromIx :: post'
    /\ Plateau.loop behavior true terrainFloor fuel
         (Plateau.mkScan (pre' ++ Some toIx :: Some fromIx :: post)
            (length pre' + 2)
            (length (pre' ++ Some toIx :: Some fromIx :: post))
            false)
       = Some out.
Proof.
  intros Hact Htype Hent Hxy Hgt Hlt Hrun ix toIx fromIx.
  rewrite PlateauScan.modifySegmentsForPlateau_scan in Hrun by exact Hact.
  destruct (PlateauView.scan _ _ _ fuel [] _ false) as [[out0 e0]|] eqn:Hscan;
    [|discriminate].
  simpl in Hrun. injection Hrun as ->.
  destruct (PlateauScan.scan_app _ _ _ _ _ _ _ _ _ Hscan) as (pre' & e1 & Hpre & Hrest).
  pose proof (plateau_scan_entered _ _ _ _ _ _ _ _ _ Hpre) as He1.
  rewrite Hent in He1. subst e1.
  assert (Hne : regionWaypointsEqual ix (from move) || regionWaypointsEqual ix (to move)
                = false).
  { unfold regionWaypointsEqual, JS.strictEq, JS.gt, JS.lt in *. simpl.
    apply orb_false_iff. split; apply andb_false_iff; right.
    - destruct (Qeq_bool _ _) eqn:Heq; [|reflexivity].
      apply Qeq_bool_eq in Heq.
      rewrite (proj2 (Qle_bool_iff _ _)) in Hgt; [discriminate|].
      rewrite Heq. apply Qle_refl.
    - destruct (Qeq_bool _ _) eqn:Heq; [|reflexivity].
      apply Qeq_bool_eq in Heq.
      rewrite (proj2 (Qle_bool_iff _ _)) in Hlt; [discriminate|].
      rewrite Heq. apply Qle_refl. }
  destruct fuel as [|fuel]; [discriminate|].
  simpl in Hrest. rewrite Htype, Hgt, Hlt, Hxy in Hrest. simpl in Hrest.
  change (withElevation (from move) (system_elevation behavior)) with ix in Hrest.
  rewrite Hne in Hrest.
  destruct fuel as [|fuel]; [discriminate|].
  simpl in Hrest. rewrite gt_irrefl in Hrest. simpl in Hrest.
  destruct (PlateauScan.scan_prefix _ _ _ _ _ _ _ _ _ Hrest) as [post' Hout].
  exists pre', post'. repeat split.
  - rewrite PlateauScan.modifySegmentsForPlateau_scan by exact Hact.
    rewrite (PlateauScan.scan_fuel_mono _ _ _ _ _ _ _ _ _ Hpre) by lia. reflexivity.
  - rewrite Hout, <- !app_assoc. reflexivity.
  - apply (PlateauScan.scan_fuel_mono _ _ _ _ (S (S fuel))) in Hrest; [|lia].
    etrans; [|exact (PlateauScan.loop_of_scan _ _ _ _ _ _ _ _ _ Hrest)].
    f_equal. unfold plateauCut.
    f_equal; rewrite <- ?app_assoc, ?length_app; simpl; rewrite ?length_app;
      try done; unfold Entry in *; simpl; lia.
Qed.

Lemma plateau_freefall_splits_in_two_witness :
  exists pre' post',
    modifySegmentsForPlateau 4 [Some groundExit] (plateauBehavior 10 true) true 0
    = Some pre'
    /\ [Some groundExit;
        Some (mkSegment MOVE (wp 0 0 20) (wp 0 0 10));
        Some (mkSegment MOVE (wp 0 0 10) (wp 0 0 0));
        Some groundMove]
       = pre' ++ Some (mkSegment MOVE (wp 0 0 20) (wp 0 0 10))
               :: Some (mkSegment MOVE (wp 0 0 10) (wp 0 0 0)) :: post'
    /\ Plateau.loop (plateauBehavior 10 true) true 0 4
         (Plateau.mkScan
            (pre' ++ Some (mkSegment MOVE (wp 0 0 20) (wp 0 0 10))
                  :: Some (mkSegment MOVE (wp 0 0 10) (wp 0 0 0)) :: [Some groundMove])
            (length pre' + 2)
            (length (pre' ++ Some (mkSegment MOVE (wp 0 0 20) (wp 0 0 10))
                          :: Some (mkSegment MOVE (wp 0 0 10) (wp 0 0 0))
                          :: [Some groundMove]))
            false)
       = Some [Some groundExit;
               Some (mkSegment MOVE (wp 0 0 20) (wp 0 0 10));
               Some (mkSegment MOVE (wp 0 0 10) (wp 0 0 0));
               Some groundMove].
Proof.
  apply (plateau_freefall_splits_in_two (plateauBehavior 10 true) 0 4
           [Some groundExit] [Some groundMove]
           _ (mkSegment MOVE (wp 0 0 20) (wp 0 0 0))); try reflexivity.
  repeat split.
Defined.

(** ** The axis projection finds the extremes of a polygon *)

Section AxisFacts.
Import Geometry.
Local Open Scope R_scope.

Lemma rotatePolygon_points poly r c :
  r <> 0 ->
  rotatePolygon poly r c
  = map (fun p => pt (x c + (x p - x c) * cos r - (y p - y c) * sin r)
                     (y c + (x p - x c) * sin r + (y p - y c) * cos r)) poly.
Proof.
  intros Hr. unfold rotatePolygon. destruct (Req_dec_T r 0); [contradiction|].
  apply map_ext. intros p. unfold rowTimes, pt. simpl. f_equal; ring.
Qed.

Lemma foldr_Rmin_below (f : Point -> R) a l :
  foldr (fun q m => Rmin (f q) m) a l <= a
  /\ forall p, In p l -> foldr (fun q m => Rmin (f q) m) a l <= f p.
Proof.
  induction l as [|q l [IHa IHl]]; simpl.
  - split; [lra | tauto].
  - split.
    + etransitivity; [apply Rmin_r | exact IHa].
    + intros p [<- | Hp]; [apply Rmin_l|].
      etransitivity; [apply Rmin_r | by apply IHl].
Qed.

Lemma foldr_Rmax_above (f : Point -> R) a l :
  a <= foldr (fun q m => Rmax (f q) m) a l
  /\ forall p, In p l -> f p <= foldr (fun q m => Rmax (f q) m) a l.
Proof.
  induction l as [|q l [IHa IHl]]; simpl.
  - split; [lra | tauto].
  - split.
    + etransitivity; [exact IHa | apply Rmax_r].
    + intros p [<- | Hp]; [apply Rmax_l|].
      etransitivity; [by apply IHl | apply Rmax_r].
Qed.

Lemma foldr_Rmin_attained (f : Point -> R) p0 l :
  exists p, In p (p0 :: l) /\ foldr (fun q m => Rmin (f q) m) (f p0) l = f p.
Proof.
  induction l as [|q l (p & Hp & IH)]; simpl.
  - exists p0. split; [by left | reflexivity].
  - simpl in IH. rewrite IH. unfold Rmin. destruct (Rle_dec (f q) (f p)).
    + exists q. split; [right; by left | reflexivity].
    + exists p. split; [|reflexivity]. destruct Hp as [<- | Hp]; [by left | right; by right].
Qed.

Lemma foldr_Rmax_attained (f : Point -> R) p0 l :
  exists p, In p (p0 :: l) /\ foldr (fun q m => Rmax (f q) m) (f p0) l = f p.
Proof.
  induction l as [|q l (p & Hp & IH)]; simpl.
  - exists p0. split; [by left | reflexivity].
  - simpl in IH. rewrite IH. unfold Rmax. destruct (Rle_dec (f q) (f p)).
    + exists p. split; [|reflexivity]. destruct Hp as [<- | Hp]; [by left | right; by right].
    + exists q. split; [right; by left | reflexivity].
Qed.

(** The bounding box contains every point of the polygon. *)
Lemma getBounds_contains poly p :
  In p poly ->
  left (getBounds poly) <= x p <= right (getBounds poly)
  /\ top (getBounds poly) <= y p <= bottom (getBounds poly).
Proof.
  destruct poly as [|p0 l]; [intros []|]. intros Hp. simpl.
  destruct (foldr_Rmin_below x (x p0) l) as [Hxa Hxl].
  destruct (foldr_Rmin_below y (y p0) l) as [Hya Hyl].
  destruct (foldr_Rmax_above x (x p0) l) as [Hxb Hxm].
  destruct (foldr_Rmax_above y (y p0) l) as [Hyb Hym].
  destruct Hp as [<- | Hp]; [lra|].
  specialize (Hxl p Hp). specialize (Hyl p Hp).
  specialize (Hxm p Hp). specialize (Hym p Hp). lra.
Qed.

(** Each edge of the bounding box passes through a point of the
    polygon. *)
Lemma getBounds_attained poly :
  poly <> [] ->
  (exists p, In p poly /\ x p = left (getBounds poly))
  /\ (exists p, In p poly /\ y p = top (getBounds poly))
  /\ (exists p, In p poly /\ x p = right (getBounds poly))
  /\ (exists p, In p poly /\ y p = bottom (getBounds poly)).
Proof.
  destruct poly as [|p0 l]; [congruence|]. intros _. simpl.
  destruct (foldr_Rmin_attained x p0 l) as (p1 & H1 & E1).
  destruct (foldr_Rmin_attained y p0 l) as (p2 & H2 & E2).
  destruct (foldr_Rmax_attained x p0 l) as (p3 & H3 & E3).
  destruct (foldr_Rmax_attained y p0 l) as (p4 & H4 & E4).
  repeat split; eauto.
Qed.

(** [Math.toRadians(360 - direction)] is the angle whose sine and cosine
    are the components of the heading. *)
Lemma heading_angle (d : Z) :
  Axis.heading d
  = (sin (toRadians (IZR (360 - d))), cos (toRadians (IZR (360 - d)))).
Proof.
  unfold Axis.heading.
  replace (toRadians (IZR (360 - d)))
    with (- toRadians (IZR d) + 2 * IZR 1 * PI)
    by (unfold toRadians; rewrite minus_IZR; lra).
  rewrite sin_period_Z, cos_period_Z, sin_neg, cos_neg. reflexivity.
Qed.

Lemma heading_unit (d : Z) :
  (Axis.heading d).1 * (Axis.heading d).1 + (Axis.heading d).2 * (Axis.heading d).2 = 1.
Proof.
  unfold Axis.heading. simpl.
  pose proof (sin2_cos2 (toRadians (IZR d))) as H. unfold Rsqr in H. lra.
Qed.

Lemma along_onAxis (d : Z) c t :
  Axis.along (Axis.heading d) c (Axis.onAxis (Axis.heading d) c t) = t.
Proof.
  pose proof (heading_unit d) as H.
  unfold Axis.along, Axis.onAxis, Axis.heading in *. simpl in *.
  set (s := sin _) in *. set (k := cos _) in *.
  transitivity (t * (- s * - s + k * k)); [ring|].
  rewrite H. ring.
Qed.

(** The pair [minMaxPolygonPointsAlongAxis] returns, in every branch: two
    points of the axis through the centroid, at the least and the greatest
    signed distance that a point of the polygon has along the heading. *)
Lemma minMaxPolygonPointsAlongAxis_axis poly (d : Z) c mm :
  minMaxPolygonPointsAlongAxis poly d c = Some mm ->
  exists lo hi,
    mm = mkMinMax (Axis.onAxis (Axis.heading d) c lo) (Axis.onAxis (Axis.heading d) c hi)
    /\ (forall p, In p poly ->
          lo <= Axis.along (Axis.heading d) c p <= hi)
    /\ (poly <> [] ->
        (exists p, In p poly /\ Axis.along (Axis.heading d) c p = lo)
        /\ (exists p, In p poly /\ Axis.along (Axis.heading d) c p = hi)).
Proof.
  unfold minMaxPolygonPointsAlongAxis.
  destruct (Z.eqb_spec (Z.rem d 90) 0) as [Hrem | Hrem]; simpl.
  - (* the four axes *)
    pose proof (getBounds_contains poly) as Hin.
    pose proof (getBounds_attained poly) as Hat.
    set (b := getBounds poly) in *.
    assert (H0 : toRadians (IZR 0) = 0) by (unfold toRadians; lra).
    assert (H90 : toRadians (IZR 90) = PI / 2) by (unfold toRadians; lra).
    assert (H180 : toRadians (IZR 180) = PI) by (unfold toRadians; lra).
    assert (H270 : toRadians (IZR 270) = 3 * (PI / 2)) by (unfold toRadians; lra).
    destruct d as [|q|q]; [| |discriminate].
    + intros [= <-]. exists (top b - y c), (bottom b - y c).
      unfold Axis.heading, Axis.onAxis, Axis.along. rewrite H0, sin_0, cos_0. simpl.
      split; [unfold pt; f_equal; f_equal; ring|]. split.
      * intros p Hp. destruct (Hin p Hp) as [_ Hy]. lra.
      * intros Hne. destruct (Hat Hne) as (_ & (p & Hp & Ep) & _ & (p' & Hp' & Ep')).
        split; [exists p | exists p']; (split; [assumption | lra]).
    + repeat match goal with
             | |- context [match ?q with xI _ => _ | xO _ => _ | xH => _ end] =>
                 is_var q; destruct q
             end; try discriminate; intros [= <-].
      * (* 270 *)
        exists (left b - x c), (right b - x c).
        unfold Axis.heading, Axis.onAxis, Axis.along.
        change (IZR 270) with (IZR 270). rewrite H270, sin_3PI2, cos_3PI2. simpl.
        split; [unfold pt; f_equal; f_equal; ring|]. split.
        -- intros p Hp. destruct (Hin p Hp) as [Hx _]. lra.
        -- intros Hne. destruct (Hat Hne) as ((p & Hp & Ep) & _ & (p' & Hp' & Ep') & _).
           split; [exists p | exists p']; (split; [assumption | lra]).
      * (* 90 *)
        exists (x c - right b), (x c - left b).
        unfold Axis.heading, Axis.onAxis, Axis.along.
        rewrite H90, sin_PI2, cos_PI2. simpl.
        split; [unfold pt; f_equal; f_equal; ring|]. split.
        -- intros p Hp. destruct (Hin p Hp) as [Hx _]. lra.
        -- intros Hne. destruct (Hat Hne) as ((p & Hp & Ep) & _ & (p' & Hp' & Ep') & _).
           split; [exists p' | exists p]; (split; [assumption | lra]).
      * (* 180 *)
        exists (y c - bottom b), (y c - top b).
        unfold Axis.heading, Axis.onAxis, Axis.along.
        rewrite H180, sin_PI, cos_PI. simpl.
        split; [unfold pt; f_equal; f_equal; ring|]. split.
        -- intros p Hp. destruct (Hin p Hp) as [_ Hy]. lra.
        -- intros Hne. destruct (Hat Hne) as (_ & (p & Hp & Ep) & _ & (p' & Hp' & Ep')).
           split; [exists p' | exists p]; (split; [assumption | lra]).
  - (* any other direction: rotate, take the box, rotate back *)
    assert (Hd : toRadians (IZR (360 - d)) <> 0).
    { intros H%toRadians_zero. apply Hrem. replace d with 360%Z by lia. reflexivity. }
    rewrite heading_angle.
    set (r := toRadians (IZR (360 - d))) in *.
    rewrite (rotatePolygon_points poly r c Hd).
    rewrite (rotatePolygon_points _ (- r) c) by lra.
    set (rot := fun p : Point =>
                  pt (x c + (x p - x c) * cos r - (y p - y c) * sin r)
                     (y c + (x p - x c) * sin r + (y p - y c) * cos r)).
    pose proof (getBounds_contains (map rot poly)) as Hin.
    pose proof (getBounds_attained (map rot poly)) as Hat.
    set (b := getBounds (map rot poly)) in *.
    simpl. intros [= <-].
    exists (top b - y c), (bottom b - y c).
    assert (Hy : forall p, y (rot p) = y c + Axis.along (sin r, cos r) c p).
    { intros p. unfold rot, Axis.along. simpl. ring. }
    split; [|split].
    + unfold Axis.onAxis, pt. simpl. rewrite sin_neg, cos_neg.
      f_equal; f_equal; ring.
    + intros p Hp. destruct (Hin (rot p)) as [_ Hb]; [by apply in_map|].
      rewrite Hy in Hb. lra.
    + intros Hne.
      assert (Hne' : map rot poly <> []) by (destruct poly; [congruence | discriminate]).
      destruct (Hat Hne') as (_ & (p & Hp & Ep) & _ & (p' & Hp' & Ep')).
      apply in_map_iff in Hp as (q & <- & Hq).
      apply in_map_iff in Hp' as (q' & <- & Hq').
      rewrite Hy in Ep, Ep'.
      split; [exists q | exists q']; (split; [assumption | lra]).
Qed.



Lemma heading_reversed (d : Z) :
  Axis.heading (d + 180)
  = (- (Axis.heading d).1, - (Axis.heading d).2).
Proof.
  unfold Axis.heading. simpl.
  replace (toRadians (IZR (d + 180))) with (toRadians (IZR d) + PI)
    by (unfold toRadians; rewrite plus_IZR; lra).
  rewrite neg_sin, neg_cos. reflexivity.
Qed.


Lemma minMaxPolygonPointsAlongAxis_branch poly (d : Z) c :
  if hasBranch d then is_Some (minMaxPolygonPointsAlongAxis poly d c)
  else minMaxPolygonPointsAlongAxis poly d c = None.
Proof.
  unfold hasBranch, minMaxPolygonPointsAlongAxis.
  destruct (Z.eqb_spec (Z.rem d 90) 0) as [Hrem | Hrem]; simpl.
  - destruct d as [|q|q]; simpl; eauto.
    repeat match goal with
           | |- context [match ?q with xI _ => _ | xO _ => _ | xH => _ end] =>
               is_var q; destruct q
           end; simpl; eauto.
  - assert (Hd : toRadians (IZR (360 - d)) <> 0).
    { intros H%toRadians_zero. apply Hrem. replace d with 360%Z by lia. reflexivity. }
    rewrite (rotatePolygon_points _ (- toRadians (IZR (360 - d))) c) by lra.
    simpl. eauto.
Qed.

End AxisFacts.




(** ** A whole number of turns *)

Section WholeTurns.
Import Geometry.
Local Open Scope R_scope.

Lemma heading_turns (d k : Z) : Axis.heading (d + 360 * k) = Axis.heading d.
Proof.
  unfold Axis.heading.
  replace (toRadians (IZR (d + 360 * k))) with (toRadians (IZR d) + 2 * IZR k * PI)
    by (unfold toRadians; rewrite plus_IZR, mult_IZR; lra).
  by rewrite sin_period_Z, cos_period_Z.
Qed.



End WholeTurns.

(** ** The hatching of a ramp *)

Lemma le_true a b : JS.le a b = true <-> (a <= b)%Q.
Proof. apply Qle_bool_iff. Qed.

Lemma le_false a b : JS.le a b = false <-> (b < a)%Q.
Proof.
  unfold JS.le. split.
  - intros H. apply Qnot_le_lt. intros Hle%Qle_bool_iff. congruence.
  - intros H. destruct (Qle_bool a b) eqn:E; [|reflexivity].
    apply Qle_bool_iff in E. exfalso. apply (Qlt_not_le _ _ H E).
Qed.

(** For a direction from 0 to 360 the two components add up to 1 in
    absolute value; above 360 there is no hatching at all. *)
Theorem hatch_components_add_up_to_one (direction : Q) :
  ((0 <= direction)%Q -> (direction <= 360)%Q ->
   exists h, calculateHatchXY direction = Some h
             /\ (Qabs (hatchX h) + Qabs (hatchY h) == 1)%Q)
  /\ ((360 < direction)%Q -> calculateHatchXY direction = None).
Proof.
  unfold calculateHatchXY. split.
  - intros H0 H360.
    destruct (JS.le direction 90) eqn:E1;
      [apply le_true in E1 | apply le_false in E1;
       destruct (JS.le direction 180) eqn:E2;
         [apply le_true in E2 | apply le_false in E2;
          destruct (JS.le direction 270) eqn:E3;
            [apply le_true in E3 | apply le_false in E3;
             destruct (JS.le direction 360) eqn:E4;
               [apply le_true in E4 | apply le_false in E4; exfalso; Lqa.lra]]]];
      eexists; (split; [reflexivity|]); simpl;
      unfold Qdiv; change (/ 90)%Q with (1 # 90)%Q.
    + rewrite (Qabs_neg (- (direction * (1 # 90)))), (Qabs_pos (1 - direction * (1 # 90))); Lqa.lra.
    + rewrite (Qabs_pos (1 - (direction - 90) * (1 # 90))), (Qabs_pos ((direction - 90) * (1 # 90)));
        Lqa.lra.
    + rewrite (Qabs_pos ((direction - 180) * (1 # 90))), (Qabs_neg ((direction - 180) * (1 # 90) - 1));
        Lqa.lra.
    + rewrite (Qabs_neg ((direction - 270) * (1 # 90) - 1)), (Qabs_neg (- ((direction - 270) * (1 # 90))));
        Lqa.lra.
  - intros H.
    rewrite (proj2 (le_false direction 90)) by Lqa.lra.
    rewrite (proj2 (le_false direction 180)) by Lqa.lra.
    rewrite (proj2 (le_false direction 270)) by Lqa.lra.
    rewrite (proj2 (le_false direction 360)) by Lqa.lra.
    reflexivity.
Qed.

Lemma hatch_components_add_up_to_one_witness :
  (exists h, calculateHatchXY 30 = Some h
             /\ (Qabs (hatchX h) + Qabs (hatchY h) == 1)%Q)
  /\ calculateHatchXY 400 = None.
Proof.
  split.
  - apply (proj1 (hatch_components_add_up_to_one 30)); [Lqa.lra | Lqa.lra].
  - apply (proj2 (hatch_components_add_up_to_one 400)). Lqa.lra.
Defined.

(** Two opposite directions have opposite hatchings, except 0 and 180,
    which share the horizontal one. *)
Theorem hatch_of_opposite_direction (direction : Q) :
  (0 < direction)%Q -> (direction <= 180)%Q ->
  exists h h',
    calculateHatchXY direction = Some h
    /\ calculateHatchXY (direction + 180) = Some h'
    /\ (hatchX h' == - hatchX h)%Q /\ (hatchY h' == - hatchY h)%Q.
Proof.
  intros H0 H180. unfold calculateHatchXY.
  rewrite (proj2 (le_false (direction + 180) 90)) by Lqa.lra.
  rewrite (proj2 (le_false (direction + 180) 180)) by Lqa.lra.
  destruct (JS.le direction 90) eqn:E1.
  - apply le_true in E1.
    rewrite (proj2 (le_true (direction + 180) 270)) by Lqa.lra.
    eexists. eexists. split; [reflexivity|]. split; [reflexivity|].
    simpl. split; field.
  - apply le_false in E1.
    rewrite (proj2 (le_true direction 180)) by Lqa.lra.
    rewrite (proj2 (le_false (direction + 180) 270)) by Lqa.lra.
    rewrite (proj2 (le_true (direction + 180) 360)) by Lqa.lra.
    eexists. eexists. split; [reflexivity|]. split; [reflexivity|].
    simpl. split; field.
Qed.

Lemma hatch_of_opposite_direction_witness :
  exists h h',
    calculateHatchXY 45 = Some h
    /\ calculateHatchXY (45 + 180) = Some h'
    /\ (hatchX h' == - hatchX h)%Q /\ (hatchY h' == - hatchY h)%Q.
Proof.
  apply (hatch_of_opposite_direction 45); Lqa.lra.
Defined.
(** ** The wrap of [segmentizeMovement] *)

Lemma adjustSegments_one fuel segments behavior freefall terrainFloor :
  adjustSegments fuel segments behavior freefall terrainFloor
  = if adjusts behavior then
      match system_algorithm behavior with
      | PLATEAU => modifySegmentsForPlateau fuel segments behavior freefall terrainFloor
      | STAIRS => modifySegmentsForStairs fuel segments behavior terrainFloor
      | RAMP => modifySegmentsForRamp fuel segments behavior freefall terrainFloor
      | NONE => Some segments
      end
    else Some segments.
Proof.
  unfold adjustSegments, adjusts, modifySegmentsForPlateau, modifySegmentsForStairs,
    modifySegmentsForRamp.
  destruct (String.eqb (behavior_type behavior) setElevation_type);
    [|reflexivity].
  destruct (disabled behavior); [reflexivity|]. simpl.
  destruct (system_algorithm behavior); simpl; try reflexivity.
  - by destruct (Plateau.loop _ _ _ _ _).
  - by destruct (Stairs.loop _ _ _ _).
Qed.

Lemma adjustForBehaviors_filter fuel behaviors freefall terrainFloor :
  forall segments,
    adjustForBehaviors fuel segments behaviors freefall terrainFloor
    = adjustForBehaviors fuel segments (List.filter adjusts behaviors) freefall terrainFloor.
Proof.
  induction behaviors as [|behavior behaviors IH]; intros segments; simpl; [reflexivity|].
  destruct (adjusts behavior) eqn:Ha; simpl.
  - destruct (adjustSegments _ _ _ _ _); simpl; [apply IH | reflexivity].
  - rewrite adjustSegments_one, Ha. simpl. apply IH.
Qed.

(** On each behavior at most one of the three adjusters runs, the one of
    its algorithm; a behavior that is disabled, of another type or without
    algorithm counts for nothing, wherever it stands among the behaviors of
    the region. *)
Theorem one_adjuster_per_behavior
    (fuel : nat) (segments : list Entry) (behavior : Behavior)
    (behaviors : list Behavior) (freefall : bool) (terrainFloor : Q) :
  adjustSegments fuel segments behavior freefall terrainFloor
  = (if adjusts behavior then
       match system_algorithm behavior with
       | PLATEAU => modifySegmentsForPlateau fuel segments behavior freefall terrainFloor
       | STAIRS => modifySegmentsForStairs fuel segments behavior terrainFloor
       | RAMP => modifySegmentsForRamp fuel segments behavior freefall terrainFloor
       | NONE => Some segments
       end
     else Some segments)
  /\ segmentizeMovement fuel segments behaviors freefall terrainFloor
     = segmentizeMovement fuel segments (List.filter adjusts behaviors) freefall terrainFloor.
Proof.
  split; [apply adjustSegments_one|].
  unfold segmentizeMovement. destruct (length segments =? 0); [reflexivity|].
  apply adjustForBehaviors_filter.
Qed.

(** ** [pathFromSegments] *)

Lemma pathLoop_spec segments :
  forall path,
    pathLoop segments path
    = l ← defined segments; Some (path ++ concat (waypointsOf <$> l)).
Proof.
  induction segments as [|[s|] segments IH]; intros path; simpl.
  - by rewrite app_nil_r.
  - rewrite IH. destruct (defined segments) as [l|]; simpl; [|reflexivity].
    unfold waypointsOf at 2. destruct (type s); simpl; by rewrite <- app_assoc.
  - reflexivity.
Qed.

Lemma defined_None segments : defined segments = None <-> In None segments.
Proof.
  induction segments as [|[s|] segments IH]; simpl.
  - split; [discriminate | tauto].
  - destruct (defined segments) as [l|]; simpl.
    + split; [discriminate|]. intros [H | H]; [discriminate|].
      apply IH in H. discriminate.
    + split; [|reflexivity]. intros _. right. by apply IH.
  - split; [by left | reflexivity].
Qed.

(** The path lists, after [start], the end of every [ENTER] and [EXIT]
    segment and both ends of every [MOVE] segment, in their order, then
    [end]: a waypoint shared by two [MOVE] segments is listed twice.  The
    function has no test for holes, which the adjusters skip: it raises a
    [TypeError] exactly when the array has one. *)
Theorem path_lists_segment_ends
    (segments : list Entry) (start stop : option Waypoint) :
  (pathFromSegments segments start stop = None <-> In None segments)
  /\ forall l, defined segments = Some l ->
       pathFromSegments segments start stop
       = Some (match start with Some w => [w] | None => [] end
               ++ concat (waypointsOf <$> l)
               ++ match stop with Some w => [w] | None => [] end).
Proof.
  unfold pathFromSegments. rewrite pathLoop_spec. split.
  - rewrite <- defined_None. destruct (defined segments); simpl; [|tauto].
    split; discriminate.
  - intros l ->. simpl. destruct stop; [by rewrite <- app_assoc | by rewrite app_nil_r].
Qed.

Lemma path_lists_segment_ends_witness :
  pathFromSegments groundPath (Some (wp 0 0 0)) None
  = Some [wp 0 0 0; wp 1 0 0; wp 1 0 0; wp 2 0 0; wp 3 0 0].
Proof.
  exact (proj2 (path_lists_segment_ends groundPath (Some (wp 0 0 0)) None)
           [groundEnter; groundMove; groundExit] eq_refl).
Defined.

(** ** [insertVerticalMoveToTerrainFloor], twice *)

Lemma strictEq_refl a : JS.strictEq a a = true.
Proof. apply Qeq_bool_refl. Qed.

(** At the index of a segment, [insertVerticalMoveToTerrainFloor] leaves
    the segment and the end of the one before it at the floor, so a second
    call at the place where the first one left the segment adds nothing and
    changes nothing. *)
Theorem vertical_move_inserted_once
    (i : nat) (segments : list Entry) (segment : Segment) (floor : Q) :
  segments !! i = Some (Some segment) ->
  insertVerticalMoveToTerrainFloor
    (i + (insertVerticalMoveToTerrainFloor i segments floor).2)
    (insertVerticalMoveToTerrainFloor i segments floor).1 floor
  = ((insertVerticalMoveToTerrainFloor i segments floor).1, 0).
Proof.
  intros Hl.
  destruct (insertVerticalMoveToTerrainFloor i segments floor) as [s1 k] eqn:E.
  cbn [fst snd]. unfold insertVerticalMoveToTerrainFloor in E.
  rewrite Hl in E. cbv zeta in E.
  assert (Hi : i < length segments) by (by apply lookup_lt_is_Some; eauto).
  set (s' := setElevations segment floor floor) in *.
  set (l' := <[i := Some s']> segments) in *.
  assert (Hl' : l' !! i = Some (Some s')) by (by apply list_lookup_insert_eq).
  match type of E with context [if ?c then _ else _] => destruct c eqn:Hc end;
    injection E as <- <-.
  - (* a vertical move was added: it ends at the floor *)
    match goal with |- context [JS.splice i 0 [Some ?w] l'] => set (v := w) end.
    assert (Hv : elevation (to v) = floor) by reflexivity.
    assert (Hsp : JS.splice i 0 [Some v] l' = take i l' ++ Some v :: drop i l')
      by (unfold JS.splice; by rewrite Nat.add_0_r).
    unfold Entry in *.
    assert (Htl : length (take i l') = i)
      by (rewrite length_take; unfold l'; rewrite length_insert; lia).
    assert (H1 : JS.splice i 0 [Some v] l' !! (i + 1) = Some (Some s')).
    { rewrite Hsp, lookup_app_r by (rewrite Htl; lia). rewrite Htl.
      replace (i + 1 - i) with 1 by lia. simpl.
      rewrite lookup_drop, Nat.add_0_r. exact Hl'. }
    assert (H0 : JS.splice i 0 [Some v] l' !! i = Some (Some v)).
    { rewrite Hsp, lookup_app_r by (rewrite Htl; lia).
      rewrite Htl, Nat.sub_diag. reflexivity. }
    unfold insertVerticalMoveToTerrainFloor, Entry. rewrite H1. cbv zeta.
    change (setElevations s' floor floor) with s'.
    rewrite (list_insert_id _ _ _ H1).
    replace (i + 1) with (S i) by lia. rewrite H0, Hv, strictEq_refl. reflexivity.
  - (* none was added: the entry before ends at the floor already *)
    rewrite Nat.add_0_r. unfold insertVerticalMoveToTerrainFloor, Entry in *.
    rewrite Hl'. cbv zeta.
    change (setElevations s' floor floor) with s'.
    rewrite (list_insert_id _ _ _ Hl').
    rewrite Hc. reflexivity.
Qed.

Lemma vertical_move_inserted_once_witness :
  insertVerticalMoveToTerrainFloor 1
    [Some highEnter; Some (mkSegment EXIT (wp 1 0 10) (wp 2 0 10))] 0
  = ([Some highEnter; Some (mkSegment MOVE (wp 1 0 10) (wp 1 0 0));
      Some (mkSegment EXIT (wp 1 0 0) (wp 2 0 0))], 1)
  /\ insertVerticalMoveToTerrainFloor 2
       [Some highEnter; Some (mkSegment MOVE (wp 1 0 10) (wp 1 0 0));
        Some (mkSegment EXIT (wp 1 0 0) (wp 2 0 0))] 0
     = ([Some highEnter; Some (mkSegment MOVE (wp 1 0 10) (wp 1 0 0));
         Some (mkSegment EXIT (wp 1 0 0) (wp 2 0 0))], 0).
Proof.
  split; [reflexivity|].
  exact (vertical_move_inserted_once 1
           [Some highEnter; Some (mkSegment EXIT (wp 1 0 10) (wp 2 0 10))]
           (mkSegment EXIT (wp 1 0 10) (wp 2 0 10)) 0 eq_refl).
Defined.

(** ** When the projection of a region fails *)

Section RegionFails.
Import Geometry.
Local Open Scope R_scope.

(** [minMaxRegionPointsAlongAxis] raises a [TypeError] exactly when the
    region has a positive polygon and the direction is a multiple of 90
    other than 0, 90, 180 and 270 (360, say, or -90): the projection of the
    polygon is then [undefined], and its [min] is read.  In every other
    case it returns, a pair or [undefined]. *)
Theorem region_projection_raises (region : Region) (d : Z) :
  minMaxRegionPointsAlongAxis region d = None
  <-> hasBranch d = false
      /\ exists poly, In poly (polygons region) /\ _isPositive poly = true.
Proof.
  unfold minMaxRegionPointsAlongAxis.
  destruct (filter _ (polygons region)) as [|poly0 polys] eqn:Hf.
  - split; [discriminate|]. intros (_ & poly & Hin & Hpos).
    assert (Hel : poly ∈ filter (fun poly => _isPositive poly = true) (polygons region)).
    { apply list_elem_of_filter. split; [exact Hpos | by apply list_elem_of_In]. }
    rewrite Hf in Hel. by apply elem_of_nil in Hel.
  - assert (Hel : poly0 ∈ filter (fun poly => _isPositive poly = true) (polygons region))
      by (rewrite Hf; left).
    apply list_elem_of_filter in Hel as [Hpos Hin%list_elem_of_In].
    pose proof (minMaxPolygonPointsAlongAxis_branch (points poly0) d (bounds_center region))
      as Hb.
    destruct (hasBranch d) eqn:Hd.
    + destruct Hb as [first Hfirst]. rewrite Hfirst. cbv zeta.
      rewrite regionLoop_total; [|reflexivity|reflexivity|].
      * split; [discriminate | intros [? _]; discriminate].
      * apply Forall_forall. intros poly _.
        pose proof (minMaxPolygonPointsAlongAxis_branch (points poly) d
                      (bounds_center region)) as Hp.
        by rewrite Hd in Hp.
    + rewrite Hb. split; [|reflexivity]. intros _. split; [reflexivity|].
      exists poly0. by split.
Qed.
End RegionFails.
(** ** Moving inside a plateau *)

(** A [MOVE] segment met after the path has entered the region (and not
    left it since) is raised to the plateau elevation at both ends, and
    never lowered: a waypoint above the plateau stays where it is.  A
    [MOVE] segment met outside is left as it is, unless freefall is on. *)
Theorem plateau_raises_moves_inside
    (behavior : Behavior) (freefall : bool) (terrainFloor : Q) (fuel : nat)
    (pre post out : list Entry) (move : Segment) :
  active behavior PLATEAU ->
  type move = MOVE ->
  modifySegmentsForPlateau fuel (pre ++ Some move :: post) behavior freefall terrainFloor
    = Some out ->
  let raised :=
    {| type := MOVE;
       from := {| x := x (from move); y := y (from move);
                  elevation := JS.Math_max (system_elevation behavior)
                                 (elevation (from move)) |};
       to := {| x := x (to move); y := y (to move);
                elevation := JS.Math_max (system_elevation behavior)
                               (elevation (to move)) |} |} in
  (system_elevation behavior <= elevation (from raised)
   /\ elevation (from move) <= elevation (from raised)
   /\ system_elevation behavior <= elevation (to raised)
   /\ elevation (to move) <= elevation (to raised))%Q
  /\ (enteredAfter false pre = true ->
      exists pre' post',
        modifySegmentsForPlateau fuel pre behavior freefall terrainFloor = Some pre'
        /\ out = pre' ++ Some raised :: post')
  /\ (enteredAfter false pre = false -> freefall = false ->
      exists pre' post',
        modifySegmentsForPlateau fuel pre behavior freefall terrainFloor = Some pre'
        /\ out = pre' ++ Some move :: post').
Proof.
  intros Hact Htype Hrun raised. split.
  { simpl.
    destruct (Math_max_spec (system_elevation behavior) (elevation (from move)))
      as (H1 & H2 & _).
    destruct (Math_max_spec (system_elevation behavior) (elevation (to move)))
      as (H3 & H4 & _).
    tauto. }
  rewrite PlateauScan.modifySegmentsForPlateau_scan in Hrun by exact Hact.
  destruct (PlateauView.scan _ _ _ fuel [] _ false) as [[out0 e0]|] eqn:Hscan;
    [|discriminate].
  simpl in Hrun. injection Hrun as ->.
  destruct (PlateauScan.scan_app _ _ _ _ _ _ _ _ _ Hscan) as (pre' & e1 & Hpre & Hrest).
  pose proof (plateau_scan_entered _ _ _ _ _ _ _ _ _ Hpre) as He1.
  assert (Hpre' : modifySegmentsForPlateau fuel pre behavior freefall terrainFloor
                  = Some pre').
  { rewrite PlateauScan.modifySegmentsForPlateau_scan by exact Hact. by rewrite Hpre. }
  destruct fuel as [|fuel]; [discriminate|].
  simpl in Hrest. rewrite Htype in Hrest.
  split.
  - intros Hent. rewrite Hent in He1. subst e1.
    destruct (PlateauScan.scan_prefix _ _ _ _ _ _ _ _ _ Hrest) as [post' Hout].
    exists pre', post'. split; [exact Hpre'|].
    rewrite Hout, <- app_assoc. unfold raised. rewrite <- Htype. reflexivity.
  - intros Hent Hff. rewrite Hent in He1. subst e1. rewrite Hff in Hrest. simpl in Hrest.
    destruct (PlateauScan.scan_prefix _ _ _ _ _ _ _ _ _ Hrest) as [post' Hout].
    exists pre', post'. split; [exact Hpre'|].
    rewrite Hout, <- app_assoc. reflexivity.
Qed.

Lemma plateau_raises_moves_inside_witness :
  exists pre' post',
    modifySegmentsForPlateau 3 [Some highEnter] (plateauBehavior 10 false) false 0
    = Some pre'
    /\ [Some highEnter; Some (mkSegment MOVE (wp 1 0 10) (wp 2 0 10)); Some groundExit]
       = pre' ++ Some (mkSegment MOVE (wp 1 0 10) (wp 2 0 10)) :: post'.
Proof.
  assert (Hact : active (plateauBehavior 10 false) PLATEAU) by (repeat split).
  destruct (plateau_raises_moves_inside (plateauBehavior 10 false) false 0 3
              [Some highEnter] [Some groundExit] _ descendingMove Hact eq_refl eq_refl)
    as (_ & Hin & _).
  exact (Hin eq_refl).
Defined.

(** ** Leaving stairs *)

Lemma stairs_scan_entered behavior terrainFloor done todo vars :
  (StairsView.scan behavior terrainFloor done todo vars).2.1.1
  = enteredAfter vars.1.1 todo.
Proof.
  revert done vars. induction todo as [|cur rest IH]; intros done vars; simpl;
    [reflexivity|].
  destruct (StairsView.emit behavior terrainFloor done cur vars) as [out vars'] eqn:Hemit.
  rewrite IH. destruct vars as [[entered up] target]. simpl in *.
  destruct cur as [segment|]; [|injection Hemit as <- <-; reflexivity].
  destruct (type segment).
  - injection Hemit as <- <-. reflexivity.
  - destruct (negb entered); injection Hemit as <- <-; reflexivity.
  - destruct (negb (entered || _ || _)) eqn:Hc.
    + injection Hemit as <- <-. simpl.
      destruct entered; [discriminate | reflexivity].
    + destruct (negb (system_reset behavior)); injection Hemit as <- <-; reflexivity.
Qed.

(** The stairs adjuster at an [EXIT] segment.  With [reset] set, and when
    the path has entered the region or the segment starts exactly at the top
    or at the floor of the stairs, the segment has both its elevations set
    to the terrain floor, and one vertical [MOVE] segment is added before it
    unless the entry before it is missing or already ends at the floor.  In
    every other case the segment is left as it is.  The adjuster returns
    within as many iterations as the array is long. *)
Theorem stairs_exit_reset_to_floor
    (behavior : Behavior) (terrainFloor : Q) (fuel : nat)
    (pre post : list Entry) (segment : Segment) :
  active behavior STAIRS ->
  type segment = EXIT ->
  length (pre ++ Some segment :: post) <= fuel ->
  let leaves :=
    enteredAfter false pre
    || JS.strictEq (system_elevation behavior) (elevation (from segment))
    || JS.strictEq (system_floor behavior) (elevation (from segment)) in
  exists pre' post',
    let atFloor :=
      {| type := EXIT;
         from := {| x := x (from segment); y := y (from segment);
                    elevation := terrainFloor |};
         to := {| x := x (to segment); y := y (to segment);
                  elevation := terrainFloor |} |} in
    let added :=
      match last pre' with
      | Some (Some prevSegment) =>
          if JS.strictEq (elevation (to prevSegment)) terrainFloor then []
          else [Some {| type := MOVE;
                        from := {| x := x (to prevSegment); y := y (to prevSegment);
                                   elevation := elevation (to prevSegment) |};
                        to := {| x := x (to prevSegment); y := y (to prevSegment);
                                 elevation := terrainFloor |} |}]
      | _ => []
      end in
    modifySegmentsForStairs fuel pre behavior terrainFloor = Some pre'
    /\ modifySegmentsForStairs fuel (pre ++ Some segment :: post) behavior terrainFloor
       = Some (pre' ++ (if leaves && system_reset behavior
                        then added ++ [Some atFloor]
                        else [Some segment]) ++ post').
Proof.
  intros Hact Htype Hle leaves.
  rewrite !modifySegmentsForStairs_scan; try exact Hact; try exact Hle.
  2: { rewrite length_app in Hle. lia. }
  rewrite stairs_scan_app.
  pose proof (stairs_scan_entered behavior terrainFloor [] pre
                (false, true, system_elevation behavior)) as Hent.
  destruct (StairsView.scan behavior terrainFloor [] pre _) as [pre' [[e u] t]].
  simpl in Hent. subst e.
  simpl. rewrite Htype.
  fold leaves.
  destruct leaves; simpl.
  - destruct (system_reset behavior); simpl.
    + match goal with
      | |- context [StairsView.scan behavior terrainFloor ?d ?t ?v] =>
          destruct (stairs_scan_prefix behavior terrainFloor d t v) as [post' Hpost]
      end.
      exists pre', post'. split; [reflexivity|].
      rewrite Hpost, exitToFloor_spec, Htype, <- !app_assoc. reflexivity.
    + match goal with
      | |- context [StairsView.scan behavior terrainFloor ?d ?t ?v] =>
          destruct (stairs_scan_prefix behavior terrainFloor d t v) as [post' Hpost]
      end.
      exists pre', post'. split; [reflexivity|].
      rewrite Hpost, <- !app_assoc. reflexivity.
  - match goal with
    | |- context [StairsView.scan behavior terrainFloor ?d ?t ?v] =>
        destruct (stairs_scan_prefix behavior terrainFloor d t v) as [post' Hpost]
    end.
    exists pre', post'. split; [reflexivity|].
    rewrite Hpost, <- !app_assoc. reflexivity.
Qed.

Lemma stairs_exit_reset_to_floor_witness :
  exists pre' post',
    modifySegmentsForStairs 3 [Some groundEnter; Some groundMove]
      (stairsBehavior 30 0 true) 0 = Some pre'
    /\ modifySegmentsForStairs 3 ([Some groundEnter; Some groundMove] ++ [Some groundExit])
         (stairsBehavior 30 0 true) 0
       = Some (pre' ++ ([Some (mkSegment MOVE (wp 2 0 30) (wp 2 0 0))]
                        ++ [Some (mkSegment EXIT (wp 2 0 0) (wp 3 0 0))]) ++ post').
Proof.
  assert (Hact : active (stairsBehavior 30 0 true) STAIRS) by (repeat split).
  destruct (stairs_exit_reset_to_floor (stairsBehavior 30 0 true) 0 3
              [Some groundEnter; Some groundMove] [] groundExit Hact eq_refl (le_n 3))
    as (pre' & post' & Hpre & Hout).
  exists pre', post'. split; [exact Hpre|].
  vm_compute in Hpre. injection Hpre as <-. exact Hout.
Defined.
(** ** The ramp adjuster *)

Section RampScan.
Variables (behavior : Behavior) (freefall : bool) (terrainFloor : Q).
Abbreviation rscan := (RampView.scan behavior freefall terrainFloor).
Abbreviation remit := (RampView.emit behavior freefall terrainFloor).

Lemma writePrevTo_length (l : list Entry) i e : length (Ramp.writePrevTo l i e) = length l.
Proof.
  unfold Ramp.writePrevTo. destruct i as [|j]; [reflexivity|].
  destruct (l !! j) as [[prev|]|]; try reflexivity. by rewrite length_insert.
Qed.

Lemma writePrevTo_cut (done : list Entry) cur rest e :
  Ramp.writePrevTo (done ++ cur :: rest) (length done) e
  = Ramp.writePrevTo done (length done) e ++ cur :: rest.
Proof.
  destruct done as [|d done' _] using rev_ind; [reflexivity|].
  replace (length (done' ++ [d])) with (S (length done'))
    by (rewrite length_app; simpl; lia).
  unfold Ramp.writePrevTo. rewrite <- app_assoc. simpl.
  rewrite !lookup_cut.
  destruct d as [prev|]; [|by rewrite <- app_assoc].
  rewrite !insert_cut. by rewrite <- app_assoc.
Qed.

Lemma writePrevTo_settled (done : list Entry) e :
  exists ext, Ramp.writePrevTo done (length done) e = removelast done ++ ext.
Proof.
  destruct done as [|d done' _] using rev_ind; [by exists []|].
  replace (length (done' ++ [d])) with (S (length done'))
    by (rewrite length_app; simpl; lia).
  unfold Ramp.writePrevTo. rewrite lookup_cut, removelast_last.
  destruct d as [prev|]; [|by exists [None]].
  rewrite insert_cut. eauto.
Qed.

Lemma settled_ext (done : list Entry) shared :
  exists ext, done = settled done shared ++ ext.
Proof.
  unfold settled. destruct shared; [|exists []; by rewrite app_nil_r].
  destruct done as [|d done' _] using rev_ind; [by exists []|].
  rewrite removelast_last. eauto.
Qed.

Ltac cut_solve :=
  unfold rampCut; f_equal;
  rewrite <- ?app_assoc, ?length_app; simpl; rewrite ?length_app; simpl;
  solve [reflexivity | lia].

Lemma ramp_step_cut done cur rest entered shared :
  Ramp.step behavior freefall terrainFloor (rampCut done (cur :: rest) entered shared)
  = let '(done', again, entered', shared') := remit done cur entered shared in
    rampCut done' (again ++ rest) entered' shared'.
Proof.
  unfold Ramp.step, Ramp.body, rampCut at 1. simpl.
  rewrite lookup_cut.
  destruct cur as [segment|]; simpl; [|cut_solve].
  destruct (type segment) eqn:Htype; simpl.
  - unfold Ramp.caseENTER. simpl.
    destruct (JS.strictEq _ _); simpl; [cut_solve|].
    rewrite splice_cut_after. cut_solve.
  - unfold Ramp.caseMOVE. simpl.
    destruct (entered || _); simpl.
    + destruct shared.
      * rewrite writePrevTo_cut.
        rewrite <- (writePrevTo_length done (length done)
                      (system_plateauElevation behavior (from segment))) at 1.
        rewrite insert_cut, ?Htype.
        unfold rampCut; f_equal;
          rewrite <- ?app_assoc, ?length_app, ?writePrevTo_length; simpl;
          rewrite ?length_app; simpl; solve [reflexivity | lia].
      * rewrite insert_cut, ?Htype. cut_solve.
    + destruct (negb (freefall || _)); simpl; [cut_solve|].
      destruct (system_plateauSegmentIntersection behavior _ _) as [ix|]; simpl;
        [|cut_solve].
      destruct (_ || _); simpl; [cut_solve|].
      rewrite splice_cut_replace. cut_solve.
  - unfold Ramp.caseEXIT. simpl.
    destruct (negb (system_reset behavior)); simpl; [cut_solve|].
    destruct (negb (freefall || _)); simpl; [cut_solve|].
    rewrite insertVerticalMoveToTerrainFloor_cut.
    destruct (exitToFloor_length done segment terrainFloor) as [Hl | Hl];
      unfold rampCut; f_equal; rewrite <- ?app_assoc, ?length_app, ?Hl;
      simpl; try reflexivity; lia.
Qed.

(** The loop of [modifySegmentsForRamp] and the scan on the cut array
    compute the same array, with the same bound. *)
Lemma ramp_loop_scan fuel done todo entered shared :
  Ramp.loop behavior freefall terrainFloor fuel (rampCut done todo entered shared)
  = (fun r => r.1.1) <$> rscan fuel done todo entered shared.
Proof.
  assert (Hend : forall fuel done entered shared,
            Ramp.loop behavior freefall terrainFloor fuel (rampCut done [] entered shared)
            = Some (done ++ [])).
  { intros [|f] d e s; unfold rampCut; simpl;
      rewrite app_nil_r, Nat.ltb_irrefl; reflexivity. }
  assert (Hlt : forall (done : list Entry) cur rest,
            (length done <? length (done ++ cur :: rest)) = true).
  { intros d c r. apply Nat.ltb_lt. rewrite length_app. simpl. lia. }
  revert done todo entered shared.
  induction fuel as [|fuel IH]; intros done todo entered shared;
    destruct todo as [|cur rest]; try (rewrite Hend, app_nil_r; reflexivity).
  - unfold rampCut. simpl. by rewrite Hlt.
  - change (Ramp.loop behavior freefall terrainFloor (S fuel)
              (rampCut done (cur :: rest) entered shared))
      with (if length done <? length (done ++ cur :: rest)
            then Ramp.loop behavior freefall terrainFloor fuel
                   (Ramp.step behavior freefall terrainFloor
                      (rampCut done (cur :: rest) entered shared))
            else Some (done ++ cur :: rest)).
    rewrite Hlt, ramp_step_cut. simpl.
    destruct (remit done cur entered shared) as [[[done' again] entered'] shared'].
    apply IH.
Qed.

Lemma modifySegmentsForRamp_scan fuel segments :
  active behavior RAMP ->
  modifySegmentsForRamp fuel segments behavior freefall terrainFloor
  = (fun r => r.1.1) <$> rscan fuel [] segments false false.
Proof.
  intros [Hg Ha]%active_guard. unfold modifySegmentsForRamp.
  rewrite Hg, Ha. simpl.
  apply (ramp_loop_scan fuel [] segments false false).
Qed.

Lemma ramp_scan_fuel_mono fuel fuel' done todo entered shared r :
  rscan fuel done todo entered shared = Some r -> fuel <= fuel' ->
  rscan fuel' done todo entered shared = Some r.
Proof.
  revert fuel' done todo entered shared.
  induction fuel as [|fuel IH]; intros fuel' done todo entered shared Hs Hle;
    destruct todo as [|cur rest]; simpl in Hs; try discriminate.
  - destruct fuel'; exact Hs.
  - destruct fuel'; exact Hs.
  - destruct fuel' as [|fuel']; [lia|]. simpl.
    destruct (remit done cur entered shared) as [[[done' again] entered'] shared'].
    apply IH; [exact Hs | lia].
Qed.

(** What an iteration does to the scanned part and to [shared]. *)
Lemma ramp_emit_shape done cur entered shared done' again entered' shared' :
  remit done cur entered shared = (done', again, entered', shared') ->
  (exists ext, settled done' shared' = settled done shared ++ ext)
  /\ (shared' = true -> again <> [])
  /\ (forall rest, enteredAfter entered' (again ++ rest)
                   = enteredAfter entered (cur :: rest))
  /\ (shared = false -> exists out, done' = done ++ out).
Proof.
  unfold RampView.emit.
  destruct (settled_ext done shared) as [ext0 Hext0].
  assert (Happ : forall xs, exists ext, settled (done ++ xs) false = settled done shared ++ ext).
  { intros xs. exists (ext0 ++ xs). simpl. rewrite Hext0 at 1. by rewrite <- app_assoc. }
  destruct cur as [segment|].
  2: { intros [= <- <- <- <-]. repeat split; [apply Happ | discriminate | eauto]. }
  simpl. destruct (type segment).
  - destruct (JS.strictEq _ _); intros [= <- <- <- <-];
      (repeat split; [apply Happ | discriminate | eauto]).
  - destruct (entered || _).
    + intros [= <- <- <- <-]. repeat split; [|discriminate|].
      * destruct shared; [|apply Happ].
        destruct (writePrevTo_settled done
                    (system_plateauElevation behavior (from segment))) as [ext ->].
        simpl. rewrite <- app_assoc. eauto.
      * intros ->. eauto.
    + destruct (negb (freefall || _)).
      { intros [= <- <- <- <-]. repeat split; [apply Happ | discriminate | eauto]. }
      destruct (system_plateauSegmentIntersection behavior _ _) as [ix|].
      2: { intros [= <- <- <- <-]. repeat split; [apply Happ | discriminate | eauto]. }
      destruct (_ || _); intros [= <- <- <- <-].
      { repeat split; [apply Happ | discriminate | eauto]. }
      repeat split; [|discriminate|eauto].
      simpl. rewrite removelast_last. exists ext0. exact Hext0.
  - destruct (negb (system_reset behavior)).
    { intros [= <- <- <- <-]. repeat split; [apply Happ | discriminate | eauto]. }
    destruct (negb _); intros [= <- <- <- <-];
      (repeat split; [apply Happ | discriminate | eauto]).
Qed.

(** The settled part of the scanned entries is never written again, and
    after the last iteration no waypoint is shared. *)
Lemma ramp_scan_shape fuel done todo entered shared out entered' shared' :
  rscan fuel done todo entered shared = Some (out, entered', shared') ->
  (exists tail, out = settled done shared ++ tail)
  /\ (todo <> [] -> shared' = false)
  /\ entered' = enteredAfter entered todo.
Proof.
  revert done todo entered shared.
  induction fuel as [|fuel IH]; intros done todo entered shared Hs;
    destruct todo as [|cur rest]; simpl in Hs; try discriminate.
  - injection Hs as <- <- <-. split; [apply settled_ext|]. by split.
  - injection Hs as <- <- <-. split; [apply settled_ext|]. by split.
  - destruct (remit done cur entered shared) as [[[done1 again] entered1] shared1] eqn:Hemit.
    apply ramp_emit_shape in Hemit as ([ext Hext] & Hsh & Hent & _).
    destruct (IH _ _ _ _ Hs) as ([tail ->] & Hlast & Hent').
    split; [|split].
    + rewrite Hext, <- app_assoc. eauto.
    + intros _. destruct (again ++ rest) as [|a l] eqn:Hl.
      * apply app_eq_nil in Hl as [-> ->]. destruct fuel; simpl in Hs.
        -- injection Hs as _ _ <-. destruct shared1; [|reflexivity].
           exfalso. by apply Hsh.
        -- injection Hs as _ _ <-. destruct shared1; [|reflexivity].
           exfalso. by apply Hsh.
      * by apply Hlast.
    + rewrite Hent'. apply Hent.
Qed.
End RampScan.

Section RampPaths.
Variables (behavior : Behavior) (freefall : bool) (terrainFloor : Q).
Abbreviation rscan' := (RampView.scan behavior freefall terrainFloor).
Abbreviation remit' := (RampView.emit behavior freefall terrainFloor).

(** A scan of [todo1 ++ todo2] is a scan of [todo1] followed by a scan of
    [todo2]. *)
Lemma ramp_scan_app fuel done todo1 todo2 entered shared r :
  rscan' fuel done (todo1 ++ todo2) entered shared = Some r ->
  exists done1 entered1 shared1,
    rscan' fuel done todo1 entered shared = Some (done1, entered1, shared1)
    /\ rscan' fuel done1 todo2 entered1 shared1 = Some r.
Proof.
  revert done todo1 entered shared.
  induction fuel as [|fuel IH]; intros done todo1 entered shared Hs.
  - destruct todo1 as [|cur rest]; simpl in *.
    + exists done, entered, shared. split; [reflexivity | exact Hs].
    + discriminate.
  - destruct todo1 as [|cur rest].
    + exists done, entered, shared. split; [reflexivity | exact Hs].
    + simpl in Hs.
      destruct (remit' done cur entered shared) as [[[d1 again] e1] s1] eqn:Hemit.
      rewrite app_assoc in Hs.
      destruct (IH _ _ _ _ Hs) as (done1 & entered1 & shared1 & H1 & H2).
      exists done1, entered1, shared1. split.
      * simpl. rewrite Hemit. exact H1.
      * apply (ramp_scan_fuel_mono _ _ _ fuel); [exact H2 | lia].
Qed.

(** The run of the adjuster on [pre ++ cur :: post], cut at [cur]: the
    entries before are adjusted as they are on their own, and no waypoint
    is shared when the scan reaches [cur]. *)
Lemma ramp_run_cut fuel pre cur post out :
  active behavior RAMP ->
  modifySegmentsForRamp fuel (pre ++ cur :: post) behavior freefall terrainFloor
    = Some out ->
  exists pre' entered' shared',
    modifySegmentsForRamp fuel pre behavior freefall terrainFloor = Some pre'
    /\ rscan' fuel pre' (cur :: post) (enteredAfter false pre) false
       = Some (out, entered', shared').
Proof.
  intros Hact Hrun.
  rewrite modifySegmentsForRamp_scan in Hrun by exact Hact.
  destruct (rscan' fuel [] _ false false) as [[[out0 e0] s0]|] eqn:Hscan; [|discriminate].
  simpl in Hrun. injection Hrun as ->.
  destruct (ramp_scan_app _ _ _ _ _ _ _ Hscan) as (pre' & e1 & s1 & Hpre & Hrest).
  destruct (ramp_scan_shape _ _ _ _ _ _ _ _ _ _ _ Hpre) as (_ & Hsh & ->).
  assert (Hs1 : s1 = false).
  { destruct pre as [|p pre]; [|by apply Hsh].
    destruct fuel; simpl in Hpre; congruence. }
  subst s1. exists pre', e0, s0. split; [|exact Hrest].
  rewrite modifySegmentsForRamp_scan by exact Hact. by rewrite Hpre.
Qed.

Hypothesis intersection_on_ramp :
  forall a b ix,
    system_plateauSegmentIntersection behavior a b = Some ix ->
    JS.almostEqual (elevation ix) (system_plateauElevation behavior ix) = true.

Lemma ramp_scan_returns fuel :
  forall done todo entered shared,
    rampTotalIterations behavior todo <= fuel ->
    is_Some (rscan' fuel done todo entered shared).
Proof.
  induction fuel as [|fuel IH]; intros done todo entered shared Hle;
    destruct todo as [|cur rest]; simpl; eauto.
  - exfalso. simpl in Hle. destruct cur as [segment|]; simpl in Hle;
      [destruct (JS.almostEqual _ _)|]; lia.
  - assert (Hstep : rampTotalIterations behavior
                      ((remit' done cur entered shared).1.1.2 ++ rest)
                    < rampTotalIterations behavior (cur :: rest)).
    { unfold RampView.emit. destruct cur as [segment|]; [|simpl; lia].
      assert (H1 : 1 <= rampIterations behavior (Some segment))
        by (simpl; destruct (JS.almostEqual _ _); lia).
      destruct (type segment).
      - destruct (JS.strictEq _ _); simpl in *; lia.
      - destruct (JS.almostEqual (elevation (from segment))
                    (system_plateauElevation behavior (from segment))) eqn:Hon.
        { rewrite orb_true_r. simpl in *. lia. }
        destruct entered; [simpl in *; lia|]. simpl orb. cbv iota.
        destruct (negb (freefall || _)); [simpl in *; lia|].
        destruct (system_plateauSegmentIntersection behavior _ _) as [ix|] eqn:Hix;
          [|simpl in *; lia].
        destruct (_ || _); [simpl in *; lia|].
        simpl. rewrite Hon, (intersection_on_ramp _ _ _ Hix). lia.
      - destruct (negb (system_reset behavior)); [simpl in *; lia|].
        destruct (negb _); simpl in *; lia. }
    destruct (remit' done cur entered shared) as [[[done' again] entered'] shared'].
    apply IH. simpl in Hstep, Hle. lia.
Qed.

Lemma ramp_iterations_bound (todo : list Entry) :
  rampTotalIterations behavior todo <= 2 * length todo.
Proof.
  induction todo as [|cur rest IH]; simpl; [lia|].
  destruct cur as [segment|]; simpl; [destruct (JS.almostEqual _ _)|]; lia.
Qed.
End RampPaths.

(** In a path that enters a ramp region (an [ENTER] segment at any place
    of the array), a destination that is not at the elevation of the ramp
    there gets exactly one vertical [MOVE] segment right after the [ENTER]
    segment, from its elevation to the ramp, up or down; a destination on
    the ramp gets none.  The entries before are adjusted as they are on
    their own, and the scan goes on behind the new segment, on the entries
    that followed the [ENTER] segment, with [entered] set. *)
Theorem ramp_enter_one_vertical_move
    (behavior : Behavior) (freefall : bool) (terrainFloor : Q) (fuel : nat)
    (pre post out : list Entry) (segment : Segment) :
  active behavior RAMP ->
  type segment = ENTER ->
  modifySegmentsForRamp fuel (pre ++ Some segment :: post) behavior freefall terrainFloor
    = Some out ->
  let surface := system_plateauElevation behavior (to segment) in
  let vSegment :=
    {| type := MOVE;
       from := {| x := x (to segment); y := y (to segment);
                  elevation := elevation (to segment) |};
       to := {| x := x (to segment); y := y (to segment); elevation := surface |} |} in
  let added :=
    if JS.strictEq surface (elevation (to segment)) then [] else [Some vSegment] in
  exists pre' post',
    modifySegmentsForRamp fuel pre behavior freefall terrainFloor = Some pre'
    /\ out = pre' ++ Some segment :: added ++ post'
    /\ Ramp.loop behavior freefall terrainFloor fuel
         (Ramp.mkScan (pre' ++ Some segment :: added ++ post)
            (length pre' + 1 + length added)
            (length (pre' ++ Some segment :: added ++ post))
            true false)
       = Some out.
Proof.
  intros Hact Htype Hrun surface vSegment added.
  destruct (ramp_run_cut _ _ _ _ _ _ _ _ Hact Hrun) as (pre' & e' & s' & Hpre & Hrest).
  exists pre'. destruct fuel as [|fuel]; [discriminate|].
  simpl in Hrest. rewrite Htype in Hrest.
  fold surface in Hrest.
  assert (Hgo : RampView.scan behavior freefall terrainFloor fuel
                  (pre' ++ Some segment :: added) post true false
                = Some (out, e', s')).
  { unfold added. destruct (JS.strictEq surface (elevation (to segment))); exact Hrest. }
  clearbody added. clear Hrest.
  pose proof (ramp_scan_shape _ _ _ _ _ _ _ _ _ _ _ Hgo) as ([post' Hout] & _).
  exists post'. split; [exact Hpre|]. split.
  - rewrite Hout. simpl. rewrite <- app_assoc. reflexivity.
  - apply (ramp_scan_fuel_mono _ _ _ _ (S fuel)) in Hgo; [|lia].
    pose proof (ramp_loop_scan behavior freefall terrainFloor (S fuel)
                  (pre' ++ Some segment :: added) post true false) as Hloop.
    rewrite Hgo in Hloop. etrans; [|exact Hloop].
    f_equal. unfold rampCut.
    f_equal; rewrite <- ?app_assoc, ?length_app; simpl; rewrite ?length_app;
      try done; unfold Entry in *; simpl; lia.
Qed.

Lemma ramp_enter_one_vertical_move_witness :
  exists pre' post',
    modifySegmentsForRamp 3 [] (rampBehavior (fun w => x w) (fun _ _ => None) false) false 0
    = Some pre'
    /\ [Some groundEnter;
        Some (mkSegment MOVE (wp 1 0 0) (wp 1 0 1));
        Some (mkSegment MOVE (wp 1 0 1) (wp 2 0 2));
        Some groundExit]
       = pre' ++ Some groundEnter :: [Some (mkSegment MOVE (wp 1 0 0) (wp 1 0 1))] ++ post'
    /\ Ramp.loop (rampBehavior (fun w => x w) (fun _ _ => None) false) false 0 3
         (Ramp.mkScan
            (pre' ++ Some groundEnter :: [Some (mkSegment MOVE (wp 1 0 0) (wp 1 0 1))]
                  ++ [Some groundMove; Some groundExit])
            (length pre' + 1 + 1)
            (length (pre' ++ Some groundEnter
                          :: [Some (mkSegment MOVE (wp 1 0 0) (wp 1 0 1))]
                          ++ [Some groundMove; Some groundExit]))
            true false)
       = Some [Some groundEnter;
               Some (mkSegment MOVE (wp 1 0 0) (wp 1 0 1));
               Some (mkSegment MOVE (wp 1 0 1) (wp 2 0 2));
               Some groundExit].
Proof.
  apply (ramp_enter_one_vertical_move
           (rampBehavior (fun w => x w) (fun _ _ => None) false) false 0 3
           [] [Some groundMove; Some groundExit] _ groundEnter);
    [repeat split | reflexivity | reflexivity].
Defined.

(** A [MOVE] segment met after the path has entered the ramp, or that
    starts on the ramp, has each end set to the elevation of the ramp
    there, whether that raises or lowers it: unlike on a plateau, a
    waypoint above the ramp is brought down to it. *)
Theorem ramp_sets_moves_on_the_ramp
    (behavior : Behavior) (freefall : bool) (terrainFloor : Q) (fuel : nat)
    (pre post out : list Entry) (move : Segment) :
  active behavior RAMP ->
  type move = MOVE ->
  enteredAfter false pre = true
  \/ JS.almostEqual (elevation (from move)) (system_plateauElevation behavior (from move))
     = true ->
  modifySegmentsForRamp fuel (pre ++ Some move :: post) behavior freefall terrainFloor
    = Some out ->
  exists pre' post',
    modifySegmentsForRamp fuel pre behavior freefall terrainFloor = Some pre'
    /\ out = pre' ++ Some {| type := MOVE;
                             from := {| x := x (from move); y := y (from move);
                                        elevation :=
                                          system_plateauElevation behavior (from move) |};
                             to := {| x := x (to move); y := y (to move);
                                      elevation :=
                                        system_plateauElevation behavior (to move) |} |}
                  :: post'.
Proof.
  intros Hact Htype Hon Hrun.
  destruct (ramp_run_cut _ _ _ _ _ _ _ _ Hact Hrun) as (pre' & e' & s' & Hpre & Hrest).
  exists pre'. destruct fuel as [|fuel]; [discriminate|].
  simpl in Hrest. rewrite Htype in Hrest.
  assert (Hc : enteredAfter false pre
               || JS.almostEqual (elevation (from move))
                    (system_plateauElevation behavior (from move)) = true).
  { destruct Hon as [-> | ->]; [reflexivity | apply orb_true_r]. }
  rewrite Hc in Hrest.
  apply ramp_scan_shape in Hrest as ([post' ->] & _). exists post'.
  split; [exact Hpre|]. simpl. rewrite <- app_assoc. reflexivity.
Qed.

Lemma ramp_sets_moves_on_the_ramp_witness :
  exists pre' post',
    modifySegmentsForRamp 3 [Some highEnter]
      (rampBehavior (fun w => x w) (fun _ _ => None) false) false 0 = Some pre'
    /\ [Some highEnter;
        Some (mkSegment MOVE (wp 1 0 10) (wp 1 0 1));
        Some (mkSegment MOVE (wp 1 0 1) (wp 2 0 2));
        Some groundExit]
       = pre' ++ Some (mkSegment MOVE (wp 1 0 1) (wp 2 0 2)) :: post'.
Proof.
  apply (ramp_sets_moves_on_the_ramp
           (rampBehavior (fun w => x w) (fun _ _ => None) false) false 0 3
           [Some highEnter] [Some groundExit] _ descendingMove);
    [repeat split | reflexivity | left; reflexivity | reflexivity].
Defined.

(** The ramp adjuster returns within twice as many iterations as the array
    is long, with or without freefall, when the intersection method of the
    behavior yields points of the ramp: the second half of a split segment
    then starts on the ramp and is not split again. *)
Theorem ramp_adjuster_returns
    (behavior : Behavior) (freefall : bool) (terrainFloor : Q)
    (fuel : nat) (segments : list Entry) :
  (forall a b ix,
     system_plateauSegmentIntersection behavior a b = Some ix ->
     JS.almostEqual (elevation ix) (system_plateauElevation behavior ix) = true) ->
  2 * length segments <= fuel ->
  is_Some (modifySegmentsForRamp fuel segments behavior freefall terrainFloor).
Proof.
  intros Hix Hle. destruct (active_or_guarded behavior) as [Hact | Hguard].
  - destruct (system_algorithm behavior) eqn:Halg;
      try (rewrite modifySegmentsForRamp_guard;
           [eauto | apply (active_other_guard _ _ _ Hact); discriminate]).
    rewrite modifySegmentsForRamp_scan by exact Hact.
    destruct (ramp_scan_returns behavior freefall terrainFloor Hix fuel [] segments
                false false) as [r ->]; [|simpl; eauto].
    pose proof (ramp_iterations_bound behavior segments). lia.
  - rewrite modifySegmentsForRamp_guard by apply Hguard. eauto.
Qed.

Lemma ramp_adjuster_returns_witness :
  is_Some (modifySegmentsForRamp 2 [Some (mkSegment MOVE (wp 0 0 5) (wp 4 0 5))]
             (rampBehavior (fun w => x w)
                (fun a b => Some (wp (elevation a) (y a) (elevation a))) false) false 0).
Proof.
  apply (ramp_adjuster_returns
           (rampBehavior (fun w => x w)
              (fun a b => Some (wp (elevation a) (y a) (elevation a))) false) false 0 2
           [Some (mkSegment MOVE (wp 0 0 5) (wp 4 0 5))]).
  - intros a b ix H. simpl in H.
    assert (Hix : ix = wp (elevation a) (y a) (elevation a)) by congruence.
    subst ix. simpl.
    unfold JS.almostEqual, JS.lt.
    assert (H0 : (Qabs (elevation a - elevation a) == 0)%Q).
    { rewrite Qabs_pos; Lqa.lra. }
    destruct (Qle_bool (1 # 100000000) _) eqn:E; [|reflexivity].
    apply Qle_bool_iff in E. rewrite H0 in E. Lqa.lra.
  - simpl. lia.
Defined.

(** ** The adjuster of the elevation handler *)

Section ModifyScan.
Variable elevationUponEntry : Waypoint -> Q.
Variable plateauSegmentIntersection : Waypoint -> Waypoint -> option Waypoint.
Variable terrainFloor : Q.
Abbreviation mstep := (Modify.step elevationUponEntry plateauSegmentIntersection terrainFloor).
Abbreviation mloop := (Modify.loop elevationUponEntry plateauSegmentIntersection terrainFloor).
Abbreviation mscan := (ModifyView.scan elevationUponEntry plateauSegmentIntersection terrainFloor).
Abbreviation memit := (ModifyView.emit elevationUponEntry plateauSegmentIntersection terrainFloor).
Abbreviation floorHead := (ModifyView.floorHead terrainFloor).

Lemma floorFrom_cut (done rest : list Entry) :
  Modify.floorFrom terrainFloor (done ++ rest) (length done) = done ++ floorHead rest.
Proof.
  unfold Modify.floorFrom. destruct rest as [|cur rest].
  - rewrite lookup_ge_None_2 by (rewrite length_app; simpl; lia). reflexivity.
  - rewrite lookup_cut. destruct cur as [next|]; [|reflexivity].
    by rewrite insert_cut.
Qed.

Ltac cut_solve :=
  unfold modifyCut; apply (f_equal Some); f_equal;
  rewrite <- ?app_assoc, ?length_app, ?writePrevTo_length; simpl;
  rewrite ?length_app, ?writePrevTo_length; simpl;
  solve [reflexivity | lia].

Lemma writeFrom_cut done cur rest entered shared e :
  <[length done := cur]>
    (Modify.writeFrom (modifyCut done (Some e.1 :: rest) entered shared) e.2)
  = (if shared then Ramp.writePrevTo done (length done) e.2 else done) ++ cur :: rest.
Proof.
  unfold Modify.writeFrom, modifyCut. simpl. destruct shared.
  - rewrite writePrevTo_cut.
    rewrite <- (writePrevTo_length done (length done) e.2) at 1.
    by rewrite insert_cut.
  - by rewrite insert_cut.
Qed.

Lemma modify_step_cut done cur rest entered shared :
  mstep (modifyCut done (cur :: rest) entered shared)
  = (fun r : list Entry * list Entry * bool * bool * bool =>
       let '(done', again, entered', shared', floorNext) := r in
       modifyCut done' (again ++ if floorNext then floorHead rest else rest)
         entered' shared')
    <$> memit done cur entered shared.
Proof.
  unfold Modify.step, Modify.body, modifyCut at 1. simpl.
  rewrite lookup_cut.
  destruct cur as [segment|]; simpl; [|cut_solve].
  destruct (type segment) eqn:Htype; simpl.
  - unfold Modify.caseENTER. simpl.
    destruct (JS.strictEq _ _); simpl; [cut_solve|].
    rewrite splice_cut_after. cut_solve.
  - unfold Modify.caseMOVE. simpl.
    destruct (negb entered && _ && _); simpl.
    + destruct (if regionWaypointsXYEqual _ _ then _ else _) as [ix|]; simpl;
        [|reflexivity].
      pose proof (fun c e => writeFrom_cut done c rest entered shared (segment, e)) as Hw.
      unfold modifyCut in Hw. simpl in Hw. rewrite Hw. clear Hw.
      set (done1 := if shared then _ else done).
      assert (Hl : length done1 = length done)
        by (unfold done1; destruct shared; [apply writePrevTo_length | reflexivity]).
      rewrite <- Hl at 1. rewrite splice_cut_after.
      unfold modifyCut. rewrite ?Htype. apply (f_equal Some). f_equal;
        rewrite <- ?app_assoc, ?length_app, ?Hl; simpl; rewrite ?length_app; simpl;
        solve [reflexivity | lia].
    + destruct (entered || _); simpl.
      * pose proof (fun c e => writeFrom_cut done c rest entered shared (segment, e)) as Hw.
        unfold modifyCut in Hw. simpl in Hw. rewrite Hw. clear Hw.
        set (done1 := if shared then _ else done).
        assert (Hl : length done1 = length done)
          by (unfold done1; destruct shared; [apply writePrevTo_length | reflexivity]).
        unfold modifyCut. rewrite ?Htype. apply (f_equal Some). f_equal;
          rewrite <- ?app_assoc, ?length_app, ?Hl; simpl; rewrite ?length_app; simpl;
          solve [reflexivity | lia].
      * destruct (JS.strictEq _ _); simpl; cut_solve.
  - unfold Modify.caseEXIT. simpl.
    rewrite insertVerticalMoveToTerrainFloor_cut.
    replace (length done + (length (exitToFloor done segment terrainFloor) - 1) + 1)
      with (length (done ++ exitToFloor done segment terrainFloor))
      by (rewrite length_app;
          destruct (exitToFloor_length done segment terrainFloor) as [-> | ->]; lia).
    rewrite app_assoc, floorFrom_cut.
    destruct (exitToFloor_length done segment terrainFloor) as [Hl | Hl];
      unfold modifyCut; simpl; apply (f_equal Some); f_equal;
      rewrite <- ?app_assoc, ?length_app, ?Hl; simpl; rewrite ?length_app;
      try reflexivity; try lia.
    all: destruct rest as [|[next|] rest']; simpl; lia.
Qed.

(** The loop of [_modifySegments] and the scan on the cut array compute
    the same array, raise together, and share the bound. *)
Lemma modify_loop_scan fuel done todo entered shared :
  mloop fuel (modifyCut done todo entered shared)
  = (fun o : option (list Entry * bool * bool) => (fun r => r.1.1) <$> o)
    <$> mscan fuel done todo entered shared.
Proof.
  assert (Hend : forall fuel done entered shared,
            mloop fuel (modifyCut done [] entered shared) = Some (Some (done ++ []))).
  { intros [|f] d e s; unfold modifyCut; simpl;
      rewrite app_nil_r, Nat.ltb_irrefl; reflexivity. }
  assert (Hlt : forall (done : list Entry) cur rest,
            (length done <? length (done ++ cur :: rest)) = true).
  { intros d c r. apply Nat.ltb_lt. rewrite length_app. simpl. lia. }
  revert done todo entered shared.
  induction fuel as [|fuel IH]; intros done todo entered shared;
    destruct todo as [|cur rest]; try (rewrite Hend, app_nil_r; reflexivity).
  - unfold modifyCut. simpl. by rewrite Hlt.
  - change (mloop (S fuel) (modifyCut done (cur :: rest) entered shared))
      with (if length done <? length (done ++ cur :: rest)
            then match mstep (modifyCut done (cur :: rest) entered shared) with
                 | None => Some None
                 | Some st' => mloop fuel st'
                 end
            else Some (Some (done ++ cur :: rest))).
    rewrite Hlt, modify_step_cut. simpl.
    destruct (memit done cur entered shared)
      as [[[[[done' again] entered'] shared'] floorNext]|]; simpl; [|reflexivity].
    apply IH.
Qed.

Lemma _modifySegments_scan fuel segments :
  Modify._modifySegments true elevationUponEntry plateauSegmentIntersection terrainFloor
    fuel segments
  = (fun o : option (list Entry * bool * bool) => (fun r => r.1.1) <$> o)
    <$> mscan fuel [] segments false false.
Proof. apply (modify_loop_scan fuel [] segments false false). Qed.

Lemma modify_scan_fuel_mono fuel fuel' done todo entered shared r :
  mscan fuel done todo entered shared = Some r -> fuel <= fuel' ->
  mscan fuel' done todo entered shared = Some r.
Proof.
  revert fuel' done todo entered shared.
  induction fuel as [|fuel IH]; intros fuel' done todo entered shared Hs Hle;
    destruct todo as [|cur rest]; simpl in Hs; try discriminate.
  - destruct fuel'; exact Hs.
  - destruct fuel'; exact Hs.
  - destruct fuel' as [|fuel']; [lia|]. simpl.
    destruct (memit done cur entered shared)
      as [[[[[done' again] entered'] shared'] floorNext]|]; [|exact Hs].
    apply IH; [exact Hs | lia].
Qed.

Lemma floorHead_length todo : length (floorHead todo) = length todo.
Proof. by destruct todo as [|[next|] rest]. Qed.

Lemma floorHead_idem todo : floorHead (floorHead todo) = floorHead todo.
Proof. by destruct todo as [|[next|] rest]. Qed.

Lemma floorHead_app todo1 todo2 :
  exists todo2', floorHead (todo1 ++ todo2) = floorHead todo1 ++ todo2'
                 /\ (todo2' = todo2 \/ todo2' = floorHead todo2).
Proof.
  destruct todo1 as [|[next|] rest]; simpl; eauto.
Qed.

(** What an iteration does to the scanned part and to the variables. *)
Lemma modify_emit_shape done cur entered shared done' again entered' shared' floorNext :
  memit done cur entered shared = Some (done', again, entered', shared', floorNext) ->
  (exists ext, settled done' shared' = settled done shared ++ ext)
  /\ (shared' = true -> entered' = true /\ length again = 1)
  /\ (shared' = false -> again = [])
  /\ (entered = true -> shared' = false).
Proof.
  unfold ModifyView.emit.
  destruct (settled_ext done shared) as [ext0 Hext0].
  assert (Happ : forall xs, exists ext, settled (done ++ xs) false = settled done shared ++ ext).
  { intros xs. exists (ext0 ++ xs). simpl. rewrite Hext0 at 1. by rewrite <- app_assoc. }
  assert (Hwr : forall e xs,
            exists ext,
              (if shared then Ramp.writePrevTo done (length done) e else done) ++ xs
              = settled done shared ++ ext).
  { intros e xs. destruct shared; [|apply (Happ xs)].
    destruct (writePrevTo_settled done e) as [ext ->].
    simpl. rewrite <- app_assoc. eauto. }
  destruct cur as [segment|].
  2: { intros [= <- <- <- <- <-]. repeat split; try discriminate; try apply Happ. }
  simpl. destruct (type segment).
  - destruct (JS.strictEq _ _); intros [= <- <- <- <- <-];
      repeat split; try discriminate; try apply Happ.
  - destruct (negb entered && _ && _) eqn:Hc.
    + destruct (if regionWaypointsXYEqual _ _ then _ else _) as [ix|]; [|discriminate].
      intros [= <- <- <- <- <-]. repeat split; try discriminate.
      * simpl. rewrite removelast_last.
        destruct shared; simpl.
        -- destruct (writePrevTo_settled done
                       (JS.Math_max (elevationUponEntry ix) (elevation (from segment))))
             as [ext ->]. eauto.
        -- exists []. by rewrite app_nil_r.
      * intros ->. discriminate.
    + destruct (entered || _).
      * intros [= <- <- <- <- <-]. repeat split; try discriminate. apply Hwr.
      * intros [= <- <- <- <- <-]. repeat split; try discriminate; apply Happ.
  - intros [= <- <- <- <- <-]. repeat split; try discriminate; apply Happ.
Qed.

(** The settled part of the scanned entries is never written again, and
    after the last iteration no waypoint is shared. *)
Lemma modify_scan_shape fuel done todo entered shared out entered' shared' :
  mscan fuel done todo entered shared = Some (Some (out, entered', shared')) ->
  (exists tail, out = settled done shared ++ tail)
  /\ (todo <> [] -> shared' = false).
Proof.
  revert done todo entered shared.
  induction fuel as [|fuel IH]; intros done todo entered shared Hs;
    destruct todo as [|cur rest]; simpl in Hs; try discriminate.
  - injection Hs as <- <- <-. split; [apply settled_ext | done].
  - injection Hs as <- <- <-. split; [apply settled_ext | done].
  - destruct (memit done cur entered shared)
      as [[[[[done1 again] entered1] shared1] floorNext]|] eqn:Hemit; [|discriminate].
    apply modify_emit_shape in Hemit as ([ext Hext] & Hsh & Hnsh & _).
    destruct (IH _ _ _ _ Hs) as ([tail ->] & Hlast).
    split.
    + rewrite Hext, <- app_assoc. eauto.
    + intros _. destruct shared1.
      * apply Hlast. destruct (Hsh eq_refl) as [_ Hl].
        destruct again; [discriminate | done].
      * destruct (again ++ _) as [|a l] eqn:Hl; [|by apply Hlast].
        destruct fuel; simpl in Hs; congruence.
Qed.

(** A scan of [todo1 ++ todo2] is a scan of [todo1] followed by a scan of
    [todo2], whose first entry an [EXIT] segment at the end of [todo1]
    has brought to the floor. *)
Lemma modify_scan_app fuel done todo1 :
  forall todo2 entered shared r,
    mscan fuel done (todo1 ++ todo2) entered shared = Some (Some r) ->
    exists done1 entered1 shared1 todo2',
      mscan fuel done todo1 entered shared = Some (Some (done1, entered1, shared1))
      /\ mscan fuel done1 todo2' entered1 shared1 = Some (Some r)
      /\ (todo2' = todo2 \/ todo2' = floorHead todo2).
Proof.
  revert done todo1.
  induction fuel as [|fuel IH]; intros done todo1 todo2 entered shared r Hs.
  - destruct todo1 as [|cur rest]; simpl in *.
    + exists done, entered, shared, todo2. eauto.
    + discriminate.
  - destruct todo1 as [|cur rest].
    + exists done, entered, shared, todo2. eauto.
    + simpl in Hs.
      destruct (memit done cur entered shared)
        as [[[[[d1 again] e1] s1] floorNext]|] eqn:Hemit; [|discriminate].
      assert (Hrest : exists todo2',
                (if floorNext then floorHead (rest ++ todo2) else rest ++ todo2)
                = (if floorNext then floorHead rest else rest) ++ todo2'
                /\ (todo2' = todo2 \/ todo2' = floorHead todo2)).
      { destruct floorNext; [apply floorHead_app | eauto]. }
      destruct Hrest as (todo2' & Heq & Hor). rewrite Heq, app_assoc in Hs.
      destruct (IH _ _ _ _ _ _ Hs) as (done1 & entered1 & shared1 & todo2'' & H1 & H2 & Hor').
      exists done1, entered1, shared1, todo2''. split; [|split].
      * simpl. rewrite Hemit. exact H1.
      * apply (modify_scan_fuel_mono fuel); [exact H2 | lia].
      * destruct Hor as [-> | ->]; [exact Hor'|].
        rewrite floorHead_idem in Hor'. right. by destruct Hor'.
Qed.

(** Each segment is split at most once, since the second half is met with
    [entered] set. *)
Lemma modify_scan_returns fuel :
  forall done todo entered shared,
    (shared = true -> entered = true) ->
    2 * length todo <= fuel + (if shared then 1 else 0) ->
    is_Some (mscan fuel done todo entered shared).
Proof.
  induction fuel as [|fuel IH]; intros done todo entered shared Hinv Hle;
    destruct todo as [|cur rest]; simpl; eauto.
  - exfalso. simpl in Hle. destruct shared; lia.
  - destruct (memit done cur entered shared)
      as [[[[[done' again] entered'] shared'] floorNext]|] eqn:Hemit; [|eauto].
    apply modify_emit_shape in Hemit as (_ & Hsh & Hnsh & Hent).
    apply IH.
    + intros H. by apply Hsh.
    + assert (Hl : length (again ++ if floorNext then floorHead rest else rest)
                   = length again + length rest).
      { rewrite length_app. destruct floorNext; [by rewrite floorHead_length | done]. }
      unfold Entry in *. rewrite Hl. simpl in Hle.
      destruct shared' eqn:Hs'.
      * destruct (Hsh eq_refl) as [_ ->].
        destruct shared; [|lia].
        specialize (Hent (Hinv eq_refl)). discriminate.
      * rewrite (Hnsh eq_refl). simpl. destruct shared; lia.
Qed.

(** Without an intersection that is [null] no iteration raises. *)
Lemma modify_scan_no_raise fuel :
  (forall a b, is_Some (plateauSegmentIntersection a b)) ->
  forall done todo entered shared,
    mscan fuel done todo entered shared <> Some None.
Proof.
  intros Hix. induction fuel as [|fuel IH]; intros done todo entered shared;
    destruct todo as [|cur rest]; simpl; try discriminate.
  destruct (memit done cur entered shared)
    as [[[[[done' again] entered'] shared'] floorNext]|] eqn:Hemit; [apply IH|].
  exfalso. unfold ModifyView.emit in Hemit.
  destruct cur as [segment|]; [|discriminate].
  destruct (type segment); try discriminate.
  - destruct (JS.strictEq _ _); discriminate.
  - destruct (negb entered && _ && _).
    + destruct (regionWaypointsXYEqual _ _); [discriminate|].
      destruct (Hix (from segment) (to segment)) as [ix Hsome].
      rewrite Hsome in Hemit. discriminate.
    + destruct (entered || _); discriminate.
Qed.
End ModifyScan.

(** [_modifySegments] never runs on: within twice as many iterations as
    the array is long it returns or raises, whatever the elevations and the
    intersections are; it raises only at an intersection that is [null]. *)
Theorem handler_adjuster_returns_or_raises
    (isElevated : bool) (elevationUponEntry : Waypoint -> Q)
    (plateauSegmentIntersection : Waypoint -> Waypoint -> option Waypoint)
    (terrainFloor : Q) (fuel : nat) (segments : list Entry) :
  2 * length segments <= fuel ->
  is_Some (Modify._modifySegments isElevated elevationUponEntry
             plateauSegmentIntersection terrainFloor fuel segments)
  /\ ((forall a b, is_Some (plateauSegmentIntersection a b)) ->
      exists out,
        Modify._modifySegments isElevated elevationUponEntry
          plateauSegmentIntersection terrainFloor fuel segments = Some (Some out)).
Proof.
  intros Hle. destruct isElevated; [|simpl; eauto].
  rewrite _modifySegments_scan.
  destruct (modify_scan_returns elevationUponEntry plateauSegmentIntersection terrainFloor
              fuel [] segments false false) as [r Hr]; [discriminate | simpl; lia |].
  rewrite Hr. split; [simpl; eauto|].
  intros Hix. destruct r as [[[out e] s]|]; [simpl; eauto|].
  exfalso. by apply (modify_scan_no_raise elevationUponEntry plateauSegmentIntersection
                       terrainFloor fuel Hix [] segments false false).
Qed.

Lemma handler_adjuster_returns_or_raises_witness :
  is_Some (Modify._modifySegments true (plateauHandler 10) (fun _ _ => None) 0 2
             [Some (mkSegment MOVE (wp 0 0 20) (wp 0 0 0))]).
Proof.
  apply (handler_adjuster_returns_or_raises true (plateauHandler 10) (fun _ _ => None) 0 2
           [Some (mkSegment MOVE (wp 0 0 20) (wp 0 0 0))]).
  simpl. lia.
Defined.

Section ModifyKept.
Variable elevationUponEntry : Waypoint -> Q.
Variable plateauSegmentIntersection : Waypoint -> Waypoint -> option Waypoint.
Variable terrainFloor : Q.

End ModifyKept.

(** The run of the method on [pre ++ cur :: post], cut at [cur]: the
    entries before are adjusted as they are on their own, no waypoint is
    shared when the scan reaches [cur], and an [EXIT] segment at the end of
    [pre] has brought the start of [cur] to the floor. *)
Lemma modify_run_cut elevationUponEntry plateauSegmentIntersection terrainFloor
    fuel pre cur post out :
  Modify._modifySegments true elevationUponEntry plateauSegmentIntersection terrainFloor
    fuel (pre ++ cur :: post) = Some (Some out) ->
  exists pre' entered1 todo r,
    Modify._modifySegments true elevationUponEntry plateauSegmentIntersection terrainFloor
      fuel pre = Some (Some pre')
    /\ ModifyView.scan elevationUponEntry plateauSegmentIntersection terrainFloor
         fuel pre' todo entered1 false = Some (Some (out, r.1, r.2))
    /\ (todo = cur :: post \/ todo = ModifyView.floorHead terrainFloor (cur :: post)).
Proof.
  intros Hrun. rewrite _modifySegments_scan in Hrun.
  destruct (ModifyView.scan _ _ _ fuel [] _ false false) as [[[[out0 e0] s0]|]|] eqn:Hscan;
    try discriminate.
  simpl in Hrun. injection Hrun as ->.
  destruct (modify_scan_app _ _ _ _ _ _ _ _ _ _ Hscan)
    as (pre' & e1 & s1 & todo & Hpre & Hrest & Hor).
  destruct (modify_scan_shape _ _ _ _ _ _ _ _ _ _ _ Hpre) as (_ & Hsh).
  assert (Hs1 : s1 = false).
  { destruct pre as [|p pre]; [|by apply Hsh].
    destruct fuel; simpl in Hpre; congruence. }
  subst s1. exists pre', e1, todo, (e0, s0). split; [|split].
  - rewrite _modifySegments_scan, Hpre. reflexivity.
  - exact Hrest.
  - exact Hor.
Qed.

(** Every [EXIT] segment is brought to the terrain floor, wherever it
    stands and whatever came before: the method has no [reset] option and
    does not ask whether the path has entered.  One vertical [MOVE] segment
    is added before it unless the entry before it is missing or already
    ends at the floor, and the scan goes on behind it with the start of the
    next segment set to the floor. *)
Theorem handler_exit_always_resets
    (elevationUponEntry : Waypoint -> Q)
    (plateauSegmentIntersection : Waypoint -> Waypoint -> option Waypoint)
    (terrainFloor : Q) (fuel : nat) (pre post out : list Entry) (segment : Segment) :
  type segment = EXIT ->
  Modify._modifySegments true elevationUponEntry plateauSegmentIntersection terrainFloor
    fuel (pre ++ Some segment :: post) = Some (Some out) ->
  exists pre' post',
    let atFloor :=
      {| type := EXIT;
         from := {| x := x (from segment); y := y (from segment);
                    elevation := terrainFloor |};
         to := {| x := x (to segment); y := y (to segment);
                  elevation := terrainFloor |} |} in
    let added :=
      match last pre' with
      | Some (Some prevSegment) =>
          if JS.strictEq (elevation (to prevSegment)) terrainFloor then []
          else [Some {| type := MOVE;
                        from := {| x := x (to prevSegment); y := y (to prevSegment);
                                   elevation := elevation (to prevSegment) |};
                        to := {| x := x (to prevSegment); y := y (to prevSegment);
                                 elevation := terrainFloor |} |}]
      | _ => []
      end in
    Modify._modifySegments true elevationUponEntry plateauSegmentIntersection terrainFloor
      fuel pre = Some (Some pre')
    /\ out = pre' ++ added ++ Some atFloor :: post'
    /\ Modify.loop elevationUponEntry plateauSegmentIntersection terrainFloor fuel
         (Modify.mkScan
            (pre' ++ added ++ Some atFloor :: ModifyView.floorHead terrainFloor post)
            (length pre' + length added + 1)
            (length (pre' ++ added ++ Some atFloor
                          :: ModifyView.floorHead terrainFloor post))
            false false)
       = Some (Some out).
Proof.
  intros Htype Hrun.
  destruct (modify_run_cut _ _ _ _ _ _ _ _ Hrun) as (pre' & e1 & todo & r & Hpre & Hrest & Hor).
  exists pre'.
  assert (Hhead : exists segment',
            todo = Some segment' :: post /\ type segment' = EXIT
            /\ exitToFloor pre' segment' terrainFloor
               = exitToFloor pre' segment terrainFloor).
  { destruct Hor as [-> | ->]; [by exists segment|]. simpl. eexists.
    split; [reflexivity|]. split; [exact Htype|]. reflexivity. }
  destruct Hhead as (segment' & -> & Htype' & Hexit).
  destruct fuel as [|fuel]; [discriminate|].
  simpl in Hrest. rewrite Htype', Hexit in Hrest. simpl in Hrest.
  apply (modify_scan_fuel_mono _ _ _ _ (S fuel)) in Hrest; [|lia].
  destruct (modify_scan_shape _ _ _ _ _ _ _ _ _ _ _ Hrest) as ([post' Hout] & _).
  exists post'. intros atFloor added.
  assert (Hspec : exitToFloor pre' segment terrainFloor = added ++ [Some atFloor]).
  { rewrite exitToFloor_spec, Htype. reflexivity. }
  rewrite Hspec in Hrest, Hout. clearbody added atFloor.
  split; [exact Hpre|]. split.
  - rewrite Hout. simpl. rewrite <- !app_assoc. reflexivity.
  - pose proof (modify_loop_scan elevationUponEntry plateauSegmentIntersection terrainFloor
                  (S fuel) (pre' ++ added ++ [Some atFloor])
                  (ModifyView.floorHead terrainFloor post) false false) as Hloop.
    rewrite Hrest in Hloop. etrans; [|exact Hloop].
    f_equal. unfold modifyCut.
    f_equal; rewrite <- ?app_assoc, ?length_app; simpl; rewrite ?length_app;
      try done; unfold Entry in *; simpl; lia.
Qed.

Lemma handler_exit_always_resets_witness :
  exists pre' post',
    Modify._modifySegments true (plateauHandler 10) (fun _ _ => None) 0 6
      [Some groundEnter; Some groundMove] = Some (Some pre')
    /\ [Some groundEnter;
        Some (mkSegment MOVE (wp 1 0 0) (wp 1 0 10));
        Some (mkSegment MOVE (wp 1 0 10) (wp 2 0 10));
        Some (mkSegment MOVE (wp 2 0 10) (wp 2 0 0));
        Some (mkSegment EXIT (wp 2 0 0) (wp 3 0 0))]
       = pre' ++ [Some (mkSegment MOVE (wp 2 0 10) (wp 2 0 0))]
              ++ Some (mkSegment EXIT (wp 2 0 0) (wp 3 0 0)) :: post'.
Proof.
  destruct (handler_exit_always_resets (plateauHandler 10) (fun _ _ => None) 0 6
              [Some groundEnter; Some groundMove] [] _ groundExit eq_refl eq_refl)
    as (pre' & post' & Hpre & Hout & _).
  exists pre', post'. split; [exact Hpre|].
  vm_compute in Hpre. injection Hpre as <-. exact Hout.
Defined.

(** ** The ramp without steps *)

Section SmoothRamp.
Import Geometry.
Local Open Scope R_scope.
Variable closestPointToSegment : Point -> Point -> Point -> option Point.

(** The elevation of a ramp without steps, from the place [t] on the
    axis. *)
Lemma rampElevation_smooth (this : This) (waypoint : Location) (axis : MinMax) c :
  minMax this = Some axis ->
  noStepHeight (rampStepHeight this) = true ->
  distanceBetween (min axis) (max axis) <> 0 ->
  closestPointToSegment (position waypoint) (min axis) (max axis) = Some c ->
  let t := Rmin (Rmax (distanceBetween (min axis) c
                       / distanceBetween (min axis) (max axis)) 0) 1 in
  rampElevation closestPointToSegment this waypoint
  = Some (Fin (if almostEqual (Fin t) 0 then rampFloor this
               else if almostEqual (Fin t) 1 then plateauElevation this
               else Math_round (rampFloor this
                                + t * (plateauElevation this - rampFloor this)))).
Proof.
  intros Haxis Hsmooth Hd Hc t. unfold rampElevation. rewrite Haxis, Hc. simpl.
  unfold div. destruct (Req_dec_T _ 0); [contradiction|]. simpl. fold t.
  unfold almostEqual.
  destruct (Rlt_dec (Rabs (t - 0)) _); [reflexivity|].
  destruct (Rlt_dec (Rabs (t - 1)) _); [reflexivity|].
  by rewrite Hsmooth.
Qed.

Lemma round_between (floor top : Z) t :
  (floor <= top)%Z -> 0 <= t <= 1 ->
  (floor <= Zfloor (IZR floor + t * (IZR top - IZR floor) + / 2) <= top)%Z.
Proof.
  intros Hle Ht. apply IZR_le in Hle. split.
  - apply Zfloor_lub. nra.
  - pose proof (Zfloor_bound (IZR floor + t * (IZR top - IZR floor) + / 2)) as [Hb _].
    apply Z.lt_succ_r, lt_IZR. rewrite succ_IZR. nra.
Qed.

(** On a ramp without steps, with whole numbers for floor and top and the
    floor not above the top, the elevation is a whole number between the
    two, and it does not decrease along the axis: of two waypoints, the one
    whose closest point of the axis is farther from [min] is at least as
    high. *)
Theorem smooth_ramp_rises_from_floor_to_top
    (this : This) (axis : MinMax) (floor top : Z) (w1 w2 : Location) (c1 c2 : Point) :
  minMax this = Some axis ->
  noStepHeight (rampStepHeight this) = true ->
  rampFloor this = IZR floor ->
  plateauElevation this = IZR top ->
  (floor <= top)%Z ->
  distanceBetween (min axis) (max axis) <> 0 ->
  closestPointToSegment (position w1) (min axis) (max axis) = Some c1 ->
  closestPointToSegment (position w2) (min axis) (max axis) = Some c2 ->
  distanceBetween (min axis) c1 <= distanceBetween (min axis) c2 ->
  exists e1 e2 : Z,
    rampElevation closestPointToSegment this w1 = Some (Fin (IZR e1))
    /\ rampElevation closestPointToSegment this w2 = Some (Fin (IZR e2))
    /\ (floor <= e1 <= e2 /\ e2 <= top)%Z.
Proof.
  intros Haxis Hsmooth Hfloor Htop Hle Hd Hc1 Hc2 Hfar.
  rewrite (rampElevation_smooth this w1 axis c1 Haxis Hsmooth Hd Hc1).
  rewrite (rampElevation_smooth this w2 axis c2 Haxis Hsmooth Hd Hc2).
  rewrite Hfloor, Htop.
  pose proof (distanceBetween_nonneg (min axis) (max axis)) as HD.
  assert (HD' : 0 < distanceBetween (min axis) (max axis)) by lra.
  set (D := distanceBetween (min axis) (max axis)) in *.
  set (t1 := Rmin (Rmax (distanceBetween (min axis) c1 / D) 0) 1).
  set (t2 := Rmin (Rmax (distanceBetween (min axis) c2 / D) 0) 1).
  assert (Hq : distanceBetween (min axis) c1 / D <= distanceBetween (min axis) c2 / D).
  { unfold Rdiv. apply Rmult_le_compat_r; [|exact Hfar].
    left. by apply Rinv_0_lt_compat. }
  assert (Ht : 0 <= t1 <= t2 /\ t2 <= 1).
  { unfold t1, t2, Rmin, Rmax. repeat destruct (Rle_dec _ _); lra. }
  clearbody t1 t2.
  pose proof (round_between floor top t1 Hle ltac:(lra)) as R1.
  pose proof (round_between floor top t2 Hle ltac:(lra)) as R2.
  assert (Hmono : (Zfloor (IZR floor + t1 * (IZR top - IZR floor) + / 2)
                   <= Zfloor (IZR floor + t2 * (IZR top - IZR floor) + / 2))%Z).
  { apply Zfloor_le. apply IZR_le in Hle. nra. }
  unfold almostEqual, Math_round.
  replace (t1 - 0) with t1 by lra. replace (t2 - 0) with t2 by lra.
  rewrite (Rabs_pos_eq t1), (Rabs_pos_eq t2) by lra.
  rewrite (Rabs_left1 (t1 - 1)), (Rabs_left1 (t2 - 1)) by lra.
  repeat destruct (Rlt_dec _ _); try lra;
    eexists; eexists; (split; [reflexivity|]); (split; [reflexivity|]); lia.
Qed.
End SmoothRamp.

Lemma smooth_ramp_rises_from_floor_to_top_witness :
  exists e1 e2 : Z,
    Geometry.rampElevation (fun p _ _ => Some p) (Samples.steppedRamp None)
      (Geometry.mkLocation (Geometry.pt 0 3) 0) = Some (Geometry.Fin (IZR e1))
    /\ Geometry.rampElevation (fun p _ _ => Some p) (Samples.steppedRamp None)
         (Geometry.mkLocation (Geometry.pt 0 7) 0) = Some (Geometry.Fin (IZR e2))
    /\ (10 <= e1 <= e2 /\ e2 <= 25)%Z.
Proof.
  assert (Hd : forall b, (0 <= b)%R ->
             Geometry.distanceBetween (Geometry.pt 0 0) (Geometry.pt 0 b) = b).
  { intros b Hb. unfold Geometry.distanceBetween, Geometry.distanceSquaredBetween. simpl.
    replace ((0 - 0) * (0 - 0) + (b - 0) * (b - 0))%R with (b * b)%R by lra.
    by apply sqrt_square. }
  apply (smooth_ramp_rises_from_floor_to_top (fun p _ _ => Some p) (Samples.steppedRamp None)
           (Geometry.mkMinMax (Geometry.pt 0 0) (Geometry.pt 0 10)) 10 25
           (Geometry.mkLocation (Geometry.pt 0 3) 0) (Geometry.mkLocation (Geometry.pt 0 7) 0)
           (Geometry.pt 0 3) (Geometry.pt 0 7));
    try reflexivity.
  - lia.
  - simpl. rewrite steppedRamp_axis_length. lra.
  - simpl. rewrite !Hd by lra. lra.
Defined.

(** ** The adjusters keep the course of a path *)

Lemma sameXY_refl a : sameXY a a.
Proof. by split. Qed.

Lemma sameXY_sym a b : sameXY a b -> sameXY b a.
Proof. unfold sameXY. intros [? ?]. split; congruence. Qed.

Lemma sameXY_trans a b c : sameXY a b -> sameXY b c -> sameXY a c.
Proof. unfold sameXY. intros [? ?] [? ?]. split; congruence. Qed.

Lemma sameCourse_refl s : sameCourse s s.
Proof. repeat split. Qed.

Lemma sameCourse_trans s s' s'' :
  sameCourse s s' -> sameCourse s' s'' -> sameCourse s s''.
Proof.
  intros (Ht & Hf & Hto) (Ht' & Hf' & Hto').
  split; [congruence|]. split; eapply sameXY_trans; eauto.
Qed.

Lemma sameCourse_setElevations s e1 e2 : sameCourse s (setElevations s e1 e2).
Proof. repeat split. Qed.

Lemma keptByRegion_refl s : keptByRegion s s.
Proof. split; [apply sameCourse_refl | done]. Qed.

Lemma keptByRegion_trans s s' s'' :
  keptByRegion s s' -> keptByRegion s' s'' -> keptByRegion s s''.
Proof.
  intros [Hc He] [Hc' He']. split; [by eapply sameCourse_trans|].
  intros Ht. rewrite (He Ht) in *. by apply He'.
Qed.

Lemma keptByRegion_other s s' :
  type s <> ENTER -> sameCourse s s' -> keptByRegion s s'.
Proof. intros Hne Hc. by split. Qed.

Lemma lastTo_snoc done s : lastTo (done ++ [Some s]) = Some (to s).
Proof. unfold lastTo. by rewrite last_snoc. Qed.

Lemma lastTo_snoc_hole done : lastTo (done ++ [None]) = None.
Proof. unfold lastTo. by rewrite last_snoc. Qed.

Lemma lastTo_snoc2 done a s : lastTo (done ++ [a; Some s]) = Some (to s).
Proof.
  change (done ++ [a; Some s]) with (done ++ [a] ++ [Some s]).
  by rewrite app_assoc, lastTo_snoc.
Qed.

Section AdjustedFacts.
Variable keep : Segment -> Segment -> Prop.
Hypothesis keep_refl : forall s, keep s s.
Hypothesis keep_trans : forall s s' s'', keep s s' -> keep s' s'' -> keep s s''.
Hypothesis keep_course : forall s s', keep s s' -> sameCourse s s'.

Lemma adjusted_refl prev l : adjusted keep prev l l.
Proof.
  revert prev. induction l as [|[s|] l IH]; intros prev.
  - constructor.
  - apply adjusted_keep; [apply keep_refl | apply IH].
  - apply adjusted_hole, IH.
Qed.

(** [adjusted] reads the place of [prev] only. *)
Lemma adjusted_prev prev prev' before after :
  adjusted keep prev before after -> samePlace prev prev' ->
  adjusted keep prev' before after.
Proof.
  intros H. revert prev'.
  induction H as [prev | prev before after H IH | prev s s' before after Hk H IH
                  | w v before after Hv Hw H IH
                  | prev s a b before after Hs Ha Hb H1 H2 H3 H IH];
    intros prev' Hp.
  - constructor.
  - by apply adjusted_hole.
  - by apply adjusted_keep.
  - destruct prev' as [w'|]; [|contradiction]. simpl in Hp.
    apply adjusted_vertical; [done | | done].
    eapply sameXY_trans; [apply sameXY_sym, Hp | exact Hw].
  - by eapply adjusted_split.
Qed.

(** Later writes of elevations to the entries of [after] keep [adjusted]. *)
Lemma adjusted_same_out prev before after after' :
  adjusted keep prev before after ->
  Forall2 (option_Forall2 keep) after after' ->
  adjusted keep prev before after'.
Proof.
  intros H. revert after'.
  induction H as [prev | prev before after H IH | prev s s' before after Hk H IH
                  | w v before after Hv Hw H IH
                  | prev s a b before after Hs Ha Hb H1 H2 H3 H IH];
    intros after' Hall.
  - inversion Hall; subst. constructor.
  - inversion Hall as [|? o ? l Ho Hl]; subst. inversion Ho; subst.
    apply adjusted_hole. by apply IH.
  - inversion Hall as [|? o ? l Ho Hl]; subst. inversion Ho as [? s'' Hk'|]; subst.
    apply adjusted_keep; [by eapply keep_trans|].
    apply (adjusted_prev (Some (to s'))); [by apply IH|].
    apply (keep_course _ _ Hk').
  - inversion Hall as [|? o ? l Ho Hl]; subst. inversion Ho as [? v' Hk'|]; subst.
    destruct (keep_course _ _ Hk') as (Ht & Hf & Hto). destruct Hv as [Hvt Hvxy].
    apply adjusted_vertical.
    + split; [congruence|].
      eapply sameXY_trans; [apply sameXY_sym, Hf|].
      eapply sameXY_trans; [exact Hvxy | exact Hto].
    + eapply sameXY_trans; [exact Hw | exact Hf].
    + apply (adjusted_prev (Some (to v))); [by apply IH | exact Hto].
  - inversion Hall as [|? o ? l Ho Hl]; subst. inversion Ho as [? a' Hk'|]; subst.
    destruct (keep_course _ _ Hk') as (Ht & Hf & Hto).
    apply (adjusted_split keep prev s a' b); try done; try congruence.
    + eapply sameXY_trans; [exact H1 | exact Hf].
    + eapply sameXY_trans; [apply sameXY_sym, Hto | exact H2].
    + apply (adjusted_prev (Some (to a))); [by apply IH | exact Hto].
Qed.

End AdjustedFacts.

Section ExitToFloor.
Variable keep : Segment -> Segment -> Prop.

Lemma exitToFloor_adjusted done segment floor rest tail :
  keep segment (setElevations segment floor floor) ->
  adjusted keep (lastTo (done ++ exitToFloor done segment floor)) rest tail ->
  adjusted keep (lastTo done) (Some segment :: rest)
    (exitToFloor done segment floor ++ tail).
Proof.
  intros Hk. unfold exitToFloor, lastTo at 2.
  destruct (last done) as [[prevSegment|]|] eqn:Hlast; simpl.
  - destruct (JS.strictEq (elevation (to prevSegment)) floor); simpl.
    + rewrite lastTo_snoc. intros H. by apply adjusted_keep.
    + rewrite lastTo_snoc2. intros H.
      apply adjusted_vertical; [repeat split | repeat split |].
      by apply adjusted_keep.
  - rewrite strictEq_refl. simpl. rewrite lastTo_snoc. intros H.
    by apply adjusted_keep.
  - rewrite strictEq_refl. simpl. rewrite lastTo_snoc. intros H.
    by apply adjusted_keep.
Qed.
End ExitToFloor.

Lemma keptByRegion_setElevations s e1 e2 :
  type s <> ENTER -> keptByRegion s (setElevations s e1 e2).
Proof. intros Hne. apply keptByRegion_other; [done | apply sameCourse_setElevations]. Qed.

Section AdjustedRegion.
Variables (behavior : Behavior) (freefall : bool) (terrainFloor : Q).

Lemma plateau_emit_adjusted done cur entered outs again entered' rest tail :
  PlateauView.emit behavior freefall terrainFloor done cur entered
  = (outs, again, entered') ->
  adjusted keptByRegion (lastTo (done ++ outs)) (again ++ rest) tail ->
  adjusted keptByRegion (lastTo done) (cur :: rest) (outs ++ tail).
Proof.
  intros He H. destruct cur as [segment|]; simpl in He.
  2: { injection He as <- <- <-. rewrite lastTo_snoc_hole in H. by apply adjusted_hole. }
  destruct (type segment) eqn:Htype.
  - destruct (JS.strictEq _ _); injection He as <- <- <-.
    + rewrite lastTo_snoc in H. apply adjusted_keep; [apply keptByRegion_refl | exact H].
    + rewrite lastTo_snoc2 in H. simpl.
      apply adjusted_keep; [apply keptByRegion_refl|].
      apply adjusted_vertical; [repeat split | repeat split | exact H].
  - assert (Hsame : forall s', sameCourse segment s' ->
              adjusted keptByRegion (lastTo (done ++ [Some s'])) rest tail ->
              adjusted keptByRegion (lastTo done) (Some segment :: rest) (Some s' :: tail)).
    { intros s' Hc H'. rewrite lastTo_snoc in H'.
      apply adjusted_keep; [|exact H'].
      apply keptByRegion_other; [congruence | exact Hc]. }
    destruct entered.
    { injection He as <- <- <-. apply Hsame; [apply sameCourse_setElevations | exact H]. }
    destruct (freefall && _ && _).
    2: { injection He as <- <- <-. apply Hsame; [apply sameCourse_refl | exact H]. }
    destruct (if regionWaypointsXYEqual _ _ then _ else _) as [ix|].
    2: { injection He as <- <- <-. apply Hsame; [apply sameCourse_refl | exact H]. }
    destruct (_ || _); injection He as <- <- <-.
    { apply Hsame; [apply sameCourse_refl | exact H]. }
    rewrite lastTo_snoc in H. simpl in *.
    eapply adjusted_split; [exact Htype | reflexivity | | | | | exact H];
      try reflexivity; apply sameXY_refl.
  - destruct (negb (system_reset behavior)).
    { injection He as <- <- <-. rewrite lastTo_snoc in H.
      apply adjusted_keep; [apply keptByRegion_refl | exact H]. }
    destruct (negb _); injection He as <- <- <-.
    { rewrite lastTo_snoc in H.
      apply adjusted_keep; [apply keptByRegion_refl | exact H]. }
    apply exitToFloor_adjusted; [|exact H].
    apply keptByRegion_setElevations. congruence.
Qed.

Lemma plateau_scan_adjusted fuel done todo entered outAll entered' :
  PlateauView.scan behavior freefall terrainFloor fuel done todo entered
  = Some (outAll, entered') ->
  exists tail, outAll = done ++ tail /\ adjusted keptByRegion (lastTo done) todo tail.
Proof.
  revert done todo entered.
  induction fuel as [|fuel IH]; intros done todo entered Hs;
    destruct todo as [|cur rest]; simpl in Hs; try discriminate.
  1,2: injection Hs as <- <-; exists []; split; [by rewrite app_nil_r | constructor].
  destruct (PlateauView.emit behavior freefall terrainFloor done cur entered)
    as [[outs again] e1] eqn:He.
  destruct (IH _ _ _ Hs) as (tail & -> & H).
  exists (outs ++ tail). split; [by rewrite app_assoc|].
  by eapply plateau_emit_adjusted.
Qed.

Lemma stairs_emit_adjusted done cur vars outs vars' rest tail :
  StairsView.emit behavior terrainFloor done cur vars = (outs, vars') ->
  adjusted keptByRegion (lastTo (done ++ outs)) rest tail ->
  adjusted keptByRegion (lastTo done) (cur :: rest) (outs ++ tail).
Proof.
  intros He H. destruct vars as [[entered up] targetElevation].
  destruct cur as [segment|]; simpl in He.
  2: { injection He as <- <-. rewrite lastTo_snoc_hole in H. by apply adjusted_hole. }
  destruct (type segment) eqn:Htype.
  - injection He as <- <-. rewrite lastTo_snoc in H.
    apply adjusted_keep; [apply keptByRegion_refl | exact H].
  - destruct (negb entered); injection He as <- <-; rewrite lastTo_snoc in H.
    + apply adjusted_keep; [apply keptByRegion_refl | exact H].
    + apply adjusted_keep; [|exact H].
      apply keptByRegion_setElevations. congruence.
  - destruct (negb (entered || _ || _)).
    { injection He as <- <-. rewrite lastTo_snoc in H.
      apply adjusted_keep; [apply keptByRegion_refl | exact H]. }
    destruct (negb (system_reset behavior)); injection He as <- <-.
    { rewrite lastTo_snoc in H.
      apply adjusted_keep; [apply keptByRegion_refl | exact H]. }
    apply exitToFloor_adjusted; [|exact H].
    apply keptByRegion_setElevations. congruence.
Qed.

Lemma stairs_scan_adjusted done todo vars :
  exists tail,
    (StairsView.scan behavior terrainFloor done todo vars).1 = done ++ tail
    /\ adjusted keptByRegion (lastTo done) todo tail.
Proof.
  revert done vars. induction todo as [|cur rest IH]; intros done vars; simpl.
  - exists []. split; [by rewrite app_nil_r | constructor].
  - destruct (StairsView.emit behavior terrainFloor done cur vars) as [outs vars'] eqn:He.
    destruct (IH (done ++ outs) vars') as (tail & -> & H).
    exists (outs ++ tail). split; [by rewrite app_assoc|].
    by eapply stairs_emit_adjusted.
Qed.

End AdjustedRegion.

Lemma writePrevTo_snoc done a e :
  Ramp.writePrevTo (done ++ [Some a]) (length (done ++ [Some a])) e
  = done ++ [Some {| type := type a; from := from a; to := withElevation (to a) e |}].
Proof.
  rewrite length_app. simpl. replace (length done + 1) with (S (length done)) by lia.
  unfold Ramp.writePrevTo, Entry in *.
  rewrite list_lookup_middle by reflexivity.
  rewrite <- (Nat.add_0_r (length done)) at 1.
  by rewrite insert_app_r.
Qed.

Section SameEntries.
Variable keep : Segment -> Segment -> Prop.
Hypothesis keep_refl : forall s, keep s s.
Hypothesis keep_trans : forall s s' s'', keep s s' -> keep s' s'' -> keep s s''.

Lemma sameEntries_refl (l : list Entry) : Forall2 (option_Forall2 keep) l l.
Proof. induction l as [|[s|] l IH]; constructor; try done; by constructor. Qed.

Lemma sameEntries_trans (l l' l'' : list Entry) :
  Forall2 (option_Forall2 keep) l l' -> Forall2 (option_Forall2 keep) l' l'' ->
  Forall2 (option_Forall2 keep) l l''.
Proof.
  intros H. revert l''. induction H as [|a b l l' Hab H IH]; intros l'' H';
    inversion H' as [|? c ? m Hbc Hm]; subst; constructor; [|by apply IH].
  destruct Hab; inversion Hbc; subst; constructor. by eapply keep_trans.
Qed.
End SameEntries.

Section AdjustedRamp.
Variables (behavior : Behavior) (freefall : bool) (terrainFloor : Q).

Lemma written_same done shared e :
  sharedWithMove done shared ->
  Forall2 (option_Forall2 keptByRegion) done
    (if shared then Ramp.writePrevTo done (length done) e else done).
Proof.
  intros Hsh. destruct shared; [|apply sameEntries_refl, keptByRegion_refl].
  destruct (Hsh eq_refl) as (done0 & a & -> & Ha).
  rewrite writePrevTo_snoc. apply Forall2_app.
  - apply sameEntries_refl, keptByRegion_refl.
  - repeat constructor; try done. congruence.
Qed.

Lemma ramp_emit_adjusted done cur entered shared done1 again entered1 shared1 :
  RampView.emit behavior freefall terrainFloor done cur entered shared
  = (done1, again, entered1, shared1) ->
  sharedWithMove done shared ->
  exists written outs,
    done1 = written ++ outs
    /\ Forall2 (option_Forall2 keptByRegion) done written
    /\ sharedWithMove done1 shared1
    /\ forall rest tail,
         adjusted keptByRegion (lastTo done1) (again ++ rest) tail ->
         adjusted keptByRegion (lastTo done) (cur :: rest) (outs ++ tail).
Proof.
  intros He Hsh.
  assert (Hplain : forall outs,
            (forall rest tail,
               adjusted keptByRegion (lastTo (done ++ outs)) (again ++ rest) tail ->
               adjusted keptByRegion (lastTo done) (cur :: rest) (outs ++ tail)) ->
            done1 = done ++ outs -> shared1 = false ->
            exists written outs,
              done1 = written ++ outs
              /\ Forall2 (option_Forall2 keptByRegion) done written
              /\ sharedWithMove done1 shared1
              /\ forall rest tail,
                   adjusted keptByRegion (lastTo done1) (again ++ rest) tail ->
                   adjusted keptByRegion (lastTo done) (cur :: rest) (outs ++ tail)).
  { intros outs H -> ->. exists done, outs. split; [done|].
    split; [apply sameEntries_refl, keptByRegion_refl|]. split; [discriminate | exact H]. }
  destruct cur as [segment|]; simpl in He.
  2: { injection He as <- <- <- <-. eapply Hplain; [|reflexivity|reflexivity].
       intros rest tail H. rewrite lastTo_snoc_hole in H. by apply adjusted_hole. }
  assert (Hsame : forall s', keptByRegion segment s' -> again = [] ->
            forall rest tail,
              adjusted keptByRegion (lastTo (done ++ [Some s'])) (again ++ rest) tail ->
              adjusted keptByRegion (lastTo done) (Some segment :: rest) ([Some s'] ++ tail)).
  { intros s' Hk -> rest tail H. rewrite lastTo_snoc in H. by apply adjusted_keep. }
  destruct (type segment) eqn:Htype.
  - destruct (JS.strictEq _ _); injection He as <- <- <- <-.
    + eapply Hplain; [|reflexivity|reflexivity]. apply Hsame; [apply keptByRegion_refl | done].
    + eapply Hplain; [|reflexivity|reflexivity].
      intros rest tail H. rewrite lastTo_snoc2 in H. simpl.
      apply adjusted_keep; [apply keptByRegion_refl|].
      apply adjusted_vertical; [repeat split | repeat split | exact H].
  - destruct (entered || _).
    { injection He as <- <- <- <-.
      eexists _, [Some _]. split; [reflexivity|].
      split; [by apply written_same|]. split; [discriminate|].
      intros rest tail H. rewrite lastTo_snoc in H.
      apply adjusted_keep; [|exact H].
      apply keptByRegion_other; [congruence|].
      split; [simpl; congruence | by split]. }
    destruct (negb _).
    { injection He as <- <- <- <-. eapply Hplain; [|reflexivity|reflexivity].
      apply Hsame; [apply keptByRegion_refl | done]. }
    destruct (system_plateauSegmentIntersection _ _ _) as [ix|].
    2: { injection He as <- <- <- <-. eapply Hplain; [|reflexivity|reflexivity].
         apply Hsame; [apply keptByRegion_refl | done]. }
    destruct (_ || _); injection He as <- <- <- <-.
    { eapply Hplain; [|reflexivity|reflexivity]. apply Hsame; [apply keptByRegion_refl | done]. }
    eexists done, [Some _]. split; [reflexivity|].
    split; [apply sameEntries_refl, keptByRegion_refl|].
    split; [intros _; by eexists _, _|].
    intros rest tail H. rewrite lastTo_snoc in H. simpl in *.
    eapply adjusted_split; [exact Htype | reflexivity | | | | | exact H];
      try reflexivity; apply sameXY_refl.
  - destruct (negb (system_reset behavior)).
    { injection He as <- <- <- <-. eapply Hplain; [|reflexivity|reflexivity].
      apply Hsame; [apply keptByRegion_refl | done]. }
    destruct (negb _); injection He as <- <- <- <-.
    { eapply Hplain; [|reflexivity|reflexivity]. apply Hsame; [apply keptByRegion_refl | done]. }
    eapply Hplain; [|reflexivity|reflexivity].
    intros rest tail H. apply exitToFloor_adjusted; [|exact H].
    apply keptByRegion_setElevations. congruence.
Qed.

Lemma ramp_scan_adjusted fuel done todo entered shared outAll entered' shared' :
  RampView.scan behavior freefall terrainFloor fuel done todo entered shared
  = Some (outAll, entered', shared') ->
  sharedWithMove done shared ->
  exists done' tail,
    outAll = done' ++ tail
    /\ Forall2 (option_Forall2 keptByRegion) done done'
    /\ adjusted keptByRegion (lastTo done) todo tail.
Proof.
  revert done todo entered shared.
  induction fuel as [|fuel IH]; intros done todo entered shared Hs Hsh;
    destruct todo as [|cur rest]; simpl in Hs; try discriminate.
  1,2: injection Hs as <- <- <-; exists done, []; split; [by rewrite app_nil_r|];
       split; [apply sameEntries_refl, keptByRegion_refl | constructor].
  destruct (RampView.emit behavior freefall terrainFloor done cur entered shared)
    as [[[done1 again] e1] s1] eqn:He.
  destruct (ramp_emit_adjusted _ _ _ _ _ _ _ _ He Hsh)
    as (written & outs & -> & Hw & Hsh1 & Hadj).
  destruct (IH _ _ _ _ Hs Hsh1) as (done1' & tail & -> & Hall & H).
  apply Forall2_app_inv_l in Hall as (written' & outs' & Hw' & Ho' & ->).
  exists written', (outs' ++ tail). split; [by rewrite app_assoc|].
  split; [eapply sameEntries_trans; eauto using keptByRegion_trans|].
  eapply (adjusted_same_out keptByRegion keptByRegion_trans).
  - intros s s' Hk. apply Hk.
  - by apply Hadj.
  - apply Forall2_app; [exact Ho' | apply sameEntries_refl, keptByRegion_refl].
Qed.

End AdjustedRamp.

Lemma written_sameCourse (done : list Entry) e :
  Forall2 (option_Forall2 sameCourse) done (Ramp.writePrevTo done (length done) e).
Proof.
  destruct done as [|o done0 _] using rev_ind.
  - constructor.
  - destruct o as [a|].
    + rewrite writePrevTo_snoc. apply Forall2_app.
      * apply sameEntries_refl, sameCourse_refl.
      * repeat constructor; done.
    + rewrite length_app. simpl.
      replace (length done0 + 1) with (S (length done0)) by lia.
      unfold Ramp.writePrevTo, Entry in *.
      rewrite list_lookup_middle by reflexivity.
      apply sameEntries_refl, sameCourse_refl.
Qed.

(** Earlier writes of elevations to the entries of [before] keep
    [adjusted]. *)
Lemma adjusted_same_in prev before before' after :
  adjusted sameCourse prev before' after ->
  Forall2 (option_Forall2 sameCourse) before before' ->
  adjusted sameCourse prev before after.
Proof.
  intros H. revert before.
  induction H as [prev | prev before' after H IH | prev s s' before' after Hk H IH
                  | w v before' after Hv Hw H IH
                  | prev s a b before' after Hs Ha Hb H1 H2 H3 H IH];
    intros before Hall.
  - inversion Hall; subst. constructor.
  - inversion Hall as [|o ? l ? Ho Hl]; subst. inversion Ho; subst.
    apply adjusted_hole. by apply IH.
  - inversion Hall as [|o ? l ? Ho Hl]; subst. inversion Ho as [s0 ? Hk'|]; subst.
    apply adjusted_keep; [by eapply sameCourse_trans | by apply IH].
  - apply adjusted_vertical; try done. by apply IH.
  - inversion Hall as [|o ? l ? Ho Hl]; subst. inversion Ho as [s0 ? Hk'|]; subst.
    destruct Hk' as (Ht & Hf & Hto).
    apply (adjusted_split sameCourse prev s0 a b); try done; try congruence.
    + eapply sameXY_trans; [exact Hf | exact H1].
    + eapply sameXY_trans; [exact Hto | exact H3].
    + apply IH. constructor; [constructor; apply sameCourse_refl | exact Hl].
Qed.

Section AdjustedModify.
Variable elevationUponEntry : Waypoint -> Q.
Variable plateauSegmentIntersection : Waypoint -> Waypoint -> option Waypoint.
Variable terrainFloor : Q.

Lemma floorHead_sameCourse (todo : list Entry) :
  Forall2 (option_Forall2 sameCourse) todo (ModifyView.floorHead terrainFloor todo).
Proof.
  destruct todo as [|[s|] rest]; simpl; try apply sameEntries_refl, sameCourse_refl.
  constructor; [|apply sameEntries_refl, sameCourse_refl].
  constructor. by repeat split.
Qed.

Lemma modify_emit_adjusted done cur entered shared done1 again entered1 shared1 floorNext :
  ModifyView.emit elevationUponEntry plateauSegmentIntersection terrainFloor
    done cur entered shared
  = Some (done1, again, entered1, shared1, floorNext) ->
  exists written outs,
    done1 = written ++ outs
    /\ Forall2 (option_Forall2 sameCourse) done written
    /\ forall rest tail,
         adjusted sameCourse (lastTo done1) (again ++ rest) tail ->
         adjusted sameCourse (lastTo done) (cur :: rest) (outs ++ tail).
Proof.
  intros He.
  assert (Hplain : forall outs,
            (forall rest tail,
               adjusted sameCourse (lastTo (done ++ outs)) (again ++ rest) tail ->
               adjusted sameCourse (lastTo done) (cur :: rest) (outs ++ tail)) ->
            done1 = done ++ outs ->
            exists written outs,
              done1 = written ++ outs
              /\ Forall2 (option_Forall2 sameCourse) done written
              /\ forall rest tail,
                   adjusted sameCourse (lastTo done1) (again ++ rest) tail ->
                   adjusted sameCourse (lastTo done) (cur :: rest) (outs ++ tail)).
  { intros outs H ->. exists done, outs. split; [done|].
    split; [apply sameEntries_refl, sameCourse_refl | exact H]. }
  assert (Hwritten : forall e,
            Forall2 (option_Forall2 sameCourse) done
              (if shared then Ramp.writePrevTo done (length done) e else done)).
  { intros e. destruct shared; [apply written_sameCourse|].
    apply sameEntries_refl, sameCourse_refl. }
  destruct cur as [segment|]; simpl in He.
  2: { injection He as <- <- <- <- <-. eapply Hplain; [|reflexivity].
       intros rest tail H. rewrite lastTo_snoc_hole in H. by apply adjusted_hole. }
  assert (Hsame : forall s', sameCourse segment s' -> again = [] ->
            forall rest tail,
              adjusted sameCourse (lastTo (done ++ [Some s'])) (again ++ rest) tail ->
              adjusted sameCourse (lastTo done) (Some segment :: rest) ([Some s'] ++ tail)).
  { intros s' Hk -> rest tail H. rewrite lastTo_snoc in H. by apply adjusted_keep. }
  destruct (type segment) eqn:Htype.
  - destruct (JS.strictEq _ _); injection He as <- <- <- <- <-.
    + eapply Hplain; [|reflexivity]. apply Hsame; [apply sameCourse_refl | done].
    + eapply Hplain; [|reflexivity].
      intros rest tail H. rewrite lastTo_snoc2 in H. simpl.
      apply adjusted_keep; [apply sameCourse_refl|].
      apply adjusted_vertical; [repeat split | repeat split | exact H].
  - destruct (negb entered && _ && _).
    + destruct (if regionWaypointsXYEqual _ _ then _ else _) as [ix|]; [|discriminate].
      injection He as <- <- <- <- <-.
      eexists _, [Some _]. split; [reflexivity|]. split; [apply Hwritten|].
      intros rest tail H. rewrite lastTo_snoc in H. simpl in *.
      eapply adjusted_split; [exact Htype | reflexivity | | | | | exact H];
        try reflexivity; by split.
    + destruct (entered || _); injection He as <- <- <- <- <-.
      * eexists _, [Some _]. split; [reflexivity|]. split; [apply Hwritten|].
        intros rest tail H. rewrite lastTo_snoc in H.
        apply adjusted_keep; [apply sameCourse_setElevations | exact H].
      * eapply Hplain; [|reflexivity]. apply Hsame; [apply sameCourse_refl | done].
  - injection He as <- <- <- <- <-. eapply Hplain; [|reflexivity].
    intros rest tail H. apply exitToFloor_adjusted; [|exact H].
    apply sameCourse_setElevations.
Qed.

Lemma modify_scan_adjusted fuel done todo entered shared outAll entered' shared' :
  ModifyView.scan elevationUponEntry plateauSegmentIntersection terrainFloor
    fuel done todo entered shared
  = Some (Some (outAll, entered', shared')) ->
  exists done' tail,
    outAll = done' ++ tail
    /\ Forall2 (option_Forall2 sameCourse) done done'
    /\ adjusted sameCourse (lastTo done) todo tail.
Proof.
  revert done todo entered shared.
  induction fuel as [|fuel IH]; intros done todo entered shared Hs;
    destruct todo as [|cur rest]; simpl in Hs; try discriminate.
  1,2: injection Hs as <- <- <-; exists done, []; split; [by rewrite app_nil_r|];
       split; [apply sameEntries_refl, sameCourse_refl | constructor].
  destruct (ModifyView.emit _ _ _ done cur entered shared)
    as [[[[[done1 again] e1] s1] floorNext]|] eqn:He; [|discriminate].
  destruct (modify_emit_adjusted _ _ _ _ _ _ _ _ _ He) as (written & outs & -> & Hw & Hadj).
  destruct (IH _ _ _ _ Hs) as (done1' & tail & -> & Hall & H).
  apply Forall2_app_inv_l in Hall as (written' & outs' & Hw' & Ho' & ->).
  exists written', (outs' ++ tail). split; [by rewrite app_assoc|].
  split; [eapply sameEntries_trans; eauto using sameCourse_trans|].
  eapply (adjusted_same_out sameCourse sameCourse_trans).
  - done.
  - apply Hadj. apply (adjusted_same_in _ _ _ _ H).
    apply Forall2_app; [apply sameEntries_refl, sameCourse_refl|].
    destruct floorNext; [apply floorHead_sameCourse|].
    apply sameEntries_refl, sameCourse_refl.
  - apply Forall2_app; [exact Ho' | apply sameEntries_refl, sameCourse_refl].
Qed.

End AdjustedModify.

Lemma stairs_loop_fuel_mono behavior terrainFloor fuel fuel' st r :
  Stairs.loop behavior terrainFloor fuel st = Some r -> fuel <= fuel' ->
  Stairs.loop behavior terrainFloor fuel' st = Some r.
Proof.
  revert fuel' st. induction fuel as [|fuel IH]; intros fuel' st H Hle.
  - simpl in H. destruct fuel'; simpl; destruct (Stairs.i st <? Stairs.n st);
      try discriminate; exact H.
  - destruct fuel' as [|fuel']; [lia|]. simpl in *.
    destruct (Stairs.i st <? Stairs.n st); [|exact H].
    apply IH; [exact H | lia].
Qed.

(** One behavior of [segmentizeMovement]: the three adjusters keep every
    hole and every segment, with its kind and the [(x, y)] of its two ends,
    and every [ENTER] segment as it is; a [MOVE] segment may be cut into
    [MOVE] segments that lead from its start to its end; the only other
    entries of the result are vertical [MOVE] segments, each at the end of
    the segment before it. *)
Theorem movement_keeps_enter_and_exit
    (fuel : nat) (segments : list Entry) (behavior : Behavior)
    (freefall : bool) (terrainFloor : Q) (out : list Entry) :
  adjustSegments fuel segments behavior freefall terrainFloor = Some out ->
  adjusted keptByRegion None segments out.
Proof.
  unfold adjustSegments.
  destruct (active_or_guarded behavior) as [Hact | Hguard].
  2: { rewrite modifySegmentsForPlateau_guard by apply Hguard. simpl.
       rewrite modifySegmentsForStairs_guard by apply Hguard. simpl.
       rewrite modifySegmentsForRamp_guard by apply Hguard.
       intros [= <-]. apply adjusted_refl, keptByRegion_refl. }
  destruct (system_algorithm behavior) eqn:Halg.
  - rewrite modifySegmentsForPlateau_guard
      by (apply (active_other_guard _ NONE); [exact Hact | discriminate]). simpl.
    rewrite modifySegmentsForStairs_guard
      by (apply (active_other_guard _ NONE); [exact Hact | discriminate]). simpl.
    rewrite modifySegmentsForRamp_guard
      by (apply (active_other_guard _ NONE); [exact Hact | discriminate]).
    intros [= <-]. apply adjusted_refl, keptByRegion_refl.
  - rewrite PlateauScan.modifySegmentsForPlateau_scan by exact Hact.
    destruct (PlateauView.scan _ _ _ fuel [] segments false) as [[o e]|] eqn:Hs;
      [|discriminate].
    simpl.
    rewrite modifySegmentsForStairs_guard
      by (apply (active_other_guard _ PLATEAU); [exact Hact | discriminate]). simpl.
    rewrite modifySegmentsForRamp_guard
      by (apply (active_other_guard _ PLATEAU); [exact Hact | discriminate]).
    intros [= <-].
    by destruct (plateau_scan_adjusted _ _ _ _ _ _ _ _ _ Hs) as (tail & -> & H).
  - rewrite modifySegmentsForPlateau_guard
      by (apply (active_other_guard _ RAMP); [exact Hact | discriminate]). simpl.
    rewrite modifySegmentsForStairs_guard
      by (apply (active_other_guard _ RAMP); [exact Hact | discriminate]). simpl.
    rewrite modifySegmentsForRamp_scan by exact Hact.
    destruct (RampView.scan _ _ _ fuel [] segments false false) as [[[o e] s]|] eqn:Hs;
      [|discriminate].
    simpl. intros [= <-].
    destruct (ramp_scan_adjusted _ _ _ _ _ _ _ _ _ _ _ Hs) as (done' & tail & -> & Hd & H);
      [discriminate|].
    inversion Hd; subst. exact H.
  - rewrite modifySegmentsForPlateau_guard
      by (apply (active_other_guard _ STAIRS); [exact Hact | discriminate]). simpl.
    destruct (modifySegmentsForStairs fuel segments behavior terrainFloor)
      as [o|] eqn:Hs; [|discriminate].
    simpl.
    rewrite modifySegmentsForRamp_guard
      by (apply (active_other_guard _ STAIRS); [exact Hact | discriminate]).
    intros [= <-].
    assert (Hrun : modifySegmentsForStairs (Nat.max fuel (length segments)) segments
                     behavior terrainFloor = Some o).
    { unfold modifySegmentsForStairs in *.
      destruct (active_guard _ _ Hact) as [Hg Ha]. rewrite Hg, Ha in *. simpl in *.
      apply (stairs_loop_fuel_mono _ _ fuel); [exact Hs | lia]. }
    rewrite modifySegmentsForStairs_scan in Hrun by (done || lia).
    injection Hrun as <-.
    by destruct (stairs_scan_adjusted behavior terrainFloor [] segments
                   (false, true, system_elevation behavior)) as (tail & -> & H).
Qed.

Lemma movement_keeps_enter_and_exit_witness :
  adjusted keptByRegion None
    [Some (mkSegment MOVE (wp 0 0 20) (wp 0 0 0)); Some groundEnter; Some groundExit]
    [Some (mkSegment MOVE (wp 0 0 20) (wp 0 0 10));
     Some (mkSegment MOVE (wp 0 0 10) (wp 0 0 0));
     Some groundEnter;
     Some (mkSegment MOVE (wp 1 0 0) (wp 1 0 10));
     Some (mkSegment MOVE (wp 1 0 10) (wp 1 0 0));
     Some groundExit].
Proof.
  apply (movement_keeps_enter_and_exit 6
           [Some (mkSegment MOVE (wp 0 0 20) (wp 0 0 0)); Some groundEnter; Some groundExit]
           (plateauBehavior 10 true) true 0).
  reflexivity.
Defined.

(** [_modifySegments] keeps every hole and every segment, with its kind
    and the [(x, y)] of its two ends; a [MOVE] segment may be cut into
    [MOVE] segments that lead from its start to its end; the only other
    entries of the result are vertical [MOVE] segments, each at the end of
    the segment before it. *)
Theorem handler_adjuster_keeps_enter_and_exit
    (isElevated : bool) (elevationUponEntry : Waypoint -> Q)
    (plateauSegmentIntersection : Waypoint -> Waypoint -> option Waypoint)
    (terrainFloor : Q) (fuel : nat) (segments out : list Entry) :
  Modify._modifySegments isElevated elevationUponEntry plateauSegmentIntersection
    terrainFloor fuel segments = Some (Some out) ->
  adjusted sameCourse None segments out.
Proof.
  destruct isElevated.
  - rewrite _modifySegments_scan.
    destruct (ModifyView.scan _ _ _ fuel [] segments false false) as [[[[o e] s]|]|] eqn:Hs;
      try discriminate.
    simpl. intros [= <-].
    destruct (modify_scan_adjusted _ _ _ _ _ _ _ _ _ _ _ Hs) as (done' & tail & -> & Hd & H).
    inversion Hd; subst. exact H.
  - intros [= <-]. apply adjusted_refl, sameCourse_refl.
Qed.

Lemma handler_adjuster_keeps_enter_and_exit_witness :
  adjusted sameCourse None
    [Some (mkSegment MOVE (wp 0 0 20) (wp 0 0 0)); Some groundEnter; Some groundExit]
    [Some (mkSegment MOVE (wp 0 0 20) (wp 0 0 10));
     Some (mkSegment MOVE (wp 0 0 10) (wp 0 0 10));
     Some groundEnter;
     Some (mkSegment MOVE (wp 1 0 0) (wp 1 0 10));
     Some (mkSegment MOVE (wp 1 0 10) (wp 1 0 0));
     Some groundExit].
Proof.
  apply (handler_adjuster_keeps_enter_and_exit true (plateauHandler 10)
           (fun _ _ => None) 0 6
           [Some (mkSegment MOVE (wp 0 0 20) (wp 0 0 0)); Some groundEnter; Some groundExit]).
  reflexivity.
Defined.

(** ** Running an adjuster twice *)

Lemma strictEq_level a b :
  JS.strictEq a b = true ->
  JS.gt a b = false /\ JS.lt a b = false.
Proof.
  unfold JS.strictEq, JS.gt, JS.lt. intros H%Qeq_bool_eq.
  rewrite !(proj2 (Qle_bool_iff _ _)); [done | rewrite H | rewrite H]; apply Qle_refl.
Qed.

Section PlateauTwice.
Variables (behavior : Behavior) (freefall : bool) (terrainFloor : Q).
Hypothesis Hreset : system_reset behavior = false.
Hypothesis Hix : forall a b ix,
  system_plateauSegmentIntersection behavior a b = Some ix ->
  JS.strictEq (elevation ix) (system_elevation behavior) = true.

(** The iterations the scan spends on one entry, and the same iterations
    on what they leave: the entry as it is or raised, or the two halves
    of a split, which are not split again. *)
Lemma plateau_entry_twice cur entered :
  enterSettled behavior cur ->
  exists outs entered',
    1 <= length outs <= 2
    /\ (freefall = false -> length outs = 1)
    /\ Forall (enterSettled behavior) outs
    /\ (forall fuel done rest,
          PlateauView.scan behavior freefall terrainFloor (length outs + fuel)
            done (cur :: rest) entered
          = PlateauView.scan behavior freefall terrainFloor fuel (done ++ outs) rest entered')
    /\ (forall fuel done rest,
          PlateauView.scan behavior freefall terrainFloor (length outs + fuel)
            done (outs ++ rest) entered
          = PlateauView.scan behavior freefall terrainFloor fuel (done ++ outs) rest entered').
Proof.
  intros Hset.
  assert (Hone : forall o entered',
            enterSettled behavior o ->
            (forall done, PlateauView.emit behavior freefall terrainFloor done cur entered
                          = ([o], [], entered')) ->
            (forall done, PlateauView.emit behavior freefall terrainFloor done o entered
                          = ([o], [], entered')) ->
            exists outs entered',
              1 <= length outs <= 2
              /\ (freefall = false -> length outs = 1)
              /\ Forall (enterSettled behavior) outs
              /\ (forall fuel done rest,
                    PlateauView.scan behavior freefall terrainFloor (length outs + fuel)
                      done (cur :: rest) entered
                    = PlateauView.scan behavior freefall terrainFloor fuel (done ++ outs)
                        rest entered')
              /\ (forall fuel done rest,
                    PlateauView.scan behavior freefall terrainFloor (length outs + fuel)
                      done (outs ++ rest) entered
                    = PlateauView.scan behavior freefall terrainFloor fuel (done ++ outs)
                        rest entered')).
  { intros o e1 Ho H1 H2. exists [o], e1. split; [simpl; lia|]. split; [done|].
    split; [by constructor|]. split; intros fuel done rest; simpl.
    - by rewrite H1.
    - by rewrite H2. }
  destruct cur as [segment|]; [|by apply (Hone None entered)].
  destruct (type segment) eqn:Htype.
  - (* ENTER, settled *)
    apply (Hone (Some segment) true); [exact Hset | |];
      intros done; simpl; by rewrite Htype, (Hset Htype).
  - (* MOVE *)
    destruct entered.
    { apply (Hone (Some (setElevations segment
                           (JS.Math_max (system_elevation behavior) (elevation (from segment)))
                           (JS.Math_max (system_elevation behavior) (elevation (to segment)))))
               true).
      - simpl. congruence.
      - intros done. simpl. by rewrite Htype.
      - intros done. simpl. by rewrite Htype, !Math_max_idem. }
    assert (Hsame : forall done,
              PlateauView.emit behavior freefall terrainFloor done (Some segment) false
              = ([Some segment], [], false) ->
              exists outs entered',
                1 <= length outs <= 2
                /\ (freefall = false -> length outs = 1)
                /\ Forall (enterSettled behavior) outs
                /\ (forall fuel done rest,
                      PlateauView.scan behavior freefall terrainFloor (length outs + fuel)
                        done (Some segment :: rest) false
                      = PlateauView.scan behavior freefall terrainFloor fuel (done ++ outs)
                          rest entered')
                /\ (forall fuel done rest,
                      PlateauView.scan behavior freefall terrainFloor (length outs + fuel)
                        done (outs ++ rest) false
                      = PlateauView.scan behavior freefall terrainFloor fuel (done ++ outs)
                          rest entered')).
    { intros done0 H0.
      assert (H : forall done,
                PlateauView.emit behavior freefall terrainFloor done (Some segment) false
                = ([Some segment], [], false)).
      { intros done. rewrite <- H0. simpl. by rewrite Htype. }
      apply (Hone (Some segment) false); [simpl; congruence | exact H | exact H]. }
    destruct (freefall
              && JS.gt (elevation (from segment)) (system_elevation behavior)
              && JS.lt (elevation (to segment)) (system_elevation behavior)) eqn:Hcross.
    2: { apply (Hsame []). simpl. by rewrite Htype, Hcross. }
    destruct (if regionWaypointsXYEqual (from segment) (to segment)
              then Some (withElevation (from segment) (system_elevation behavior))
              else system_plateauSegmentIntersection behavior (from segment) (to segment))
      as [ix|] eqn:Hmeet.
    2: { apply (Hsame []). simpl. by rewrite Htype, Hcross, Hmeet. }
    destruct (regionWaypointsEqual ix (from segment) || regionWaypointsEqual ix (to segment))
      eqn:Hends.
    { apply (Hsame []). simpl. by rewrite Htype, Hcross, Hmeet, Hends. }
    assert (Hlevel : JS.strictEq (elevation ix) (system_elevation behavior) = true).
    { destruct (regionWaypointsXYEqual _ _).
      - injection Hmeet as <-. apply strictEq_refl.
      - by eapply Hix. }
    destruct (strictEq_level _ _ Hlevel) as [Hgt Hlt].
    set (toIx := {| type := MOVE; from := from segment; to := ix |}).
    set (fromIx := {| type := MOVE; from := ix; to := to segment |}).
    assert (H1 : forall done,
              PlateauView.emit behavior freefall terrainFloor done (Some segment) false
              = ([Some toIx], [Some fromIx], false)).
    { intros done. simpl. by rewrite Htype, Hcross, Hmeet, Hends. }
    assert (H2 : forall done,
              PlateauView.emit behavior freefall terrainFloor done (Some fromIx) false
              = ([Some fromIx], [], false)).
    { intros done. simpl. rewrite Hgt. by rewrite andb_false_r. }
    assert (H3 : forall done,
              PlateauView.emit behavior freefall terrainFloor done (Some toIx) false
              = ([Some toIx], [], false)).
    { intros done. simpl. rewrite Hlt. by rewrite andb_false_r. }
    exists [Some toIx; Some fromIx], false. split; [simpl; lia|].
    split; [intros ->; discriminate|].
    split; [repeat constructor; simpl; discriminate|].
    split; intros fuel done rest.
    + change (length [Some toIx; Some fromIx] + fuel) with (S (S fuel)).
      cbn [PlateauView.scan]. rewrite H1. cbn [app PlateauView.scan]. rewrite H2.
      by rewrite <- app_assoc.
    + change (length [Some toIx; Some fromIx] + fuel) with (S (S fuel)).
      cbn [app PlateauView.scan]. rewrite H3. cbn [app PlateauView.scan]. rewrite H2.
      by rewrite <- app_assoc.
  - (* EXIT, no reset *)
    apply (Hone (Some segment) false); [simpl; congruence | |];
      intros done; simpl; by rewrite Htype, Hreset.
Qed.

Lemma plateau_scan_twice todo :
  Forall (enterSettled behavior) todo ->
  forall entered, exists out entered',
    length todo <= length out <= 2 * length todo
    /\ (freefall = false -> length out = length todo)
    /\ forall fuel done, length out <= fuel ->
         PlateauView.scan behavior freefall terrainFloor fuel done todo entered
         = Some (done ++ out, entered')
         /\ PlateauView.scan behavior freefall terrainFloor fuel done out entered
            = Some (done ++ out, entered').
Proof.
  induction 1 as [|cur rest Hcur Hrest IH]; intros entered.
  - exists [], entered. split; [simpl; lia|]. split; [done|].
    intros fuel done _. destruct fuel; simpl; by rewrite app_nil_r.
  - destruct (plateau_entry_twice cur entered Hcur)
      as (outs & e1 & Hlen & Hone & Hsettled & Hfirst & Hsecond).
    destruct (IH e1) as (out & e' & Hlen' & Hflat & Hscan).
    exists (outs ++ out), e'. rewrite length_app. split; [simpl; lia|].
    split; [intros Hff; rewrite (Hflat Hff), (Hone Hff); reflexivity|].
    intros fuel done Hle.
    replace fuel with (length outs + (fuel - length outs)) by lia.
    destruct (Hscan (fuel - length outs) (done ++ outs) ltac:(lia)) as [E1 E2].
    rewrite <- app_assoc in E1, E2. split.
    + by rewrite Hfirst.
    + by rewrite Hsecond.
Qed.
End PlateauTwice.

Lemma almostEqual_refl a : JS.almostEqual a a = true.
Proof.
  unfold JS.almostEqual, JS.lt.
  assert (H : Qabs (a - a) == 0) by (rewrite (Qplus_opp_r a); reflexivity).
  destruct (Qle_bool _ _) eqn:E; [|reflexivity].
  apply Qle_bool_iff in E. rewrite H in E. Lqa.lra.
Qed.

Section RampTwice.
Variables (behavior : Behavior) (freefall : bool) (terrainFloor : Q).
Hypothesis Hreset : system_reset behavior = false.
Hypothesis Hplace : surfaceByPlace behavior.
Hypothesis Hmeets : meetsSurface behavior.
Hypothesis Hend : meetsAtEnd behavior.

(** The iterations the scan spends on one entry, and the same iterations
    on what they leave: the entry as it is or set on the ramp, or the two
    halves of a split, which meet on the ramp and are not split again. *)
Lemma ramp_entry_twice cur entered :
  rampEnterSettled behavior cur ->
  exists outs entered',
    1 <= length outs <= 2
    /\ Forall (rampEnterSettled behavior) outs
    /\ (forall fuel done rest,
          RampView.scan behavior freefall terrainFloor (length outs + fuel)
            done (cur :: rest) entered false
          = RampView.scan behavior freefall terrainFloor fuel (done ++ outs) rest
              entered' false)
    /\ (forall fuel done rest,
          RampView.scan behavior freefall terrainFloor (length outs + fuel)
            done (outs ++ rest) entered false
          = RampView.scan behavior freefall terrainFloor fuel (done ++ outs) rest
              entered' false).
Proof.
  intros Hset.
  assert (Hone : forall o entered',
            rampEnterSettled behavior o ->
            (forall done, RampView.emit behavior freefall terrainFloor done cur entered false
                          = (done ++ [o], [], entered', false)) ->
            (forall done, RampView.emit behavior freefall terrainFloor done o entered false
                          = (done ++ [o], [], entered', false)) ->
            exists outs entered',
              1 <= length outs <= 2
              /\ Forall (rampEnterSettled behavior) outs
              /\ (forall fuel done rest,
                    RampView.scan behavior freefall terrainFloor (length outs + fuel)
                      done (cur :: rest) entered false
                    = RampView.scan behavior freefall terrainFloor fuel (done ++ outs) rest
                        entered' false)
              /\ (forall fuel done rest,
                    RampView.scan behavior freefall terrainFloor (length outs + fuel)
                      done (outs ++ rest) entered false
                    = RampView.scan behavior freefall terrainFloor fuel (done ++ outs) rest
                        entered' false)).
  { intros o e1 Ho H1 H2. exists [o], e1. split; [simpl; lia|].
    split; [by constructor|]. split; intros fuel done rest; simpl.
    - by rewrite H1.
    - by rewrite H2. }
  destruct cur as [segment|]; [|by apply (Hone None entered)].
  destruct (type segment) eqn:Htype.
  - (* ENTER, settled *)
    apply (Hone (Some segment) true); [exact Hset | |];
      intros done; simpl; by rewrite Htype, (Hset Htype).
  - (* MOVE *)
    set (onRamp := fun w : Waypoint => withElevation w (system_plateauElevation behavior w)).
    destruct (entered
              || JS.almostEqual (elevation (from segment))
                   (system_plateauElevation behavior (from segment))) eqn:Hon.
    { apply (Hone (Some {| type := type segment; from := onRamp (from segment);
                           to := onRamp (to segment) |}) entered).
      - simpl. congruence.
      - intros done. simpl. by rewrite Htype, Hon.
      - intros done. simpl. rewrite Htype. unfold onRamp.
        rewrite !Hplace. simpl. rewrite almostEqual_refl, orb_true_r. reflexivity. }
    assert (Hsame : forall done,
              RampView.emit behavior freefall terrainFloor done (Some segment) entered false
              = (done ++ [Some segment], [], entered, false) ->
              exists outs entered',
                1 <= length outs <= 2
                /\ Forall (rampEnterSettled behavior) outs
                /\ (forall fuel done rest,
                      RampView.scan behavior freefall terrainFloor (length outs + fuel)
                        done (Some segment :: rest) entered false
                      = RampView.scan behavior freefall terrainFloor fuel (done ++ outs)
                          rest entered' false)
                /\ (forall fuel done rest,
                      RampView.scan behavior freefall terrainFloor (length outs + fuel)
                        done (outs ++ rest) entered false
                      = RampView.scan behavior freefall terrainFloor fuel (done ++ outs)
                          rest entered' false)).
    { intros done0 H0.
      assert (H : forall done,
                RampView.emit behavior freefall terrainFloor done (Some segment) entered false
                = (done ++ [Some segment], [], entered, false)).
      { intros done. simpl in *. rewrite Htype, Hon in *.
        destruct (negb _); [reflexivity|].
        destruct (system_plateauSegmentIntersection _ _ _) as [ix|]; [|reflexivity].
        destruct (_ || _); [reflexivity|].
        injection H0 as H0 _. apply app_inv_head in H0. discriminate. }
      apply (Hone (Some segment) entered); [simpl; congruence | exact H | exact H]. }
    destruct (negb (freefall
                    || JS.strictEq (elevation (from segment)) (elevation (to segment))))
      eqn:Hflat.
    { apply (Hsame []). simpl. by rewrite Htype, Hon, Hflat. }
    destruct (system_plateauSegmentIntersection behavior (from segment) (to segment))
      as [ix|] eqn:Hmeet.
    2: { apply (Hsame []). simpl. by rewrite Htype, Hon, Hflat, Hmeet. }
    destruct (regionWaypointsEqual ix (from segment) || regionWaypointsEqual ix (to segment))
      eqn:Hends.
    { apply (Hsame []). simpl. by rewrite Htype, Hon, Hflat, Hmeet, Hends. }
    apply orb_false_iff in Hon as [-> Hoff].
    pose proof (Hmeets _ _ _ Hmeet) as Hix.
    set (toIx := {| type := MOVE; from := from segment; to := onRamp ix |}).
    set (fromIx := {| type := MOVE; from := onRamp ix; to := onRamp (to segment) |}).
    assert (H1 : forall done,
              RampView.emit behavior freefall terrainFloor done (Some segment) false false
              = (done ++ [Some {| type := MOVE; from := from segment; to := ix |}],
                 [Some {| type := MOVE; from := ix; to := to segment |}], false, true)).
    { intros done. simpl. by rewrite Htype, Hoff, Hflat, Hmeet, Hends. }
    assert (H2 : forall done,
              RampView.emit behavior freefall terrainFloor
                (done ++ [Some {| type := MOVE; from := from segment; to := ix |}])
                (Some {| type := MOVE; from := ix; to := to segment |}) false true
              = (done ++ [Some toIx; Some fromIx], [], false, false)).
    { intros done. simpl. rewrite Hix.
      rewrite writePrevTo_snoc, <- app_assoc. reflexivity. }
    assert (H3 : forall done,
              RampView.emit behavior freefall terrainFloor done (Some toIx) false false
              = (done ++ [Some toIx], [], false, false)).
    { intros done. unfold toIx. simpl. rewrite Hoff.
      match goal with |- context [negb ?c] => destruct (negb c); [reflexivity|] end.
      pose proof (Hend (from segment) (onRamp ix)) as He.
      destruct (system_plateauSegmentIntersection behavior (from segment) (onRamp ix))
        as [ix'|]; [|reflexivity].
      rewrite He; [reflexivity|]. unfold onRamp. by rewrite Hplace. }
    assert (H4 : forall done,
              RampView.emit behavior freefall terrainFloor done (Some fromIx) false false
              = (done ++ [Some fromIx], [], false, false)).
    { intros done. unfold fromIx, onRamp. simpl.
      rewrite !Hplace, almostEqual_refl. reflexivity. }
    exists [Some toIx; Some fromIx], false. split; [simpl; lia|].
    split; [repeat constructor; simpl; discriminate|].
    split; intros fuel done rest.
    + change (length [Some toIx; Some fromIx] + fuel) with (S (S fuel)).
      cbn [RampView.scan]. rewrite H1. cbn [app RampView.scan]. by rewrite H2.
    + change (length [Some toIx; Some fromIx] + fuel) with (S (S fuel)).
      cbn [app RampView.scan]. rewrite H3. cbn [app RampView.scan]. rewrite H4.
      by rewrite <- app_assoc.
  - (* EXIT, no reset *)
    apply (Hone (Some segment) false); [simpl; congruence | |];
      intros done; simpl; by rewrite Htype, Hreset.
Qed.

Lemma ramp_scan_twice todo :
  Forall (rampEnterSettled behavior) todo ->
  forall entered, exists out entered',
    length todo <= length out <= 2 * length todo
    /\ forall fuel done, length out <= fuel ->
         RampView.scan behavior freefall terrainFloor fuel done todo entered false
         = Some (done ++ out, entered', false)
         /\ RampView.scan behavior freefall terrainFloor fuel done out entered false
            = Some (done ++ out, entered', false).
Proof.
  induction 1 as [|cur rest Hcur Hrest IH]; intros entered.
  - exists [], entered. split; [simpl; lia|].
    intros fuel done _. destruct fuel; simpl; by rewrite app_nil_r.
  - destruct (ramp_entry_twice cur entered Hcur)
      as (outs & e1 & Hlen & Hsettled & Hfirst & Hsecond).
    destruct (IH e1) as (out & e' & Hlen' & Hscan).
    exists (outs ++ out), e'. rewrite length_app. split; [simpl; lia|].
    intros fuel done Hle.
    replace fuel with (length outs + (fuel - length outs)) by lia.
    destruct (Hscan (fuel - length outs) (done ++ outs) ltac:(lia)) as [E1 E2].
    rewrite <- app_assoc in E1, E2. split.
    + by rewrite Hfirst.
    + by rewrite Hsecond.
Qed.
End RampTwice.

(** The sample ramp keeps the three properties of the two methods. *)
Lemma slope_surface :
  surfaceByPlace slope /\ meetsSurface slope /\ meetsAtEnd slope.
Proof.
  split; [|split].
  - intros w e. reflexivity.
  - intros a b ix. simpl. unfold crossSlope.
    destruct (Qeq_bool _ 0); [discriminate|].
    destruct (_ && _); [|discriminate].
    intros [= <-]. apply almostEqual_refl.
  - intros a b Hb. simpl in *. unfold crossSlope.
    destruct (Qeq_bool _ 0) eqn:Hrise; [done|].
    destruct (_ && _); [|done].
    apply orb_true_iff. right.
    assert (Hne : ~ (elevation b - elevation a - (x b - x a) == 0)%Q).
    { intros H%Qeq_bool_iff. congruence. }
    unfold regionWaypointsEqual, JS.strictEq. simpl.
    rewrite !andb_true_iff, !Qeq_bool_iff. rewrite Hb in *.
    repeat split; field; try exact Hne.
Qed.




(** What the fixed point takes of the two methods cannot be left out.
    With an intersection method that yields the middle of the segment
    instead of a point of the plateau, the second run splits the halves of
    a split again.  On a ramp it does so too when the method yields the
    place of the middle at the elevation of the ramp there, a point of the
    ramp that is not where the segment meets it; with the middle as it is,
    off the ramp, the first run goes on splitting; and with an elevation of
    the ramp that reads the elevation of the location, the second run moves
    the segment again. *)
Lemma fixed_point_needs_the_surface :
  (exists out out' : list Entry,
     adjustSegments 6 [Some (mkSegment MOVE (wp 0 0 30) (wp 10 0 0))]
       (mkBehavior setElevation_type false PLATEAU 10 0 false (fun _ => 10%Q)
          (fun a b => Some (halfway a b))) true 0 = Some out
     /\ adjustSegments 6 out
          (mkBehavior setElevation_type false PLATEAU 10 0 false (fun _ => 10%Q)
             (fun a b => Some (halfway a b))) true 0 = Some out'
     /\ length out = 3 /\ length out' = 5)
  /\ (exists out out' : list Entry,
        adjustSegments 6 [Some (mkSegment MOVE (wp 0 0 5) (wp 10 0 5))]
          (rampBehavior (fun w => x w)
             (fun a b => Some (withElevation (halfway a b) (x (halfway a b)))) false)
          true 0 = Some out
        /\ adjustSegments 6 out
             (rampBehavior (fun w => x w)
                (fun a b => Some (withElevation (halfway a b) (x (halfway a b)))) false)
             true 0 = Some out'
        /\ length out = 2 /\ length out' = 3)
  /\ (exists out out' : list Entry,
        adjustSegments 6 [Some (mkSegment MOVE (wp 0 0 0) (wp 1 0 8))]
          (rampBehavior (fun w => (elevation w / 2)%Q) (fun _ _ => None) false)
          true 0 = Some out
        /\ adjustSegments 6 out
             (rampBehavior (fun w => (elevation w / 2)%Q) (fun _ _ => None) false)
             true 0 = Some out'
        /\ out' <> out)
  /\ adjustSegments 40 [Some (mkSegment MOVE (wp 0 0 8) (wp 10 0 8))]
       (rampBehavior (fun w => x w) (fun a b => Some (halfway a b)) false) true 0
     = None.
Proof.
  split; [|split; [|split]].
  - eexists. eexists. split; [vm_compute; reflexivity|].
    split; [vm_compute; reflexivity|]. split; reflexivity.
  - eexists. eexists. split; [vm_compute; reflexivity|].
    split; [vm_compute; reflexivity|]. split; reflexivity.
  - eexists. eexists. split; [vm_compute; reflexivity|].
    split; [vm_compute; reflexivity|]. discriminate.
  - vm_compute. reflexivity.
Qed.
